(** * tethne.analyze.collection: analysis of graph collections

    A shallow embedding of [src/tethne/analyze/collection.py] and the
    properties of its operations: [algorithm], [connected], [delta],
    [attachment_probability] and [node_global_closeness_centrality].

    Python objects live in a store (object identifier to graph); a
    [GraphCollection] maps slice keys to object identifiers, so two keys
    may name one and the same graph object.  Every operation is a
    computation that threads the store and may raise an exception. *)

From stdpp Require Import gmap strings list fin_maps sorting.
From Stdlib Require Import QArith Lqa.

Close Scope Q_scope.
Open Scope string_scope.

(** ** Identifiers *)

(** Node identifiers, slice keys (years) and object identifiers. *)
Abbreviation node := string (only parsing).
Abbreviation key := Z (only parsing).
Abbreviation objid := nat (only parsing).

(** ** Exceptions and the store-passing computation type *)

(** The exceptions of Python that matter here, what a library call may
    raise, and [DanglingReference] for a reference to no object of the
    store, which no run from a well-formed state meets. *)
Inductive exn : Type :=
| KeyError
| IndexError
| TypeError
| ValueError (msg : string)
| AttributeError
| LibraryError (msg : string)
| DanglingReference.

(** A computation over a store [S]: it returns the store it reached and
    either the exception that escaped or a value. *)
Definition M (S A : Type) : Type := S → S * (exn + A).

Definition ret {S A} (a : A) : M S A := λ σ, (σ, inr a).

Definition raise {S A} (e : exn) : M S A := λ σ, (σ, inl e).

Definition bind {S A B} (m : M S A) (f : A → M S B) : M S B :=
  λ σ, match m σ with
       | (σ', inr a) => f a σ'
       | (σ', inl e) => (σ', inl e)
       end.

Notation "x <- m ;; k" := (bind m (λ x, k))
  (at level 100, m at next level, right associativity).

Definition get {S} : M S S := λ σ, (σ, inr σ).

Definition modify {S} (f : S → S) : M S unit := λ σ, (f σ, inr tt).

(** The result of a pure call that may raise. *)
Definition lift {S A} (r : exn + A) : M S A :=
  match r with
  | inl e => raise e
  | inr a => ret a
  end.

(** A dictionary or list lookup [d[i]]: [KeyError] when absent. *)
Definition getitem {S A} (o : option A) : M S A :=
  match o with
  | Some a => ret a
  | None => raise KeyError
  end.

(** [l[-1]] on a list; [None] stands for the [IndexError] of an empty list. *)
Definition item_minus1 {A} (l : list A) : option A := last l.

(** [try: m  except KeyError: pass].  What [m] did to the state before it
    raised stays done; any other exception propagates. *)
Definition try_except_KeyError {S} (m : M S unit) : M S unit :=
  λ σ, match m σ with
       | (σ', inl KeyError) => (σ', inr tt)
       | r => r
       end.

(** A block that works on local variables [L] only, run inside a
    computation over the store. *)
Definition run_local {S L A} (m : M L A) (locals : L) : M S (L * A) :=
  λ σ, match m locals with
       | (l', inr a) => (σ, inr (l', a))
       | (_, inl e) => (σ, inl e)
       end.

(** [for x in l: acc = body x acc]; an exception leaves the loop. *)
Fixpoint for_each {S A B} (l : list A) (body : A → B → M S B) (acc : B) : M S B :=
  match l with
  | [] => ret acc
  | x :: l' => acc' <- body x acc ;; for_each l' body acc'
  end.

(** ** Graphs (networkx 1.x, as far as this module uses them) *)

(** What a graph holds for one node: the keys of [G[n]] (its neighbours)
    and the attribute dictionary [G.node[n]]. *)
Record NodeData (pyobj : Type) : Type := mkNodeData {
  nbrs : gset node;
  attrs : gmap string pyobj
}.
Arguments mkNodeData {pyobj} _ _.
Arguments nbrs {pyobj} _.
Arguments attrs {pyobj} _.

Abbreviation Graph pyobj := (gmap node (NodeData pyobj)).
Abbreviation Store pyobj := (gmap objid (Graph pyobj)).

(** [C.graphs], in the iteration order of the dictionary. *)
Record GraphCollection : Type := mkCollection {
  graphs : list (key * objid)
}.

(** An entry of a module's [__dict__]: a plain function
    ([types.FunctionType]) or anything else (class, constant, module). *)
Inductive entry (A : Type) : Type :=
| PlainFunction (f : A)
| NotFunction.
Arguments PlainFunction {A} f.
Arguments NotFunction {A}.

Section Model.
Context {pyobj kwargs : Type}.

(** Reading an object reference. *)
Definition deref (G : objid) : M (Store pyobj) (Graph pyobj) :=
  λ σ, match σ !! G with
       | Some g => (σ, inr g)
       | None => (σ, inl DanglingReference)
       end.

Definition assign (G : objid) (g : Graph pyobj) : M (Store pyobj) unit :=
  λ σ, (<[G := g]> σ, inr tt).

(** [G.nodes()] *)
Definition graph_nodes (g : Graph pyobj) : list node := elements (dom g).

(** [G.nodes(data=True)] *)
Definition graph_nodes_data (g : Graph pyobj) : list (node * gmap string pyobj) :=
  map_to_list (attrs <$> g).

(** [G.node[n][name] = value] *)
Definition set_attr (name : string) (value : pyobj) (d : NodeData pyobj) : NodeData pyobj :=
  mkNodeData (nbrs d) (<[name := value]> (attrs d)).

(** [nx.set_node_attributes(G, name, values)] of networkx 1.x:
    [for node, value in values.items(): G.node[node][name] = value].
    A key of [values] that is not a node of [G] raises [KeyError]; what
    was written before stays written. *)
Definition set_node_attributes (G : objid) (name : string) (values : gmap node pyobj)
  : M (Store pyobj) unit :=
  for_each (map_to_list values)
    (λ '(n, value) _,
       g <- deref G ;;
       match g !! n with
       | None => raise KeyError
       | Some d => assign G (<[n := set_attr name value d]> g)
       end) tt.

(** [nx.get_node_attributes(G, name)] *)
Definition get_node_attributes (g : Graph pyobj) (name : string) : gmap node pyobj :=
  omap (λ d, attrs d !! name) g.

(** What [set_node_attributes] leaves in the graph when every key of
    [values] is a node: a closed form of the loop above. *)
Definition write_attrs (name : string) (values : gmap node pyobj) (g : Graph pyobj)
  : Graph pyobj :=
  map_imap (λ n d, Some (from_option (λ v, set_attr name v d) d (values !! n))) g.

(** *** [algorithm] *)

(** A function of the [networkx] namespace as [algorithm] calls it on
    line 66: it is given the graph object and the keyword arguments; it may
    read and write the graph (as [set_node_attributes] and
    [double_edge_swap] do), and it raises or returns a dictionary from
    element to value.  (A return value without [iteritems] makes line 67
    raise, after the function has done to the graph what it does: that
    is an [inl] outcome too.) *)
Definition nx_function : Type := kwargs → objid → M (Store pyobj) (gmap node pyobj).

(** A function that reads the graph it is given and writes nothing, as
    the measures of networkx do ([degree], the centralities). *)
Definition graph_measure : Type := kwargs → Graph pyobj → exn + gmap node pyobj.

Definition read_only (f : graph_measure) : nx_function :=
  λ kw G, g <- deref G ;; lift (f kw g).

(** Lines 68-71: [results[elem][k] = value], or a fresh inner dictionary
    on [KeyError]. *)
Definition merge_item (k : key) (results : gmap node (gmap key pyobj)) (item : node * pyobj)
  : gmap node (gmap key pyobj) :=
  match results !! item.1 with
  | Some inner => <[item.1 := <[k := item.2]> inner]> results
  | None => <[item.1 := {[k := item.2]}]> results
  end.

(** Lines 66-72, the body of the loop over [C.graphs.iteritems()]. *)
Definition algorithm_graph (f : nx_function) (method : string) (kw : kwargs)
    (kG : key * objid) (results : gmap node (gmap key pyobj))
  : M (Store pyobj) (gmap node (gmap key pyobj)) :=
  let '(k, G) := kG in
  r <- f kw G ;;
  let results := foldl (merge_item k) results (map_to_list r) in
  _ <- set_node_attributes G method r ;;
  ret results.

Definition algorithm (nx : gmap string (entry nx_function)) (C : GraphCollection)
    (method : string) (kw : kwargs)
  : M (Store pyobj) (gmap node (gmap key pyobj)) :=
  match nx !! method with
  | None => raise (ValueError "No such name in networkx.")
  | Some NotFunction => raise (ValueError "No such method in networkx.")
  | Some (PlainFunction f) => for_each (graphs C) (algorithm_graph f method kw) ∅
  end.

(** The raw result of the measure [f] on the graph object [G] of the
    store [σ] (empty when the call raises). *)
Definition raw_result (f : graph_measure) (kw : kwargs) (σ : Store pyobj) (G : objid)
  : gmap node pyobj :=
  match σ !! G with
  | Some g => match f kw g with
              | inr r => r
              | inl _ => ∅
              end
  | None => ∅
  end.

(** The element-major mapping in the words of the specification,
    [{n: {k: v_k for each slice k}}]: every element of some per-graph
    result [raw[k]], with the values it has in the slices that have it. *)
Definition element_major (raw : gmap key (gmap node pyobj)) : gmap node (gmap key pyobj) :=
  set_to_map (λ n, (n, omap (λ r : gmap node pyobj, r !! n) raw))
             (⋃ (dom <$> (map_to_list raw).*2) : gset node).

(** *** [connected] *)

(** A function of [networkx.connected]: it reads the graph, and its
    return value is kept as it is. *)
Definition nx_connected_function : Type := kwargs → Graph pyobj → exn + pyobj.

(** Line 172, the body of the loop. *)
Definition connected_graph (f : nx_connected_function) (kw : kwargs)
    (kG : key * objid) (results : gmap key pyobj) : M (Store pyobj) (gmap key pyobj) :=
  let '(k, G) := kG in
  g <- deref G ;;
  v <- lift (f kw g) ;;
  ret (<[k := v]> results).

Definition connected (nxc : gmap string (entry nx_connected_function)) (C : GraphCollection)
    (method : string) (kw : kwargs)
  : M (Store pyobj) (gmap key pyobj) :=
  match nxc !! method with
  | None => raise (ValueError "No such name in networkx.connected.")
  | Some NotFunction => raise (ValueError "No such method in networkx.connected.")
  | Some (PlainFunction f) => for_each (graphs C) (connected_graph f kw) ∅
  end.

(** *** The collection's own accessors *)

(** [C.graphs[k]] *)
Definition graphs_lookup (C : GraphCollection) (k : key) : option objid :=
  (list_to_map (graphs C) : gmap key objid) !! k.

(** Modelled from the spec: [GraphCollection.__getitem__], a method of
    the collection class, which this module only uses; the collection is
    "a mapping from a time/slice index to a graph instance", so [G[k]] is
    [G.graphs[k]]. *)
Definition collection_getitem (C : GraphCollection) (k : key) : M (Store pyobj) objid :=
  getitem (graphs_lookup C k).

(** The union of the node identifiers of the graphs of the collection. *)
Definition node_union (C : GraphCollection) (σ : Store pyobj) : gset node :=
  ⋃ ((λ kG, dom (default ∅ (σ !! kG.2))) <$> graphs C).

(** Modelled from the spec: [GraphCollection.nodes()], a method of the
    collection class, which this module only uses; "the collection
    exposes the union of node identifiers across all constituent graphs",
    "the set of all node identifiers appearing anywhere in the
    collection": each identifier once, in some order. *)
Definition collection_nodes (C : GraphCollection) : M (Store pyobj) (list node) :=
  σ <- get ;;
  ret (elements (node_union C σ)).

(** What Python guarantees of a collection in a store: the keys of the
    dictionary [C.graphs] are distinct, and every reference is to an
    object of the store. *)
Definition well_formed (C : GraphCollection) (σ : Store pyobj) : Prop :=
  NoDup (graphs C).*1 ∧ ∀ k G, (k, G) ∈ graphs C → is_Some (σ !! G).

(** [sorted(l)] on integer keys. *)
Definition py_sorted (l : list key) : list key := merge_sort Z.le l.

End Model.

(** ** [delta] *)

(** Which arm of the [if]/[elif]/[else] of lines 100-107 ran. *)
Inductive branch : Type :=
| BranchDifference
| BranchFirst
| BranchFallback.

(** The local variables of [delta]; [trace] is a ghost variable that
    records which arm ran for which slice and node. *)
Record delta_locals (F : Type) : Type := mkDeltaLocals {
  last : gmap node (option F);
  deltas : gmap key (gmap node F);
  trace : list (key * node * branch)
}.
Arguments mkDeltaLocals {F} _ _ _.
Arguments last {F} _.
Arguments deltas {F} _.
Arguments trace {F} _.

(** What the [try] of lines 98-110 reads for a node in a slice: nothing
    (a [KeyError], which [except] turns into [pass]), a float, or an
    exception that is not a [KeyError] and so leaves [delta]. *)
Inductive reading (F : Type) : Type :=
| Absent
| Reads (x : F)
| Fails (e : exn).
Arguments Absent {F}.
Arguments Reads {F} x.
Arguments Fails {F} e.

Section Delta.
(** Floats are any type [F] with a subtraction (IEEE doubles included):
    [delta] subtracts and stores, and compares no two floats.
    [py_float] is the builtin [float()] on attribute values, [PyFloat]
    makes a float an attribute value. *)
Context {pyobj F : Type}.
Context (py_float : pyobj → exn + F) (fsub : F → F → F) (fzero : F).
Context (PyFloat : F → pyobj).

(** Lines 100-107.  [curr] and [last[n]] are [None] or a float; the
    result is the arm taken, [delta], and the new [last[n]]. *)
Definition delta_cases (last_n curr : option F) : branch * F * option F :=
  match last_n, curr with
  | Some l, Some c => (BranchDifference, fsub c l, Some c)
  | None, Some c => (BranchFirst, c, Some c)
  | _, None => (BranchFallback, fzero, last_n)
  end.

(** Lines 99-108, the body of the [try]. *)
Definition delta_try (asdict : gmap node (gmap string pyobj)) (attribute : string)
    (k : key) (n : node) : M (delta_locals F) unit :=
  d <- getitem (asdict !! n) ;;
  v <- getitem (d !! attribute) ;;
  x <- lift (py_float v) ;;
  let curr := Some x in
  s <- get ;;
  last_n <- getitem (last s !! n) ;;
  let '(b, delta, last_n') := delta_cases last_n curr in
  _ <- modify (λ s, mkDeltaLocals (<[n := last_n']> (last s)) (deltas s) (trace s ++ [(k, n, b)])) ;;
  s <- get ;;
  dk <- getitem (deltas s !! k) ;;
  modify (λ s, mkDeltaLocals (last s) (<[k := <[n := delta]> dk]> (deltas s)) (trace s)).

(** Lines 94-111, the body of the loop over the sorted keys. *)
Definition delta_slice (C : GraphCollection) (attribute : string) (all_nodes : list node)
    (k : key) (s : delta_locals F) : M (Store pyobj) (delta_locals F) :=
  G <- collection_getitem C k ;;
  graph <- deref G ;;
  let asdict : gmap node (gmap string pyobj) := list_to_map (graph_nodes_data graph) in
  r <- run_local
         (for_each all_nodes
            (λ n _, try_except_KeyError (delta_try asdict attribute k n)) tt) s ;;
  let s := r.1 in
  G <- collection_getitem C k ;;
  dk <- getitem (deltas s !! k) ;;
  _ <- set_node_attributes G (attribute ++ "_delta") (PyFloat <$> dk) ;;
  ret s.

Definition delta_run (C : GraphCollection) (attribute : string)
  : M (Store pyobj) (delta_locals F) :=
  let keys := py_sorted (graphs C).*1 in
  all_nodes <- collection_nodes C ;;
  let deltas0 : gmap key (gmap node F) := list_to_map ((λ k, (k, ∅)) <$> keys) in
  let last0 : gmap node (option F) := list_to_map ((λ n, (n, None)) <$> all_nodes) in
  for_each keys (delta_slice C attribute all_nodes) (mkDeltaLocals last0 deltas0 []).

Definition delta (C : GraphCollection) (attribute : string)
  : M (Store pyobj) (gmap key (gmap node F)) :=
  s <- delta_run C attribute ;;
  ret (deltas s).

(** *** The specification's view of [delta] *)

(** [G.node[n][name]] of the graph object [G], when there is one. *)
Definition node_attribute (σ : Store pyobj) (G : objid) (n : node) (name : string)
  : option pyobj :=
  σ !! G ≫= λ g, g !! n ≫= λ d, attrs d !! name.

(** The stores [σ] and [σ'] hold the same objects, with the same values
    of the attribute [name] on the same nodes. *)
Definition same_attribute (name : string) (σ σ' : Store pyobj) : Prop :=
  ∀ G, (is_Some (σ !! G) ↔ is_Some (σ' !! G)) ∧
       ∀ n, node_attribute σ G n name = node_attribute σ' G n name.

Definition classify (o : option pyobj) : reading F :=
  match o with
  | None => Absent
  | Some v => match py_float v with
              | inr x => Reads x
              | inl KeyError => Absent
              | inl e => Fails e
              end
  end.

(** [G[k].node[n][attribute]], the value slice [k] holds for node [n]. *)
Definition slice_attribute (C : GraphCollection) (σ : Store pyobj) (attribute : string)
    (k : key) (n : node) : option pyobj :=
  graphs_lookup C k ≫= λ G, node_attribute σ G n attribute.

(** What the [try] reads in slice [k] for node [n]. *)
Definition read (C : GraphCollection) (σ : Store pyobj) (attribute : string)
    (k : key) (n : node) : reading F :=
  classify (slice_attribute C σ attribute k n).

(** The float observed for [n] in slice [k], if any. *)
Definition observed (C : GraphCollection) (σ : Store pyobj) (attribute : string)
    (k : key) (n : node) : option F :=
  match read C σ attribute k n with
  | Reads x => Some x
  | _ => None
  end.

(** The last float observed for [n] in the slices [ks], taken in order. *)
Definition last_observed (C : GraphCollection) (σ : Store pyobj) (attribute : string)
    (ks : list key) (n : node) : option F :=
  foldl (λ acc k, from_option Some acc (observed C σ attribute k n)) None ks.

(** The delta the specification asks for at slice [k], the slices [before]
    having come first: the value itself the first time, else the value
    minus the last one observed; nothing when the slice has no value. *)
Definition expected_delta (C : GraphCollection) (σ : Store pyobj) (attribute : string)
    (before : list key) (k : key) (n : node) : option F :=
  match observed C σ attribute k n with
  | Some x => Some (from_option (fsub x) x (last_observed C σ attribute before n))
  | None => None
  end.

(** Every value of the attribute in the graph is one [float] accepts (or
    rejects with a [KeyError], which the [except] absorbs). *)
Definition numeric_graph (attribute : string) (g : Graph pyobj) : bool :=
  forallb (λ nd, match attrs nd.2 !! attribute with
                 | Some v => match py_float v with
                             | inr _ | inl KeyError => true
                             | inl _ => false
                             end
                 | None => true
                 end) (map_to_list g).

(** [v_1, v_2 - v_1, ..., v_k - v_{k-1}] *)
Fixpoint first_differences (prev : option F) (vs : list F) : list F :=
  match vs with
  | [] => []
  | v :: vs' => from_option (fsub v) v prev :: first_differences (Some v) vs'
  end.

(** One pass of the [try] for node [n], as a function on the local
    variables: what lines 99-108 leave when no exception escapes. *)
Definition delta_node (rd : node → reading F) (k : key) (s : delta_locals F) (n : node)
  : delta_locals F :=
  match rd n with
  | Reads x =>
      match last s !! n with
      | None => s
      | Some last_n =>
          let '(b, delta, last_n') := delta_cases last_n (Some x) in
          let s1 := mkDeltaLocals (<[n := last_n']> (last s)) (deltas s)
                                  (trace s ++ [(k, n, b)]) in
          match deltas s1 !! k with
          | None => s1
          | Some dk => mkDeltaLocals (last s1) (<[k := <[n := delta]> dk]> (deltas s1)) (trace s1)
          end
      end
  | _ => s
  end.

End Delta.

(** ** [attachment_probability] *)

Section Attachment.
(** Floats are exact rationals here: the counts are small integers, which
    doubles hold exactly, and the one rounding, in the final division, is
    monotone and exact on the quotients 0 and 1; so what is stated of a
    quotient below (that it is zero, one, positive, or between zero and
    one) holds of the double as well.  Nothing is stated of a sum of
    quotients.  [PyFloat] makes a float an attribute value. *)
Context {pyobj : Type}.
Context (PyFloat : Q → pyobj).

(** [float(len(s))] *)
Definition float_len (s : gset node) : Q := inject_Z (Z.of_nat (size s)).

(** [sum(l)]: [0 + l[0] + l[1] + ...] *)
Definition py_sum (l : list Q) : Q := foldl Qplus 0%Q l.

(** [d.values()] *)
Definition values {K A} `{Countable K} (d : gmap K A) : list A := (map_to_list d).*2.

(** Lines 218-223, the body of the first [try]; the local variable is
    [new_edges]. *)
Definition new_edges_try (g_ g : Graph pyobj) (n : node) : M (gmap node Q) unit :=
  d_ <- getitem (g_ !! n) ;;
  let old_neighbors := nbrs d_ in
  if decide (0 < size old_neighbors) then
    d <- getitem (g !! n) ;;
    let new_neighbors := nbrs d ∖ old_neighbors in
    modify (<[n := float_len new_neighbors]>)
  else
    modify (<[n := 0%Q]>).

(** Lines 216-225: [new_edges] after the loop over [G.nodes()]. *)
Definition new_edges_loop (g_ g : Graph pyobj) : M (gmap node Q) unit :=
  for_each (graph_nodes g) (λ n _, try_except_KeyError (new_edges_try g_ g n)) tt.

(** Line 232, the body of the second [try]; the local variable is
    [probs[k_]]. *)
Definition probs_try (new_edges : gmap node Q) (N : Q) (n : node) : M (gmap node Q) unit :=
  v <- getitem (new_edges !! n) ;;
  modify (<[n := (v / N)%Q]>).

(** Lines 216-237, what one iteration does once [G_] is set: it returns
    the new [probs].  [prev] is the pair [(k_, G_)]. *)
Definition attachment_step (C : GraphCollection) (prev : key * objid) (G : objid)
    (probs : gmap key (gmap node Q)) : M (Store pyobj) (gmap key (gmap node Q)) :=
  let '(k_, G_) := prev in
  g_ <- deref G_ ;;
  g <- deref G ;;
  r <- run_local (new_edges_loop g_ g) ∅ ;;
  let new_edges := r.1 in
  let N := py_sum (values new_edges) in
  let zeros : gmap node Q := list_to_map ((λ n, (n, 0%Q)) <$> graph_nodes g_) in
  all_nodes <- collection_nodes C ;;
  r <- (if Qlt_le_dec 0 N
        then run_local
               (for_each all_nodes
                  (λ n _, try_except_KeyError (probs_try new_edges N n)) tt) zeros
        else ret (zeros, tt)) ;;
  let probs_k := r.1 in
  Gk <- getitem (graphs_lookup C k_) ;;
  _ <- set_node_attributes Gk "attachment_probability" (PyFloat <$> probs_k) ;;
  ret (<[k_ := probs_k]> probs).

(** Lines 213-240.  [G_] and [k_] are assigned together, so the loop
    carries them as one optional pair. *)
Definition attachment_iteration (C : GraphCollection) (kG : key * objid)
    (st : gmap key (gmap node Q) * option (key * objid))
  : M (Store pyobj) (gmap key (gmap node Q) * option (key * objid)) :=
  let '(k, G) := kG in
  let '(probs, prev) := st in
  probs <- match prev with
           | Some p => attachment_step C p G probs
           | None => ret probs
           end ;;
  ret (probs, Some (k, G)).

Definition attachment_loop (C : GraphCollection)
  : M (Store pyobj) (gmap key (gmap node Q) * option (key * objid)) :=
  for_each (graphs C) (attachment_iteration C) (∅, None).

Definition attachment_probability (C : GraphCollection)
  : M (Store pyobj) (gmap key (gmap node Q)) :=
  r <- attachment_loop C ;;
  let probs := r.1 in
  key <- match item_minus1 (graphs C).*1 with
         | Some key => ret key
         | None => raise IndexError
         end ;;
  G <- getitem (graphs_lookup C key) ;;
  g <- deref G ;;
  let zprobs : gmap node Q := list_to_map ((λ n, (n, 0%Q)) <$> graph_nodes g) in
  _ <- set_node_attributes G "attachment_probability" (PyFloat <$> zprobs) ;;
  ret probs.

(** *** The specification's view of [attachment_probability] *)

(** [G[n].keys()] for every node: what the calculator reads of a graph. *)
Definition adjacency (g : Graph pyobj) : gmap node (gset node) := nbrs <$> g.

(** [new_edges] after lines 216-225, in closed form: an entry for the
    nodes of the current slice [a] that the previous slice [a_] has. *)
Definition new_edges_of (a_ a : gmap node (gset node)) : gmap node Q :=
  map_imap (λ n s, match a_ !! n with
                   | Some s_ => Some (if decide (0 < size s_) then float_len (s ∖ s_) else 0%Q)
                   | None => None
                   end) a.

(** [probs[k_]] after lines 227-234, in closed form. *)
Definition probs_of (a_ a : gmap node (gset node)) : gmap node Q :=
  let new_edges := new_edges_of a_ a in
  let N := py_sum (values new_edges) in
  map_imap (λ n _, Some (if Qlt_le_dec 0 N
                         then from_option (λ c, (c / N)%Q) 0%Q (new_edges !! n)
                         else 0%Q)) a_.

(** The adjacency of the graph object [G] in the store. *)
Definition adjacency_at (σ : Store pyobj) (G : objid) : gmap node (gset node) :=
  from_option adjacency ∅ (σ !! G).

(** [probs] after the loop over the slices [l], [prev] being the slice
    before them, in closed form. *)
Fixpoint probs_after (σ : Store pyobj) (prev : option (key * objid)) (l : list (key * objid))
    (probs : gmap key (gmap node Q)) : gmap key (gmap node Q) :=
  match l with
  | [] => probs
  | (k, G) :: l' =>
      probs_after σ (Some (k, G)) l'
        (match prev with
         | Some (k_, G_) => <[k_ := probs_of (adjacency_at σ G_) (adjacency_at σ G)]> probs
         | None => probs
         end)
  end.

(** Slice 2 (adjacency [a2]) is slice 1 (adjacency [a1]) with one more
    edge, between [A] and another node [B], which is a node of slice 2
    whether or not it is one of slice 1. *)
Definition adds_one_edge (a1 a2 : gmap node (gset node)) (A B : node) : Prop :=
  A ≠ B ∧
  (B ∉ default ∅ (a1 !! A)) ∧
  a2 = <[A := default ∅ (a1 !! A) ∪ {[B]}]> (<[B := default ∅ (a1 !! B) ∪ {[A]}]> a1).

(** The stores hold the same objects with the same nodes and edges. *)
Definition same_structure (σ σ' : Store pyobj) : Prop :=
  ∀ G, adjacency <$> σ !! G = adjacency <$> σ' !! G.

End Attachment.

(** ** A concrete universe of attribute values, for the examples *)

(** [None], booleans and numbers; [float(None)] raises [TypeError]. *)
Inductive pyval : Type :=
| PyNone
| PyBool (b : bool)
| PyNum (x : Q).

Definition pyval_float (v : pyval) : exn + Q :=
  match v with
  | PyNone => inl TypeError
  | PyBool b => inr (if b then 1%Q else 0%Q)
  | PyNum x => inr x
  end.

(** An undirected graph from its nodes (with attributes) and its edges. *)
Definition add_edge (u v : node) (g : Graph pyval) : Graph pyval :=
  let link a b (g : Graph pyval) :=
    match g !! a with
    | Some d => <[a := mkNodeData ({[b]} ∪ nbrs d) (attrs d)]> g
    | None => <[a := mkNodeData {[b]} ∅]> g
    end in
  link v u (link u v g).

Definition make_graph (ns : list (node * gmap string pyval)) (es : list (node * node))
  : Graph pyval :=
  foldr (λ e g, add_edge e.1 e.2 g)
    (list_to_map ((λ na, (na.1, mkNodeData ∅ na.2)) <$> ns)) es.

(** The scenario of the specification: the path A-B-C in 2000 and 2001,
    with attribute [x]. *)
Definition path_x (a b c : Q) : Graph pyval :=
  make_graph [("A", {["x" := PyNum a]}); ("B", {["x" := PyNum b]}); ("C", {["x" := PyNum c]})]
             [("A", "B"); ("B", "C")].

Definition scenario_store : Store pyval :=
  <[0%nat := path_x 1 2 3]> (<[1%nat := path_x 2 2 5]> ∅).

Definition scenario : GraphCollection := mkCollection [(2001%Z, 1%nat); (2000%Z, 0%nat)].

(** A fragment of [networkx.__dict__] (networkx 1.x): the function
    [degree], called with no keyword argument ([None]) or with
    [nbunch=[...]], which restricts the result to the nodes listed (on
    graphs without self-loops, as all the examples are); and the class
    [Graph], which is no plain function.  No networkx has the name
    [no_such_algorithm]. *)
Definition nx_degree (nbunch : option (list node)) (g : Graph pyval) : exn + gmap node pyval :=
  let degrees : gmap node pyval := (λ d, PyNum (inject_Z (Z.of_nat (size (nbrs d))))) <$> g in
  inr (match nbunch with
       | None => degrees
       | Some l => filter (λ nv, nv.1 ∈ l) degrees
       end).

Definition example_nx
  : gmap string (entry (option (list node) → objid → M (Store pyval) (gmap node pyval))) :=
  <["degree" := PlainFunction (read_only nx_degree)]> (<["Graph" := NotFunction]> ∅).

(** The nodes reached from [start] in at most [fuel] steps. *)
Definition reach (g : Graph pyval) (fuel : nat) (start : gset node) : gset node :=
  Nat.iter fuel
    (λ seen, seen ∪ ⋃ ((λ n, from_option nbrs ∅ (g !! n)) <$> elements seen)) start.

Definition nx_is_connected (_ : unit) (g : Graph pyval) : exn + pyval :=
  match graph_nodes g with
  | [] => inl (LibraryError "Connectivity is undefined for the null graph.")
  | n :: _ => inr (PyBool (bool_decide (reach g (size g) {[n]} = dom g)))
  end.

(** A fragment of [networkx.connected.__dict__] (networkx 1.x): the
    function [is_connected], and the list [__all__] of the module, which
    is no plain function. *)
Definition example_nx_connected : gmap string (entry (unit → Graph pyval → exn + pyval)) :=
  <["is_connected" := PlainFunction nx_is_connected]> (<["__all__" := NotFunction]> ∅).

(** Does [msg] mention [word]? *)
Fixpoint mentions (word msg : string) : bool :=
  String.prefix word msg ||
  match msg with
  | EmptyString => false
  | String _ rest => mentions word rest
  end.

(** The message an outcome carries, when it is a [ValueError]. *)
Definition error_message {S A} (r : S * (exn + A)) : option string :=
  match r.2 with
  | inl (ValueError msg) => Some msg
  | _ => None
  end.

(** The same collection, where [x] of node B is [None] in 2001. *)
Definition none_store : Store pyval :=
  <[0%nat := path_x 1 2 3]>
  (<[1%nat := make_graph [("A", {["x" := PyNum 2]}); ("B", {["x" := PyNone]});
                          ("C", {["x" := PyNum 5]})]
                         [("A", "B"); ("B", "C")]]> ∅).

(** Three slices; node A has no attribute [x] in 2001. *)
Definition gap_store : Store pyval :=
  <[0%nat := path_x 1 2 3]>
  (<[1%nat := make_graph [("A", ∅); ("B", {["x" := PyNum 2]}); ("C", {["x" := PyNum 5]})]
                         [("A", "B"); ("B", "C")]]>
  (<[2%nat := path_x 4 2 6]> ∅)).

Definition gap_collection : GraphCollection :=
  mkCollection [(2002%Z, 2%nat); (2000%Z, 0%nat); (2001%Z, 1%nat)].

(** Two slices, 2000 first: the path A-B-C, then the same with one more
    edge, either to a new node D or between A and C. *)
Definition two_slices : GraphCollection := mkCollection [(2000%Z, 0%nat); (2001%Z, 1%nat)].

Definition pendant_store : Store pyval :=
  <[0%nat := path_x 1 2 3]> (<[1%nat := add_edge "A" "D" (path_x 1 2 3)]> ∅).

Definition triangle_store : Store pyval :=
  <[0%nat := path_x 1 2 3]> (<[1%nat := add_edge "A" "C" (path_x 1 2 3)]> ∅).

(** The probability an outcome gives to node [n] under key [k]. *)
Definition probability_of {S} (r : S * (exn + gmap key (gmap node Q))) (k : key) (n : node)
  : option Q :=
  match r.2 with
  | inr probs => probs !! k ≫= (.!! n)
  | inl _ => None
  end.

(** The degrees of the path A-B-C, per slice. *)
Definition scenario_degrees : gmap key (gmap node pyval) :=
  <[2000%Z := <["A" := PyNum 1]> (<["B" := PyNum 2]> (<["C" := PyNum 1]> ∅))]>
  (<[2001%Z := <["A" := PyNum 1]> (<["B" := PyNum 2]> (<["C" := PyNum 1]> ∅))]> ∅).

(** Two keys that name one and the same graph object. *)
Definition aliased_slices : GraphCollection :=
  mkCollection [(2000%Z, 0%nat); (2001%Z, 0%nat)].

(** Case analysis on membership in an explicit list. *)
Ltac in_cases H :=
  repeat (apply elem_of_cons in H as [H|H]; [simplify_eq|]);
  try (by apply elem_of_nil in H).

(** ** The rest of the module, and what the operations leave alone *)

Section Further.
Context {pyobj : Type}.

(** [graph.node_global_closeness_centrality(g, node)], of the sibling
    module [tethne.analyze.graph]: it reads the graph, and raises or
    returns a value. *)
Definition closeness_function : Type := Graph pyobj → node → exn + pyobj.

(** Line 184, the body of the loop. *)
Definition closeness_graph (closeness : closeness_function) (n : node)
    (kg : key * objid) (results : gmap key pyobj) : M (Store pyobj) (gmap key pyobj) :=
  let '(key, g) := kg in
  graph <- deref g ;;
  v <- lift (closeness graph n) ;;
  ret (<[key := v]> results).

(** Lines 182-186. *)
Definition node_global_closeness_centrality (closeness : closeness_function)
    (C : GraphCollection) (n : node) : M (Store pyobj) (gmap key pyobj) :=
  for_each (graphs C) (closeness_graph closeness n) ∅.

(** From [σ] to [σ'] nothing changed but, maybe, values of the node
    attribute [name]: same objects, nodes and edges, and the same values
    of every other attribute. *)
Definition writes_only (name : string) (σ σ' : Store pyobj) : Prop :=
  same_structure σ σ' ∧ ∀ name', name' ≠ name → same_attribute name' σ σ'.

End Further.

(** *** More examples *)

(** The path A-B-C, then a graph with no node. *)
Definition null_store : Store pyval :=
  <[0%nat := path_x 1 2 3]> (<[1%nat := (∅ : Graph pyval)]> ∅).

(** A stand-in for the centrality of a node: its number of neighbours; a
    node that the graph does not have is an error. *)
Definition example_closeness (g : Graph pyval) (n : node) : exn + pyval :=
  match g !! n with
  | Some d => inr (PyNum (inject_Z (Z.of_nat (size (nbrs d)))))
  | None => inl (LibraryError "The node is not in the graph.")
  end.

(** [degree_centrality] of networkx 1.x: the degree times [1/(len(G)-1)],
    which is a division by zero on a graph of one node. *)
Definition nx_degree_centrality (_ : unit) (g : Graph pyval) : exn + gmap node pyval :=
  if decide (size g = 1)
  then inl (LibraryError "float division by zero")
  else inr ((λ d, PyNum (inject_Z (Z.of_nat (size (nbrs d)))
                         / (inject_Z (Z.of_nat (size g)) - 1))%Q) <$> g).

(** A function that returns a value per edge, the edge between [u] and
    [v] being the key ["u-v"]. *)
Definition nx_edge_ones (_ : unit) (g : Graph pyval) : exn + gmap node pyval :=
  inr (list_to_map
         (map_to_list g ≫= λ ud, (λ v, (ud.1 +:+ "-" +:+ v, PyNum 1)) <$> elements (nbrs ud.2))).

Definition more_nx
  : gmap string (entry (unit → objid → M (Store pyval) (gmap node pyval))) :=
  <["degree_centrality" := PlainFunction (read_only nx_degree_centrality)]>
  (<["edge_ones" := PlainFunction (read_only nx_edge_ones)]> ∅).

(** [nx.set_node_attributes], the plain function of the namespace that
    line 72 itself calls, as [algorithm] runs it when it is the method
    asked for, its keyword arguments being the attribute name and the
    values: it writes the graph and returns [None], on which line 67
    raises [AttributeError]. *)
Definition nx_set_node_attributes (kw : string * gmap node pyval) (G : objid)
  : M (Store pyval) (gmap node pyval) :=
  _ <- set_node_attributes G kw.1 kw.2 ;; raise AttributeError.

Definition writing_nx
  : gmap string (entry (string * gmap node pyval → objid → M (Store pyval) (gmap node pyval))) :=
  <["set_node_attributes" := PlainFunction nx_set_node_attributes]> ∅.

(** The path A-B-C with a node E that has no neighbour, and then the same
    with the edges A-C, A-D and E-B added: A gains two neighbours, B and C
    one each, E had none before, and D is new. *)
Definition fan_before : Graph pyval :=
  make_graph [("A", ∅); ("B", ∅); ("C", ∅); ("E", ∅)] [("A", "B"); ("B", "C")].

Definition fan_after : Graph pyval :=
  add_edge "E" "B" (add_edge "A" "D" (add_edge "A" "C" fan_before)).

Definition fan_store : Store pyval :=
  <[0%nat := fan_before]> (<[1%nat := fan_after]> ∅).

(** The path A-B-C, then a graph of the one node A. *)
Definition lonely_store : Store pyval :=
  <[0%nat := path_x 1 2 3]> (<[1%nat := make_graph [("A", ∅)] []]> ∅).

(** * Properties *)

(** ** Membership in a list with one more element *)

Lemma decide_elem_of_cons {A B} `{EqDecision A} (n m : A) (l : list A) (x y : B) :
  (if decide (n ∈ m :: l) then x else y) =
  if decide (n = m) then x else if decide (n ∈ l) then x else y.
Proof.
  destruct (decide (n = m)) as [->|Hne]; [by rewrite decide_True by left|].
  destruct (decide (n ∈ l)).
  - by rewrite decide_True by (by right).
  - rewrite decide_False; [done|]. by intros [?|?]%elem_of_cons.
Qed.

(** Is [n] the head [m], or in the tail?  With [m] known not to be in the
    tail. *)
Ltac split_mem n m :=
  rewrite (decide_elem_of_cons n m);
  destruct (decide (n = m)) as [->|?];
  [rewrite ?(decide_False (P:=m ∈ _)) by done|].

(** ** The store-passing computations *)

Section Loops.
Context {S A B : Type}.

Lemma for_each_cons (x : A) (l : list A) (body : A → B → M S B) (acc : B) (σ : S) :
  for_each (x :: l) body acc σ =
  match body x acc σ with
  | (σ', inr acc') => for_each l body acc' σ'
  | (σ', inl e) => (σ', inl e)
  end.
Proof. done. Qed.

Lemma for_each_app (l1 l2 : list A) (body : A → B → M S B) (acc : B) (σ : S) :
  for_each (l1 ++ l2) body acc σ =
  (acc' <- for_each l1 body acc ;; for_each l2 body acc') σ.
Proof.
  revert acc σ. induction l1 as [|x l1 IH]; intros acc σ; simpl; [done|].
  unfold bind in *. destruct (body x acc σ) as [σ1 [e|acc1]]; [done|].
  apply IH.
Qed.

(** A loop whose body neither raises nor touches the store is a fold. *)
Lemma for_each_pure (f : A → B → B) (l : list A) (body : A → B → M S B) (acc : B) (σ : S) :
  (∀ x b σ', x ∈ l → body x b σ' = (σ', inr (f x b))) →
  for_each l body acc σ = (σ, inr (foldl (λ b x, f x b) acc l)).
Proof.
  revert acc. induction l as [|x l IH]; intros acc Hbody; simpl; [done|].
  unfold bind. rewrite Hbody by left. apply IH.
  intros y b σ' Hy. apply Hbody. by right.
Qed.
(** A loop whose body never raises and only changes the state is a fold
    of the state. *)
Lemma for_each_state (f : A → S → S) (l : list A) (body : A → B → M S B) (acc : B) (σ : S) :
  (∀ x σ', x ∈ l → body x acc σ' = (f x σ', inr acc)) →
  for_each l body acc σ = (foldl (λ σ' x, f x σ') σ l, inr acc).
Proof.
  revert σ. induction l as [|x l IH]; intros σ Hbody; [done|].
  rewrite for_each_cons, Hbody by left. simpl. apply IH.
  intros y σ' Hy. apply Hbody. by right.
Qed.
End Loops.

(** ** Writing node attributes *)

Section GraphFacts.
Context {pyobj : Type}.
Implicit Types (g : Graph pyobj) (σ : Store pyobj) (values : gmap node pyobj).

Lemma lookup_write_attrs name values g n :
  write_attrs name values g !! n =
  (λ d, from_option (λ v, set_attr name v d) d (values !! n)) <$> g !! n.
Proof. unfold write_attrs. rewrite map_lookup_imap. by destruct (g !! n). Qed.

Lemma dom_write_attrs name values g : dom (write_attrs name values g) = dom g.
Proof.
  apply set_eq. intros n. rewrite !elem_of_dom, lookup_write_attrs.
  by rewrite fmap_is_Some.
Qed.

Lemma nbrs_write_attrs name values g n :
  nbrs <$> write_attrs name values g !! n = nbrs <$> g !! n.
Proof.
  rewrite lookup_write_attrs. destruct (g !! n) as [d|]; simpl; [|done].
  by destruct (values !! n).
Qed.

Lemma attrs_write_attrs name values g n name' :
  (write_attrs name values g !! n ≫= λ d, attrs d !! name') =
  if decide (name = name')
  then (g !! n ≫= λ d, from_option Some (attrs d !! name') (values !! n))
  else (g !! n ≫= λ d, attrs d !! name').
Proof.
  rewrite lookup_write_attrs. destruct (g !! n) as [d|]; simpl; [|by case_decide].
  destruct (values !! n) as [v|]; simpl.
  - case_decide; subst; [by rewrite lookup_insert_eq|by rewrite lookup_insert_ne].
  - by case_decide.
Qed.

(** The loop of [set_node_attributes], as a fold of [alter]. *)
Lemma set_attrs_loop (G : objid) name (l : list (node * pyobj)) σ g :
  σ !! G = Some g →
  (∀ nv, nv ∈ l → nv.1 ∈ dom g) →
  for_each l
    (λ '(n, value) _,
       g <- deref G ;;
       match g !! n with
       | None => raise KeyError
       | Some d => assign G (<[n := set_attr name value d]> g)
       end) tt σ
  = (<[G := foldl (λ g nv, alter (set_attr name nv.2) nv.1 g) g l]> σ, inr tt).
Proof.
  revert σ g. induction l as [|[n v] l IH]; intros σ g Hσ Hdom; simpl.
  - by rewrite insert_id.
  - unfold bind at 1. unfold bind, deref. rewrite Hσ.
    assert (is_Some (g !! n)) as [d Hd].
    { apply elem_of_dom. apply (Hdom (n, v)). by left. }
    rewrite Hd. unfold assign.
    assert (<[n:=set_attr name v d]> g = alter (set_attr name v) n g) as Halter.
    { apply map_eq. intros m. rewrite lookup_alter, lookup_insert.
      case_decide; subst; by rewrite ?Hd. }
    rewrite (IH _ (<[n:=set_attr name v d]> g)).
    + by rewrite insert_insert_eq, Halter.
    + by rewrite lookup_insert_eq.
    + intros nv Hnv. rewrite dom_insert_L. apply elem_of_union_r.
      apply Hdom. by right.
Qed.

Lemma foldl_alter_lookup name (l : list (node * pyobj)) g n :
  NoDup l.*1 →
  foldl (λ g nv, alter (set_attr name nv.2) nv.1 g) g l !! n =
  (λ d, from_option (λ v, set_attr name v d) d ((list_to_map l : gmap node pyobj) !! n))
    <$> g !! n.
Proof.
  revert g. induction l as [|[m v] l IH]; intros g Hnd; simpl.
  - rewrite lookup_empty. by destruct (g !! n).
  - apply NoDup_cons in Hnd as [Hm Hnd]. rewrite IH by done.
    rewrite lookup_alter, lookup_insert. case_decide; subst.
    + rewrite (not_elem_of_list_to_map_1 _ n) by done.
      by destruct (g !! n).
    + done.
Qed.

(** [set_node_attributes] succeeds when the keys of [values] are nodes
    of the graph, and writes exactly [write_attrs]. *)
Lemma set_node_attributes_ok (G : objid) name values σ g :
  σ !! G = Some g →
  dom values ⊆ dom g →
  set_node_attributes G name values σ = (<[G := write_attrs name values g]> σ, inr tt).
Proof.
  intros Hσ Hdom. unfold set_node_attributes.
  rewrite (set_attrs_loop G name _ σ g Hσ).
  - do 2 f_equal. apply map_eq. intros n.
    rewrite foldl_alter_lookup by apply NoDup_fst_map_to_list.
    by rewrite list_to_map_to_list, lookup_write_attrs.
  - intros [n v] Hnv. apply Hdom. apply elem_of_dom.
    exists v. by apply elem_of_map_to_list.
Qed.

Lemma get_node_attributes_lookup g name n :
  get_node_attributes g name !! n = g !! n ≫= λ d, attrs d !! name.
Proof. unfold get_node_attributes. by rewrite lookup_omap. Qed.
End GraphFacts.

(** ** The two dispatchers *)

Section Dispatch.
Context {pyobj kwargs : Type}.
Implicit Types (σ : Store pyobj) (C : GraphCollection) (kw : kwargs).

(** *** [connected] *)

Lemma connected_loop_store (f : @nx_connected_function pyobj kwargs) kw l results σ :
  (for_each l (connected_graph f kw) results σ).1 = σ.
Proof.
  revert results. induction l as [|[k G] l IH]; intros results; simpl; [done|].
  unfold bind at 1. unfold connected_graph at 1. unfold bind, deref, lift.
  destruct (σ !! G) as [g|]; [|done].
  destruct (f kw g) as [e|v]; simpl; [done|]. apply IH.
Qed.

Lemma connected_loop_ok (f : @nx_connected_function pyobj kwargs) kw l results σ :
  NoDup l.*1 →
  (∀ k G, (k, G) ∈ l → ∃ g v, σ !! G = Some g ∧ f kw g = inr v) →
  ∃ results',
    for_each l (connected_graph f kw) results σ = (σ, inr results') ∧
    (∀ k, k ∉ l.*1 → results' !! k = results !! k) ∧
    ∀ k G g, (k, G) ∈ l → σ !! G = Some g → inr <$> results' !! k = Some (f kw g).
Proof.
  revert results. induction l as [|[k G] l IH]; intros results Hnd Hok; simpl.
  - exists results. split_and!; [done..|]. intros k G g Hin. inversion Hin.
  - apply NoDup_cons in Hnd as [Hk Hnd].
    destruct (Hok k G) as (g & v & Hg & Hv); [by left|].
    unfold bind at 1. unfold connected_graph at 1. unfold bind, deref, lift.
    rewrite Hg, Hv. simpl.
    destruct (IH (<[k:=v]> results) Hnd) as (res' & Hrun & Hout & Hval).
    { intros k' G' Hin. apply (Hok k' G'). by right. }
    exists res'. split_and!; [done| |].
    + intros k' Hk'. simpl in Hk'. apply not_elem_of_cons in Hk' as [Hne Hk'].
      by rewrite Hout, lookup_insert_ne.
    + intros k' G' g' Hin Hg'. apply elem_of_cons in Hin as [Heq|Hin].
      * inversion Heq; subst. rewrite Hg in Hg'. inversion Hg'; subst. simpl in Hk.
        by rewrite Hout, lookup_insert_eq, Hv.
      * by eapply Hval.
Qed.

(** *** [algorithm] *)

Lemma lookup_foldl_merge_item k (l : list (node * pyobj)) (results : gmap node (gmap key pyobj)) n :
  NoDup l.*1 →
  foldl (merge_item k) results l !! n =
  match (list_to_map l : gmap node pyobj) !! n with
  | Some v => Some (<[k := v]> (default ∅ (results !! n)))
  | None => results !! n
  end.
Proof.
  revert results. induction l as [|[m v] l IH]; intros results Hnd; simpl; [done|].
  apply NoDup_cons in Hnd as [Hm Hnd]. rewrite IH by done.
  rewrite lookup_insert. case_decide; subst.
  - rewrite (not_elem_of_list_to_map_1 _ n) by done.
    unfold merge_item; simpl. destruct (results !! n); by rewrite lookup_insert_eq.
  - destruct (list_to_map l !! n);
      unfold merge_item; simpl; destruct (results !! m); by rewrite lookup_insert_ne.
Qed.

(** One graph's result merged into [results]. *)
Lemma lookup_merge_result k (r : gmap node pyobj) (results : gmap node (gmap key pyobj)) n :
  foldl (merge_item k) results (map_to_list r) !! n =
  match r !! n with
  | Some v => Some (<[k := v]> (default ∅ (results !! n)))
  | None => results !! n
  end.
Proof.
  rewrite lookup_foldl_merge_item by apply NoDup_fst_map_to_list.
  by rewrite list_to_map_to_list.
Qed.

(** All the per-graph results merged, slice after slice. *)
Lemma merged_lookup (krs : list (key * gmap node pyobj)) (results : gmap node (gmap key pyobj)) n k :
  NoDup krs.*1 →
  foldl (λ res kr, foldl (merge_item kr.1) res (map_to_list kr.2)) results krs !! n ≫= (.!! k) =
  match (list_to_map krs : gmap key (gmap node pyobj)) !! k ≫= (.!! n) with
  | Some v => Some v
  | None => results !! n ≫= (.!! k)
  end.
Proof.
  revert results. induction krs as [|[k' r] krs IH]; intros results Hnd; simpl; [done|].
  apply NoDup_cons in Hnd as [Hk' Hnd]. rewrite IH by done.
  rewrite lookup_insert. case_decide; subst.
  - rewrite (not_elem_of_list_to_map_1 _ k) by done. simpl.
    rewrite lookup_merge_result. destruct (r !! n); simpl; [|done].
    by rewrite lookup_insert_eq.
  - case_match; [done|].
    rewrite lookup_merge_result. destruct (r !! n); simpl; [|done].
    rewrite lookup_insert_ne by done. by destruct (results !! n).
Qed.

Lemma merged_lookup_None (krs : list (key * gmap node pyobj)) (results : gmap node (gmap key pyobj)) n :
  foldl (λ res kr, foldl (merge_item kr.1) res (map_to_list kr.2)) results krs !! n = None ↔
  results !! n = None ∧ ∀ kr, kr ∈ krs → kr.2 !! n = None.
Proof.
  revert results. induction krs as [|[k' r] krs IH]; intros results; simpl.
  - split; [|by intros [? _]]. intros ?. split; [done|]. intros kr Hkr. inversion Hkr.
  - rewrite IH, lookup_merge_result. split.
    + intros [Hr Hall]. destruct (r !! n) eqn:Hrn; [done|]. split; [done|].
      intros kr Hkr. apply elem_of_cons in Hkr as [->|Hkr]; [done|by apply Hall].
    + intros [Hr Hall]. pose proof (Hall (k', r) ltac:(left)) as Hrn. simpl in Hrn.
      rewrite Hrn. split; [done|].
      intros kr Hkr. apply Hall. by right.
Qed.

(** Merging into the empty dictionary gives the element-major mapping
    of the specification. *)
Lemma merged_element_major (krs : list (key * gmap node pyobj)) :
  NoDup krs.*1 →
  foldl (λ res kr, foldl (merge_item kr.1) res (map_to_list kr.2)) ∅ krs =
  element_major (list_to_map krs).
Proof.
  intros Hnd. apply map_eq. intros n. apply option_eq. intros inner.
  unfold element_major. rewrite lookup_set_to_map by done.
  split.
  - intros Hn. exists n. split.
    + destruct (decide (n ∈ (⋃ (dom <$> (map_to_list
                 (list_to_map krs : gmap key (gmap node pyobj))).*2) : gset node)))
        as [|Hnot]; [done|].
      assert (foldl (λ res kr, foldl (merge_item kr.1) res (map_to_list kr.2)) ∅ krs !! n = None)
        as Hnone; [|by rewrite Hnone in Hn].
      apply merged_lookup_None. split; [done|]. intros [k r] Hkr. simpl.
      apply not_elem_of_dom. intros Hdom. apply Hnot.
      apply elem_of_union_list. exists (dom r). split; [|done].
      apply list_elem_of_fmap. exists r. split; [done|].
      apply list_elem_of_fmap. exists (k, r). split; [done|].
      apply elem_of_map_to_list. by apply elem_of_list_to_map.
    + f_equal. apply map_eq. intros k.
      pose proof (merged_lookup krs ∅ n k Hnd) as Hlk.
      rewrite Hn, lookup_empty in Hlk. simpl in Hlk. rewrite Hlk, lookup_omap.
      destruct (list_to_map krs !! k) as [r|]; simpl; [by destruct (r !! n)|done].
  - intros (n' & Hin & Heq). inversion Heq; subst n' inner. clear Heq.
    apply elem_of_union_list in Hin as (X & HX & HnX).
    apply list_elem_of_fmap in HX as (r & -> & Hr).
    apply list_elem_of_fmap in Hr as ([k r'] & -> & Hkr). simpl in HnX.
    apply elem_of_map_to_list in Hkr. apply elem_of_list_to_map in Hkr; [|done].
    destruct (foldl (λ res kr, foldl (merge_item kr.1) res (map_to_list kr.2)) ∅ krs !! n)
      as [inner|] eqn:Hn.
    + f_equal. apply map_eq. intros k0.
      pose proof (merged_lookup krs ∅ n k0 Hnd) as Hlk.
      rewrite Hn, lookup_empty in Hlk. simpl in Hlk. rewrite Hlk, lookup_omap.
      destruct (list_to_map krs !! k0) as [r|]; simpl; [by destruct (r !! n)|done].
    + apply merged_lookup_None in Hn as [_ Hall].
      apply elem_of_dom in HnX as [v Hv].
      pose proof (Hall (k, r') Hkr) as Hnone. simpl in Hnone. congruence.
Qed.

Lemma algorithm_graph_ok (f : @graph_measure pyobj kwargs) method kw k G g r σ results :
  σ !! G = Some g →
  f kw g = inr r →
  dom r ⊆ dom g →
  algorithm_graph (read_only f) method kw (k, G) results σ =
  (<[G := write_attrs method r g]> σ, inr (foldl (merge_item k) results (map_to_list r))).
Proof.
  intros Hg Hr Hdom. unfold algorithm_graph, read_only, bind, deref, lift.
  rewrite Hg, Hr. simpl. by rewrite (set_node_attributes_ok G method r σ g Hg Hdom).
Qed.

Lemma algorithm_loop (f : @graph_measure pyobj kwargs) method kw l σ results :
  NoDup l.*2 →
  (∀ k G, (k, G) ∈ l → ∃ g r, σ !! G = Some g ∧ f kw g = inr r ∧ dom r ⊆ dom g) →
  ∃ σ',
    for_each l (algorithm_graph (read_only f) method kw) results σ =
      (σ', inr (foldl (λ res kr, foldl (merge_item kr.1) res (map_to_list kr.2))
                      results ((λ kG, (kG.1, raw_result f kw σ kG.2)) <$> l))) ∧
    (∀ G, G ∉ l.*2 → σ' !! G = σ !! G) ∧
    (∀ k G g, (k, G) ∈ l → σ !! G = Some g →
              σ' !! G = Some (write_attrs method (raw_result f kw σ G) g)).
Proof.
  revert σ results. induction l as [|[k G] l IH]; intros σ results Hnd Hok.
  - exists σ. split_and!; [done..|]. intros k G g Hin. inversion Hin.
  - simpl in Hnd. apply NoDup_cons in Hnd as [HG Hnd].
    destruct (Hok k G) as (g & r & Hg & Hr & Hdom); [by left|].
    assert (raw_result f kw σ G = r) as Hraw by (unfold raw_result; by rewrite Hg, Hr).
    assert (∀ G', G' ∈ l.*2 →
              raw_result f kw (<[G:=write_attrs method r g]> σ) G' = raw_result f kw σ G')
      as Hsame.
    { intros G' HG'. unfold raw_result. rewrite lookup_insert_ne; [done|].
      intros ->. done. }
    rewrite for_each_cons, (algorithm_graph_ok f method kw k G g r σ results Hg Hr Hdom).
    destruct (IH (<[G:=write_attrs method r g]> σ)
                 (foldl (merge_item k) results (map_to_list r)) Hnd)
      as (σ' & Hrun & Hframe & Hwritten).
    { intros k' G' Hin. destruct (Hok k' G') as (g' & r' & Hg' & Hr'); [by right|].
      exists g', r'. split; [|done]. rewrite lookup_insert_ne; [done|].
      intros ->. apply HG. apply list_elem_of_fmap. by exists (k', G'). }
    exists σ'. split_and!.
    + rewrite Hrun. simpl. rewrite Hraw. do 3 f_equal.
      apply Forall_fmap_ext, Forall_forall. intros [k' G'] Hin. simpl.
      f_equal. apply Hsame. apply list_elem_of_fmap. by exists (k', G').
    + intros G' HG'. apply not_elem_of_cons in HG' as [Hne HG'].
      rewrite Hframe by done. by rewrite lookup_insert_ne.
    + intros k' G' g' Hin Hg'. apply elem_of_cons in Hin as [Heq|Hin].
      * inversion Heq; subst. rewrite Hg in Hg'. inversion Hg'; subst.
        by rewrite Hframe, lookup_insert_eq.
      * assert (G' ≠ G) as Hne.
        { intros ->. apply HG. apply list_elem_of_fmap. by exists (k', G). }
        rewrite (Hwritten k' G' g' Hin) by (by rewrite lookup_insert_ne).
        rewrite Hsame; [done|]. apply list_elem_of_fmap. by exists (k', G').
Qed.

(** Writing the same values twice is writing them once. *)
Lemma write_attrs_idemp name (values : gmap node pyobj) (g : Graph pyobj) :
  write_attrs name values (write_attrs name values g) = write_attrs name values g.
Proof.
  apply map_eq. intros n. rewrite !lookup_write_attrs.
  destruct (g !! n) as [d|]; simpl; [|done].
  destruct (values !! n) as [v|]; simpl; [|done].
  unfold set_attr. simpl. by rewrite insert_insert_eq.
Qed.

(** The loop of [algorithm] for a measure, whether or not two keys name
    one graph object: [before] are the slices already done, and a graph
    of theirs carries its result. *)
Lemma algorithm_loop_shared (f : @graph_measure pyobj kwargs) method kw
    (l before : list (key * objid)) σ0 σ results :
  NoDup (before ++ l)%list.*1 →
  (∀ k G, (k, G) ∈ (before ++ l)%list →
     ∃ g r, σ0 !! G = Some g ∧ f kw g = inr r ∧ dom r ⊆ dom g ∧
            ∀ k', k' ≠ k → (k', G) ∈ (before ++ l)%list →
                  f kw (write_attrs method r g) = inr r) →
  (∀ G, σ !! G = if decide (G ∈ before.*2)
                 then write_attrs method (raw_result f kw σ0 G) <$> σ0 !! G
                 else σ0 !! G) →
  ∃ σ',
    for_each l (algorithm_graph (read_only f) method kw) results σ =
      (σ', inr (foldl (λ res kr, foldl (merge_item kr.1) res (map_to_list kr.2))
                      results ((λ kG, (kG.1, raw_result f kw σ0 kG.2)) <$> l))) ∧
    ∀ G, σ' !! G = if decide (G ∈ (before ++ l)%list.*2)
                   then write_attrs method (raw_result f kw σ0 G) <$> σ0 !! G
                   else σ0 !! G.
Proof.
  revert before σ results. induction l as [|[k G] l IH]; intros before σ results Hnd Hok Hinv.
  - exists σ. split; [done|]. by rewrite app_nil_r.
  - destruct (Hok k G) as (g & r & Hg & Hr & Hdom & Hshared);
      [apply elem_of_app; right; by left|].
    assert (raw_result f kw σ0 G = r) as Hraw by (unfold raw_result; by rewrite Hg, Hr).
    assert (∃ gi, σ !! G = Some gi ∧ f kw gi = inr r ∧ dom r ⊆ dom gi ∧
                  write_attrs method r gi = write_attrs method r g)
      as (gi & Hgi & Hri & Hdomi & Hwrite).
    { rewrite Hinv. case_decide as Hin.
      - exists (write_attrs method r g). rewrite Hg, Hraw. simpl.
        split_and!; [done| |by rewrite dom_write_attrs|apply write_attrs_idemp].
        apply list_elem_of_fmap in Hin as ([k' G'] & HG' & Hin). simpl in HG'. subst G'.
        apply (Hshared k'); [|apply elem_of_app; by left].
        intros ->. rewrite fmap_app in Hnd. apply NoDup_app in Hnd as (_ & Hdisj & _).
        apply (Hdisj k).
        + apply list_elem_of_fmap. by exists (k, G).
        + simpl. by left.
      - by exists g. }
    rewrite for_each_cons,
      (algorithm_graph_ok f method kw k G gi r σ results Hgi Hri Hdomi), Hwrite.
    destruct (IH (before ++ [(k, G)])%list (<[G:=write_attrs method r g]> σ)
                 (foldl (merge_item k) results (map_to_list r)))
      as (σ' & Hrun & Hfinal).
    { by rewrite <-app_assoc. }
    { intros k' G'. rewrite <-app_assoc. apply Hok. }
    { intros G'. rewrite fmap_app. simpl. destruct (decide (G' = G)) as [->|Hne].
      - rewrite lookup_insert_eq, decide_True, Hg, Hraw; [done|].
        apply elem_of_app. right. by left.
      - rewrite lookup_insert_ne, Hinv by done.
        destruct (decide (G' ∈ before.*2)) as [Hin|Hout].
        + rewrite decide_True; [done|]. apply elem_of_app. by left.
        + rewrite decide_False; [done|].
          intros [?|Hin]%elem_of_app; [done|]. by apply list_elem_of_singleton in Hin. }
    exists σ'. split.
    + rewrite Hrun. simpl. by rewrite Hraw.
    + intros G'. rewrite Hfinal. by rewrite <-app_assoc.
Qed.

(** C1, as amended.  When the method names a function that only reads
    the graph and returns, on each graph of the collection, a mapping
    [raw[k]] whose keys are nodes of that graph (the same mapping once the
    attribute is written, for a graph object that two keys name), and no
    node outside the mapping already carries an attribute of that name,
    [algorithm] returns exactly the element-major mapping
    [{n: {k: raw[k][n]}}], and afterwards the node attribute named
    [method] of each graph is that graph's raw result. *)
Theorem algorithm_element_major
    (nx : gmap string (entry (@nx_function pyobj kwargs))) C method kw
    (f : @graph_measure pyobj kwargs) σ (raw : gmap key (gmap node pyobj)) :
  nx !! method = Some (PlainFunction (read_only f)) →
  NoDup (graphs C).*1 →
  dom raw = list_to_set (graphs C).*1 →
  (∀ k G, (k, G) ∈ graphs C →
     ∃ g r, σ !! G = Some g ∧ f kw g = inr r ∧ raw !! k = Some r ∧ dom r ⊆ dom g ∧
            (∀ n, n ∉ dom r → g !! n ≫= (λ d, attrs d !! method) = None) ∧
            (∀ k', k' ≠ k → (k', G) ∈ graphs C → f kw (write_attrs method r g) = inr r)) →
  ∃ σ',
    algorithm nx C method kw σ = (σ', inr (element_major raw)) ∧
    ∀ k G r, (k, G) ∈ graphs C → raw !! k = Some r →
      ∃ g', σ' !! G = Some g' ∧ get_node_attributes g' method = r.
Proof.
  intros Hnx Hkeys Hdom Hraw. unfold algorithm. rewrite Hnx.
  destruct (algorithm_loop_shared f method kw (graphs C) [] σ σ ∅) as (σ' & Hrun & Hwritten).
  { done. }
  { intros k G Hin. destruct (Hraw k G Hin) as (g & r & ? & ? & ? & ? & ? & ?).
    by exists g, r. }
  { intros G. by rewrite decide_False by (by intros ?%elem_of_nil). }
  assert (∀ k G r, (k, G) ∈ graphs C → raw !! k = Some r → raw_result f kw σ G = r) as Hres.
  { intros k G r Hin Hk. destruct (Hraw k G Hin) as (g & r' & Hg & Hr & Hk' & _).
    unfold raw_result. rewrite Hg, Hr. congruence. }
  exists σ'. split.
  - rewrite Hrun. do 2 f_equal. rewrite merged_element_major.
    + f_equal. apply map_eq. intros k. apply option_eq. intros r.
      rewrite <-elem_of_list_to_map.
      * rewrite list_elem_of_fmap. split.
        -- intros ([k' G] & Heq & Hin). inversion Heq; subst. simpl.
           destruct (Hraw k' G Hin) as (g & r' & Hg & Hr & Hk' & _).
           by rewrite (Hres k' G r' Hin Hk').
        -- intros Hk. assert (k ∈ (graphs C).*1) as Hin.
           { apply (elem_of_list_to_set (C:=gset key)). rewrite <-Hdom.
             apply elem_of_dom. by exists r. }
           apply list_elem_of_fmap in Hin as ([k' G] & -> & Hin).
           exists (k', G). split; [|done]. simpl. by rewrite (Hres k' G r Hin Hk).
      * by rewrite <-list_fmap_compose.
    + by rewrite <-list_fmap_compose.
  - intros k G r Hin Hk.
    destruct (Hraw k G Hin) as (g & r' & Hg & Hr & Hk' & Hsub & Hstale & _).
    assert (r' = r) as -> by congruence.
    exists (write_attrs method r g). split.
    + rewrite Hwritten, decide_True, Hg, (Hres k G r Hin Hk); [done|].
      apply list_elem_of_fmap. by exists (k, G).
    + apply map_eq. intros n. rewrite get_node_attributes_lookup, attrs_write_attrs.
      rewrite decide_True by done.
      destruct (r !! n) as [v|] eqn:Hn.
      * assert (is_Some (g !! n)) as [d Hd].
        { apply elem_of_dom, Hsub, elem_of_dom. by exists v. }
        by rewrite Hd.
      * pose proof (Hstale n ltac:(by apply not_elem_of_dom)) as Hnone.
        destruct (g !! n) as [d|]; [|done]. done.
Qed.

(** C2, as amended.  A name that is absent from the namespace and a name
    that is bound to something other than a plain function make each
    dispatcher fail with its own [ValueError], whatever the collection
    and with the store left as it was (no graph is read or written); the
    four messages are fixed texts that differ from one another and do
    not depend on the method name. *)
Theorem dispatch_errors
    (nx : gmap string (entry (@nx_function pyobj kwargs)))
    (nxc : gmap string (entry (@nx_connected_function pyobj kwargs)))
    C method kw σ :
  (nx !! method = None →
     algorithm nx C method kw σ = (σ, inl (ValueError "No such name in networkx."))) ∧
  (nx !! method = Some NotFunction →
     algorithm nx C method kw σ = (σ, inl (ValueError "No such method in networkx."))) ∧
  (nxc !! method = None →
     connected nxc C method kw σ =
       (σ, inl (ValueError "No such name in networkx.connected."))) ∧
  (nxc !! method = Some NotFunction →
     connected nxc C method kw σ =
       (σ, inl (ValueError "No such method in networkx.connected."))) ∧
  "No such name in networkx." ≠ "No such method in networkx." ∧
  "No such name in networkx.connected." ≠ "No such method in networkx.connected.".
Proof.
  split_and!; try (intros H; unfold algorithm, connected; by rewrite H); done.
Qed.

(** C8.  [connected] never changes the store, whatever happens; and when
    the method resolves to a plain function that returns on every graph
    of the collection, the result maps exactly the collection's keys,
    each to the value the function returned for that key's graph. *)
Theorem connected_flat_no_write_back
    (nxc : gmap string (entry (@nx_connected_function pyobj kwargs))) C method kw σ :
  (connected nxc C method kw σ).1 = σ ∧
  ∀ f : @nx_connected_function pyobj kwargs, nxc !! method = Some (PlainFunction f) →
       NoDup (graphs C).*1 →
       (∀ k G, (k, G) ∈ graphs C → ∃ g v, σ !! G = Some g ∧ f kw g = inr v) →
       ∃ results,
         connected nxc C method kw σ = (σ, inr results) ∧
         dom results = list_to_set (graphs C).*1 ∧
         ∀ k G g, (k, G) ∈ graphs C → σ !! G = Some g →
                  inr <$> results !! k = Some (f kw g).
Proof.
  split.
  - unfold connected. destruct (nxc !! method) as [[f|]|]; [|done..].
    apply connected_loop_store.
  - intros f Hf Hnd Hok. unfold connected. rewrite Hf.
    destruct (connected_loop_ok f kw (graphs C) ∅ σ Hnd Hok) as (res & Hrun & Hout & Hval).
    exists res. split_and!; [done| |done].
    apply set_eq. intros k. rewrite elem_of_list_to_set, elem_of_dom. split.
    + intros Hk. destruct (decide (k ∈ (graphs C).*1)) as [|Hnot]; [done|].
      rewrite (Hout k Hnot), lookup_empty in Hk. by destruct Hk.
    + intros Hk. apply list_elem_of_fmap in Hk as ([k' G] & -> & Hin).
      destruct (Hok k' G Hin) as (g & v & Hg & Hv).
      pose proof (Hval k' G g Hin Hg) as Hlk. simpl.
      destruct (res !! k'); [done|]. inversion Hlk.
Qed.
End Dispatch.

(** *** The dispatchers on the examples *)

Lemma algorithm_element_major_witness :
  ∃ σ', algorithm example_nx aliased_slices "degree" None scenario_store
          = (σ', inr (element_major scenario_degrees)) ∧
        ∀ k G r, (k, G) ∈ graphs aliased_slices → scenario_degrees !! k = Some r →
          ∃ g', σ' !! G = Some g' ∧ get_node_attributes g' "degree" = r.
Proof.
  apply (algorithm_element_major example_nx aliased_slices "degree" None nx_degree
           scenario_store scenario_degrees).
  - reflexivity.
  - compute_done.
  - compute_done.
  - intros k G Hin.
    assert (∃ r, nx_degree None (path_x 1 2 3) = inr r ∧ scenario_degrees !! k = Some r ∧
                 r = <["A" := PyNum 1]> (<["B" := PyNum 2]> {["C" := PyNum 1]}))
      as (r & Hr & Hk & Heq).
    { in_cases Hin; eexists; split_and!; reflexivity. }
    exists (path_x 1 2 3), r. split_and!; [by in_cases Hin|done..| | |].
    + subst r. compute_done.
    + intros n Hn. assert (path_x 1 2 3 !! n = None) as ->; [|done].
      apply not_elem_of_dom. intros Hd. apply Hn. revert Hd. subst r.
      assert (dom (path_x 1 2 3)
              = dom (<["A" := PyNum 1]> (<["B" := PyNum 2]>
                       ({["C" := PyNum 1]} : gmap node pyval)))) as ->;
        [compute_done|done].
    + intros k' _ _. subst r. vm_compute. reflexivity.
Defined.

(** C1 as stated fails: [degree] run on all the nodes, and then again
    with [nbunch=["A"]].  The second call returns the merged mapping of the
    raw results, which are [{A: 1}], but the attribute [degree] of the graph
    of 2000 still has the values of B and C that the first call wrote. *)
Lemma algorithm_stale_attribute :
  let σ1 := (algorithm example_nx scenario "degree" None scenario_store).1 in
  let run := algorithm example_nx scenario "degree" (Some ["A"]) σ1 in
  (nx_degree (Some ["A"]) <$> σ1 !! 0%nat) = Some (inr {["A" := PyNum 1]}) ∧
  run.2 = inr {["A" := <[2000%Z := PyNum 1]> {[2001%Z := PyNum 1]}]} ∧
  ((λ g, get_node_attributes g "degree") <$> run.1 !! 0%nat)
    = Some (<["A" := PyNum 1]> (<["B" := PyNum 2]> {["C" := PyNum 1]})) ∧
  <["A" := PyNum 1]> (<["B" := PyNum 2]> {["C" := PyNum 1]})
    ≠ ({["A" := PyNum 1]} : gmap node pyval).
Proof.
  split_and!.
  - vm_compute. reflexivity.
  - vm_compute. reflexivity.
  - vm_compute. reflexivity.
  - intros Heq. apply (f_equal (.!! "B")) in Heq. vm_compute in Heq. discriminate Heq.
Qed.

Lemma dispatch_errors_witness :
  algorithm example_nx scenario "no_such_algorithm" None scenario_store
    = (scenario_store, inl (ValueError "No such name in networkx.")) ∧
  algorithm example_nx scenario "Graph" None scenario_store
    = (scenario_store, inl (ValueError "No such method in networkx.")) ∧
  connected example_nx_connected scenario "no_such_algorithm" tt scenario_store
    = (scenario_store, inl (ValueError "No such name in networkx.connected.")) ∧
  connected example_nx_connected scenario "__all__" tt scenario_store
    = (scenario_store, inl (ValueError "No such method in networkx.connected.")).
Proof.
  split_and!.
  - apply (dispatch_errors example_nx ∅ scenario "no_such_algorithm" None scenario_store).
    reflexivity.
  - apply (dispatch_errors example_nx ∅ scenario "Graph" None scenario_store).
    reflexivity.
  - apply (dispatch_errors ∅ example_nx_connected scenario "no_such_algorithm" tt
             scenario_store). reflexivity.
  - apply (dispatch_errors ∅ example_nx_connected scenario "__all__" tt scenario_store).
    reflexivity.
Defined.

(** C2 as stated fails: the message of either failure is a fixed text,
    the same whatever method was asked for; here it does not name it. *)
Lemma dispatch_error_omits_method :
  error_message (algorithm example_nx scenario "no_such_algorithm" None scenario_store)
    = Some "No such name in networkx." ∧
  mentions "no_such_algorithm" "No such name in networkx." = false ∧
  error_message (connected example_nx_connected scenario "__all__" tt scenario_store)
    = Some "No such method in networkx.connected." ∧
  mentions "__all__" "No such method in networkx.connected." = false.
Proof. split_and!; reflexivity. Qed.

Lemma connected_flat_no_write_back_witness :
  ∃ results,
    connected example_nx_connected scenario "is_connected" tt scenario_store
      = (scenario_store, inr results) ∧
    dom results = list_to_set (graphs scenario).*1 ∧
    ∀ k G g, (k, G) ∈ graphs scenario → scenario_store !! G = Some g →
             inr <$> results !! k = Some (nx_is_connected tt g).
Proof.
  apply (connected_flat_no_write_back example_nx_connected scenario "is_connected" tt
           scenario_store).
  - reflexivity.
  - compute_done.
  - intros k G Hin. in_cases Hin; eexists _, _; split; reflexivity.
Defined.

(** ** [delta] *)

Section DeltaFacts.
Context {pyobj F : Type}.
Context (py_float : pyobj → exn + F) (fsub : F → F → F) (fzero : F).
Context (PyFloat : F → pyobj).
Implicit Types (σ : Store pyobj) (C : GraphCollection) (s : delta_locals F).
Implicit Types (n : node) (k : key) (rd : node → reading F).

Lemma string_length_app (a b : string) :
  String.length (a ++ b) = String.length a + String.length b.
Proof. induction a as [|c a IH]; simpl; [done|]. by rewrite IH. Qed.

Lemma delta_attribute_fresh (attribute : string) : attribute ++ "_delta" ≠ attribute.
Proof.
  intros Heq. apply (f_equal String.length) in Heq.
  rewrite string_length_app in Heq. simpl in Heq. lia.
Qed.

(** *** One node of one slice *)

(** The arm taken for a float is never the fallback. *)
Lemma delta_cases_float (last_n : option F) (x : F) :
  delta_cases fsub fzero last_n (Some x) =
  (if last_n is Some _ then BranchDifference else BranchFirst, from_option (fsub x) x last_n, Some x).
Proof. by destruct last_n. Qed.

(** The [try] with its [except], in one step. *)
Lemma delta_try_step (asdict : gmap node (gmap string pyobj)) attribute k n s :
  try_except_KeyError (delta_try py_float fsub fzero asdict attribute k n) s =
  match classify py_float (asdict !! n ≫= (.!! attribute)) with
  | Fails e => (s, inl e)
  | _ => (delta_node fsub fzero
            (λ n, classify py_float (asdict !! n ≫= (.!! attribute))) k s n, inr tt)
  end.
Proof.
  unfold try_except_KeyError, delta_try, delta_node, classify, bind, getitem, lift, get,
    modify, ret, raise.
  destruct (asdict !! n) as [d|]; simpl; [|done].
  destruct (d !! attribute) as [v|]; simpl; [|done].
  destruct (py_float v) as [[]|x]; simpl; try done.
  destruct (last s !! n) as [last_n|]; simpl; [|done].
  rewrite delta_cases_float. simpl.
  by destruct (deltas s !! k).
Qed.

Lemma delta_node_Reads rd k s n x last_n dk :
  rd n = Reads x →
  last s !! n = Some last_n →
  deltas s !! k = Some dk →
  delta_node fsub fzero rd k s n =
  mkDeltaLocals (<[n := Some x]> (last s))
                (<[k := <[n := from_option (fsub x) x last_n]> dk]> (deltas s))
                (trace s ++ [(k, n, if last_n is Some _ then BranchDifference else BranchFirst)]).
Proof.
  intros Hrd Hlast Hdk. unfold delta_node. rewrite Hrd, Hlast, delta_cases_float.
  simpl. by rewrite Hdk.
Qed.

Lemma delta_node_other rd k s n :
  (∀ x, rd n ≠ Reads x) → delta_node fsub fzero rd k s n = s.
Proof. intros Hrd. unfold delta_node. destruct (rd n); [done| |done]. by destruct (Hrd x). Qed.

(** *** The loop over the nodes of one slice *)

Lemma delta_nodes_ok (asdict : gmap node (gmap string pyobj)) attribute k (l : list node) s :
  (∀ n e, n ∈ l → classify py_float (asdict !! n ≫= (.!! attribute)) ≠ Fails e) →
  for_each l (λ n _, try_except_KeyError (delta_try py_float fsub fzero asdict attribute k n))
           tt s
  = (foldl (delta_node fsub fzero
              (λ n, classify py_float (asdict !! n ≫= (.!! attribute))) k) s l, inr tt).
Proof.
  revert s. induction l as [|n l IH]; intros s Hok; [done|].
  rewrite for_each_cons, delta_try_step.
  destruct (classify py_float (asdict !! n ≫= (.!! attribute))) as [|x|e] eqn:Hn.
  - simpl. apply IH. intros n' e Hin. apply Hok. by right.
  - simpl. apply IH. intros n' e Hin. apply Hok. by right.
  - by destruct (Hok n e ltac:(left)).
Qed.

Lemma delta_nodes_fail (asdict : gmap node (gmap string pyobj)) attribute k (l : list node) s n e :
  n ∈ l →
  classify py_float (asdict !! n ≫= (.!! attribute)) = Fails e →
  ∃ s' n' e',
    for_each l (λ n _, try_except_KeyError (delta_try py_float fsub fzero asdict attribute k n))
             tt s = (s', inl e') ∧
    n' ∈ l ∧ classify py_float (asdict !! n' ≫= (.!! attribute)) = Fails e'.
Proof.
  revert s. induction l as [|m l IH]; intros s Hin Hn; [by apply elem_of_nil in Hin|].
  rewrite for_each_cons, delta_try_step.
  destruct (classify py_float (asdict !! m ≫= (.!! attribute))) as [|x|e0] eqn:Hm.
  - apply elem_of_cons in Hin as [->|Hin]; [congruence|].
    destruct (IH (delta_node fsub fzero
                    (λ n, classify py_float (asdict !! n ≫= (.!! attribute))) k s m) Hin Hn)
      as (s' & n' & e' & Hrun & Hn' & He').
    exists s', n', e'. split_and!; [done| by right | done].
  - apply elem_of_cons in Hin as [->|Hin]; [congruence|].
    destruct (IH (delta_node fsub fzero
                    (λ n, classify py_float (asdict !! n ≫= (.!! attribute))) k s m) Hin Hn)
      as (s' & n' & e' & Hrun & Hn' & He').
    exists s', n', e'. split_and!; [done| by right | done].
  - exists s, m, e0. split_and!; [done| by left | done].
Qed.


(** What the loop over the nodes leaves in the local variables. *)
Lemma delta_nodes_fold rd k (l : list node) s dk :
  NoDup l →
  (∀ n, n ∈ l → is_Some (last s !! n)) →
  deltas s !! k = Some dk →
  (∀ n, last (foldl (delta_node fsub fzero rd k) s l) !! n =
        if decide (n ∈ l)
        then match rd n with Reads x => Some (Some x) | _ => last s !! n end
        else last s !! n) ∧
  (∃ dk', deltas (foldl (delta_node fsub fzero rd k) s l) = <[k := dk']> (deltas s) ∧
          ∀ n, dk' !! n =
               if decide (n ∈ l)
               then match rd n with
                    | Reads x => Some (from_option (fsub x) x (default None (last s !! n)))
                    | _ => dk !! n
                    end
               else dk !! n) ∧
  (Forall (λ t, t.2 ≠ BranchFallback) (trace s) →
   Forall (λ t, t.2 ≠ BranchFallback) (trace (foldl (delta_node fsub fzero rd k) s l))).
Proof.
  revert s dk. induction l as [|m l IH]; intros s dk Hnd Hlast Hdk.
  - simpl. split_and!; [done| |done]. exists dk. split; [|done]. by rewrite insert_id.
  - apply NoDup_cons in Hnd as [Hm Hnd]. simpl.
    destruct (Hlast m ltac:(left)) as [last_m Hlm].
    destruct (rd m) as [|x|e] eqn:Hrd.
    2:{ rewrite (delta_node_Reads rd k s m x last_m dk Hrd Hlm Hdk).
        destruct (IH (mkDeltaLocals (<[m:=Some x]> (last s))
                        (<[k:=<[m:=from_option (fsub x) x last_m]> dk]> (deltas s))
                        (trace s ++ [(k, m, if last_m is Some _ then BranchDifference
                                            else BranchFirst)]))
                     (<[m:=from_option (fsub x) x last_m]> dk) Hnd)
          as (IHlast & (dk' & IHd & IHdk) & IHtr).
        { intros n Hn. simpl. rewrite lookup_insert_ne; [apply Hlast; by right|].
          intros ->. done. }
        { simpl. by rewrite lookup_insert_eq. }
        simpl in *. split_and!.
        - intros n. rewrite IHlast. split_mem n m.
          + by rewrite Hrd, lookup_insert_eq.
          + by rewrite lookup_insert_ne.
        - exists dk'. split; [by rewrite IHd, insert_insert_eq|].
          intros n. rewrite IHdk. split_mem n m.
          + by rewrite Hrd, lookup_insert_eq, Hlm.
          + by rewrite !lookup_insert_ne.
        - intros Htr. apply IHtr. apply Forall_app. split; [done|].
          apply Forall_singleton. simpl. by destruct last_m. }
    all: rewrite delta_node_other by (intros x; congruence);
      destruct (IH s dk Hnd) as (IHlast & (dk' & IHd & IHdk) & IHtr);
        [intros n Hn; apply Hlast; by right|done|];
      split_and!; [|exists dk'; split; [done|]|done];
      intros n; rewrite ?IHlast, ?IHdk; split_mem n m; by rewrite ?Hrd.
Qed.


Lemma delta_nodes_cases rd (l : list node) :
  (∀ n e, n ∈ l → rd n ≠ Fails e) ∨ (∃ n e, n ∈ l ∧ rd n = Fails e).
Proof.
  induction l as [|m l [IH|(n & e & Hn & He)]].
  - left. intros n e Hn. by apply elem_of_nil in Hn.
  - destruct (rd m) as [|x|e] eqn:Hm.
    + left. intros n e [->|Hn]%elem_of_cons; [congruence|by apply IH].
    + left. intros n e [->|Hn]%elem_of_cons; [congruence|by apply IH].
    + right. exists m, e. split; [by left|done].
  - right. exists n, e. split; [by right|done].
Qed.

Lemma delta_nodes_ext rd rd' k (l : list node) s :
  (∀ n, n ∈ l → rd n = rd' n) →
  foldl (delta_node fsub fzero rd k) s l = foldl (delta_node fsub fzero rd' k) s l.
Proof.
  revert s. induction l as [|m l IH]; intros s Hrd; [done|]. simpl.
  assert (delta_node fsub fzero rd k s m = delta_node fsub fzero rd' k s m) as ->.
  { unfold delta_node. by rewrite (Hrd m) by left. }
  apply IH. intros n Hn. apply Hrd. by right.
Qed.

(** *** The store: [delta] writes an attribute it does not read *)

Lemma same_attribute_refl name σ : same_attribute (pyobj:=pyobj) name σ σ.
Proof. by intros G. Qed.

Lemma same_attribute_trans name σ1 σ2 σ3 :
  same_attribute (pyobj:=pyobj) name σ1 σ2 → same_attribute name σ2 σ3 →
  same_attribute name σ1 σ3.
Proof.
  intros H12 H23 G. destruct (H12 G) as [Hs Ha], (H23 G) as [Hs' Ha']. split.
  - by rewrite Hs.
  - intros n. by rewrite Ha.
Qed.

Lemma same_attribute_write name name' (values : gmap node pyobj) σ G (g : Graph pyobj) :
  σ !! G = Some g →
  name' ≠ name →
  same_attribute name σ (<[G := write_attrs name' values g]> σ).
Proof.
  intros Hg Hne G'. destruct (decide (G' = G)) as [->|HG].
  - split; [by rewrite lookup_insert_eq, Hg|].
    intros n. unfold node_attribute. rewrite lookup_insert_eq, Hg. simpl.
    by rewrite attrs_write_attrs, decide_False.
  - unfold node_attribute. by rewrite lookup_insert_ne.
Qed.

Lemma same_attribute_read name C σ σ' k n :
  same_attribute name σ σ' →
  read py_float C σ name k n = read py_float C σ' name k n.
Proof.
  intros Hsame. unfold read, slice_attribute.
  destruct (graphs_lookup C k) as [G|]; simpl; [|done].
  by rewrite (proj2 (Hsame G) n).
Qed.


(** *** One slice *)

Lemma asdict_lookup (g : Graph pyobj) n attribute :
  (list_to_map (graph_nodes_data g) : gmap node (gmap string pyobj)) !! n ≫= (.!! attribute)
  = g !! n ≫= λ d, attrs d !! attribute.
Proof.
  unfold graph_nodes_data. rewrite list_to_map_to_list, lookup_fmap.
  by destruct (g !! n).
Qed.

Lemma delta_slice_unfold C attribute (all_nodes : list node) k s σ G (g : Graph pyobj) :
  graphs_lookup C k = Some G →
  σ !! G = Some g →
  delta_slice py_float fsub fzero PyFloat C attribute all_nodes k s σ =
  match for_each all_nodes
          (λ n _, try_except_KeyError
                    (delta_try py_float fsub fzero (list_to_map (graph_nodes_data g))
                               attribute k n)) tt s with
  | (s', inr _) =>
      match deltas s' !! k with
      | Some dk =>
          match set_node_attributes G (attribute ++ "_delta") (PyFloat <$> dk) σ with
          | (σ', inr _) => (σ', inr s')
          | (σ', inl e) => (σ', inl e)
          end
      | None => (σ, inl KeyError)
      end
  | (_, inl e) => (σ, inl e)
  end.
Proof.
  intros HG Hg. unfold delta_slice, collection_getitem, bind, deref, run_local.
  rewrite HG. simpl. rewrite Hg.
  destruct (for_each _ _ _ _) as [s' [e|[]]]; [done|]. simpl.
  destruct (deltas s' !! k) as [dk|]; simpl; [|done].
  by destruct (set_node_attributes _ _ _ _) as [σ' [e|[]]].
Qed.

Lemma delta_slice_cases C attribute (all_nodes : list node) k s σ0 σ G :
  NoDup all_nodes →
  graphs_lookup C k = Some G →
  is_Some (σ0 !! G) →
  same_attribute attribute σ0 σ →
  (∀ n, n ∈ all_nodes → is_Some (last s !! n)) →
  deltas s !! k = Some ∅ →
  ((∀ n e, n ∈ all_nodes → read py_float C σ0 attribute k n ≠ Fails e) ∧
   ∃ σ', delta_slice py_float fsub fzero PyFloat C attribute all_nodes k s σ =
           (σ', inr (foldl (delta_node fsub fzero (read py_float C σ0 attribute k) k)
                           s all_nodes)) ∧
         same_attribute attribute σ0 σ') ∨
  (∃ n e, n ∈ all_nodes ∧ read py_float C σ0 attribute k n = Fails e ∧
          ∃ e', delta_slice py_float fsub fzero PyFloat C attribute all_nodes k s σ
                = (σ, inl e') ∧
                ∃ n', n' ∈ all_nodes ∧ read py_float C σ0 attribute k n' = Fails e').
Proof.
  intros Hnd HG Hσ0 Hsame Hlast Hdk.
  assert (is_Some (σ !! G)) as [g Hg] by (by apply (proj1 (Hsame G))).
  assert (∀ n, classify py_float
                 ((list_to_map (graph_nodes_data g) : gmap node (gmap string pyobj)) !! n
                    ≫= (.!! attribute))
               = read py_float C σ0 attribute k n) as Hrd.
  { intros n. rewrite asdict_lookup, (same_attribute_read attribute C σ0 σ k n Hsame).
    unfold read, slice_attribute, node_attribute. rewrite HG. simpl. by rewrite Hg. }
  rewrite !(delta_slice_unfold C attribute all_nodes k s σ G g HG Hg).
  destruct (delta_nodes_cases (read py_float C σ0 attribute k) all_nodes)
    as [Hok|(n & e & Hn & He)].
  - left. split; [done|].
    rewrite delta_nodes_ok by (intros n e Hn; rewrite Hrd; by apply Hok).
    rewrite (delta_nodes_ext _ (read py_float C σ0 attribute k)) by (intros; apply Hrd).
    destruct (delta_nodes_fold (read py_float C σ0 attribute k) k all_nodes s ∅ Hnd Hlast Hdk)
      as (_ & (dk' & Hd & Hdk') & _).
    assert (deltas (foldl (delta_node fsub fzero (read py_float C σ0 attribute k) k)
                          s all_nodes) !! k = Some dk') as Hlk
      by (by rewrite Hd, lookup_insert_eq).
    rewrite Hlk.
    rewrite (set_node_attributes_ok G _ _ σ g Hg).
    + eexists. split; [done|].
      eapply same_attribute_trans; [done|].
      apply same_attribute_write; [done|apply delta_attribute_fresh].
    + rewrite dom_fmap_L. intros n Hn. apply elem_of_dom in Hn as [d Hn].
      rewrite Hdk' in Hn. case_decide as Hin; [|by rewrite lookup_empty in Hn].
      destruct (read py_float C σ0 attribute k n) as [|x|e] eqn:Hr;
        [by rewrite lookup_empty in Hn| |by rewrite lookup_empty in Hn].
      rewrite (same_attribute_read attribute C σ0 σ k n Hsame) in Hr.
      unfold read, slice_attribute, node_attribute in Hr.
      rewrite HG in Hr. simpl in Hr. rewrite Hg in Hr.
      simpl in Hr. apply elem_of_dom. destruct (g !! n); [done|]. done.
  - right. exists n, e. split_and!; [done..|].
    rewrite <-Hrd in He.
    destruct (delta_nodes_fail _ attribute k all_nodes s n e Hn He)
      as (s' & n' & e' & Hrun & Hn' & He').
    rewrite Hrun. exists e'. split; [done|]. exists n'. by rewrite <-Hrd.
Qed.


(** *** The loop over the sorted keys *)

Lemma last_observed_snoc C σ attribute (ks : list key) k n :
  last_observed py_float C σ attribute (ks ++ [k]) n =
  from_option Some (last_observed py_float C σ attribute ks n)
              (observed py_float C σ attribute k n).
Proof. unfold last_observed. by rewrite foldl_app. Qed.

Lemma delta_loop C attribute (all_nodes : list node) σ0 (todo before : list key) s σ :
  NoDup all_nodes →
  (∀ k n, n ∉ all_nodes → observed py_float C σ0 attribute k n = None) →
  NoDup todo →
  (∀ k, k ∈ todo → ∃ G, graphs_lookup C k = Some G ∧ is_Some (σ0 !! G)) →
  same_attribute attribute σ0 σ →
  (∀ n, n ∈ all_nodes → last s !! n = Some (last_observed py_float C σ0 attribute before n)) →
  (∀ k, k ∈ todo → deltas s !! k = Some ∅) →
  Forall (λ t, t.2 ≠ BranchFallback) (trace s) →
  ((∀ k n e, k ∈ todo → n ∈ all_nodes → read py_float C σ0 attribute k n ≠ Fails e) ∧
   ∃ σ' s',
     for_each todo (delta_slice py_float fsub fzero PyFloat C attribute all_nodes) s σ
       = (σ', inr s') ∧
     same_attribute attribute σ0 σ' ∧
     (∀ (t1 : list key) k t2, todo = (t1 ++ k :: t2)%list →
        ∃ dk, deltas s' !! k = Some dk ∧
              ∀ n, dk !! n = expected_delta py_float fsub C σ0 attribute (before ++ t1)%list k n) ∧
     (∀ k, k ∉ todo → deltas s' !! k = deltas s !! k) ∧
     Forall (λ t, t.2 ≠ BranchFallback) (trace s')) ∨
  (∃ σ' e k n,
     for_each todo (delta_slice py_float fsub fzero PyFloat C attribute all_nodes) s σ
       = (σ', inl e) ∧
     k ∈ todo ∧ n ∈ all_nodes ∧ read py_float C σ0 attribute k n = Fails e).
Proof.
  intros Hnodes Hcover. revert before s σ.
  induction todo as [|k todo IH]; intros before s σ Hnd HG Hsame Hlast Hdk Htr.
  - left. split; [intros k n e Hk; by apply elem_of_nil in Hk|].
    exists σ, s. split_and!; [done..| |done|done].
    intros t1 k t2 Heq. by destruct t1.
  - apply NoDup_cons in Hnd as [Hk Hnd].
    destruct (HG k ltac:(left)) as (G & HGk & Hσ0).
    rewrite !for_each_cons.
    destruct (delta_slice_cases C attribute all_nodes k s σ0 σ G Hnodes HGk Hσ0 Hsame)
      as [(Hok & σ1 & Hslice & Hsame1)|(n & e & Hn & He & e' & Hslice & n' & Hn' & He')].
    { intros n Hn. rewrite (Hlast n Hn). by eexists. }
    { apply Hdk. by left. }
    + rewrite Hslice.
      destruct (delta_nodes_fold (read py_float C σ0 attribute k) k all_nodes s ∅ Hnodes)
        as (Hlast1 & (dk' & Hd & Hdk') & Htr1).
      { intros n Hn. rewrite (Hlast n Hn). by eexists. }
      { apply Hdk. by left. }
      destruct (IH (before ++ [k])%list
                   (foldl (delta_node fsub fzero (read py_float C σ0 attribute k) k) s all_nodes)
                   σ1 Hnd)
        as [(Hok' & σ' & s' & Hrun & Hsame' & Hexp & Hout & Htr')
           |(σ' & e & k' & n & Hrun & Hk' & Hn & He)].
      { intros k' Hk'. apply HG. by right. }
      { done. }
      { intros n Hn. rewrite Hlast1, decide_True by done.
        rewrite last_observed_snoc. unfold observed.
        destruct (read py_float C σ0 attribute k n); simpl; by rewrite ?Hlast. }
      { intros k' Hk'. rewrite Hd, lookup_insert_ne; [apply Hdk; by right|].
        intros ->. done. }
      { by apply Htr1. }
      * left. split.
        { intros k' n e [->|Hk']%elem_of_cons Hn; [by apply Hok|by apply Hok']. }
        exists σ', s'. split_and!; [done..| | |done].
        -- intros t1 k0 t2 Heq. destruct t1 as [|k1 t1]; simpl in Heq.
           ++ inversion Heq; subst k0 t2. rewrite app_nil_r.
              exists dk'. split.
              ** by rewrite Hout, Hd, lookup_insert_eq.
              ** intros n. rewrite Hdk'. unfold expected_delta, observed.
                 case_decide as Hin.
                 --- destruct (read py_float C σ0 attribute k n); [done| |done].
                     by rewrite (Hlast n Hin).
                 --- rewrite lookup_empty. pose proof (Hcover k n Hin) as Hnone.
                     unfold observed in Hnone.
                     by destruct (read py_float C σ0 attribute k n).
           ++ inversion Heq; subst k1 todo.
              destruct (Hexp t1 k0 t2 eq_refl) as (dk & Hlk & Hval).
              exists dk. split; [done|]. intros n. rewrite Hval.
              by rewrite <-app_assoc.
        -- intros k' Hk'. apply not_elem_of_cons in Hk' as [Hne Hk'].
           by rewrite Hout, Hd, lookup_insert_ne.
      * right. exists σ', e, k', n. split_and!; [done|by right|done..].
    + right. rewrite Hslice. exists σ, e', k, n'. split_and!; [done|by left|done..].
Qed.

End DeltaFacts.

(** *** The whole of [delta] *)

Section DeltaRun.
Context {pyobj F : Type}.
Context (py_float : pyobj → exn + F) (fsub : F → F → F) (fzero : F).
Context (PyFloat : F → pyobj).
Implicit Types (σ : Store pyobj) (C : GraphCollection) (s : delta_locals F).
Implicit Types (n : node) (k : key).

Lemma graphs_lookup_Some C σ k :
  well_formed C σ →
  k ∈ (graphs C).*1 →
  ∃ G, graphs_lookup C k = Some G ∧ (k, G) ∈ graphs C ∧ is_Some (σ !! G).
Proof.
  intros [Hnd Hstore] Hk. apply list_elem_of_fmap in Hk as ([k' G] & -> & Hin).
  exists G. split_and!; [|done|by eapply Hstore].
  by apply elem_of_list_to_map_1.
Qed.

(** A node of no graph has no attribute in any slice. *)
Lemma read_outside_nodes C σ attribute k n :
  n ∉ node_union C σ → read py_float C σ attribute k n = Absent.
Proof.
  intros Hn. unfold read, slice_attribute.
  destruct (graphs_lookup C k) as [G|] eqn:HG; simpl; [|done].
  unfold node_attribute. destruct (σ !! G) as [g|] eqn:Hg; simpl; [|done].
  destruct (g !! n) as [d|] eqn:Hd; simpl; [|done].
  destruct Hn. apply elem_of_union_list. exists (dom g). split.
  - apply list_elem_of_fmap. exists (k, G). simpl. rewrite Hg. split; [done|].
    by apply elem_of_list_to_map_2.
  - apply elem_of_dom. by exists d.
Qed.

Lemma py_sorted_elem_of (l : list key) k : k ∈ py_sorted l ↔ k ∈ l.
Proof. unfold py_sorted. by rewrite merge_sort_Permutation. Qed.

Lemma py_sorted_NoDup (l : list key) : NoDup l → NoDup (py_sorted l).
Proof. unfold py_sorted. by rewrite merge_sort_Permutation. Qed.

Lemma py_sorted_ascending (l : list key) : StronglySorted Z.le (py_sorted l).
Proof. apply StronglySorted_merge_sort; apply _. Qed.

Lemma lookup_const_map {A} `{Countable K} (l : list K) (a : A) i :
  (list_to_map ((λ x, (x, a)) <$> l) : gmap K A) !! i = if decide (i ∈ l) then Some a else None.
Proof.
  induction l as [|x l IH]; csimpl.
  - by rewrite lookup_empty.
  - rewrite lookup_insert, IH, decide_elem_of_cons.
    destruct (decide (i = x)) as [->|Hne]; [by rewrite decide_True|by rewrite decide_False].
Qed.

(** [delta] either runs through, and then holds for every slice and node
    the delta of the specification, or stops at the first value that
    [float] rejects. *)
Lemma delta_run_cases C attribute σ :
  well_formed C σ →
  ((∀ k n e, read py_float C σ attribute k n ≠ Fails e) ∧
   ∃ σ' s',
     delta_run py_float fsub fzero PyFloat C attribute σ = (σ', inr s') ∧
     same_attribute attribute σ σ' ∧
     (∀ (t1 : list key) k t2, py_sorted (graphs C).*1 = (t1 ++ k :: t2)%list →
        ∃ dk, deltas s' !! k = Some dk ∧
              ∀ n, dk !! n = expected_delta py_float fsub C σ attribute t1 k n) ∧
     (∀ k, k ∉ (graphs C).*1 → deltas s' !! k = None) ∧
     Forall (λ t, t.2 ≠ BranchFallback) (trace s')) ∨
  (∃ σ' e k n,
     delta_run py_float fsub fzero PyFloat C attribute σ = (σ', inl e) ∧
     k ∈ (graphs C).*1 ∧ read py_float C σ attribute k n = Fails e).
Proof.
  intros Hwf. pose proof Hwf as [Hnd Hstore].
  unfold delta_run, collection_nodes, bind at 1. simpl.
  destruct (delta_loop py_float fsub fzero PyFloat C attribute
              (elements (node_union C σ)) σ (py_sorted (graphs C).*1) []
              (mkDeltaLocals
                 (list_to_map ((λ n, (n, None)) <$> elements (node_union C σ)))
                 (list_to_map ((λ k, (k, ∅)) <$> py_sorted (graphs C).*1)) []) σ)
    as [(Hok & σ' & s' & Hrun & Hsame & Hexp & Hout & Htr)
       |(σ' & e & k & n & Hrun & Hk & Hn & He)].
  - apply NoDup_elements.
  - intros k n Hn. unfold observed.
    rewrite read_outside_nodes; [done|]. by rewrite <-elem_of_elements.
  - by apply py_sorted_NoDup.
  - intros k Hk. rewrite py_sorted_elem_of in Hk.
    destruct (graphs_lookup_Some C σ k Hwf Hk) as (G & ? & _ & ?). by exists G.
  - apply same_attribute_refl.
  - intros n Hn. simpl. by rewrite lookup_const_map, decide_True.
  - intros k Hk. simpl. by rewrite lookup_const_map, decide_True.
  - done.
  - left. split.
    + intros k n e He. destruct (decide (n ∈ node_union C σ)) as [Hn|Hn].
      * destruct (decide (k ∈ (graphs C).*1)) as [Hk|Hk].
        -- revert He. apply Hok; [by rewrite py_sorted_elem_of|by rewrite elem_of_elements].
        -- unfold read, slice_attribute, graphs_lookup in He.
           by rewrite (not_elem_of_list_to_map_1 _ k) in He.
      * by rewrite read_outside_nodes in He.
    + exists σ', s'. split_and!; [done..| |done].
      intros k Hk. rewrite Hout; [|by rewrite py_sorted_elem_of].
      simpl. rewrite lookup_const_map, decide_False; [done|by rewrite py_sorted_elem_of].
  - right. exists σ', e, k, n. split_and!; [done| |done]. by rewrite py_sorted_elem_of in Hk.
Qed.


Lemma delta_ok C attribute σ :
  well_formed C σ →
  (∀ k n e, read py_float C σ attribute k n ≠ Fails e) →
  ∃ σ' s',
    delta_run py_float fsub fzero PyFloat C attribute σ = (σ', inr s') ∧
    delta py_float fsub fzero PyFloat C attribute σ = (σ', inr (deltas s')) ∧
    (∀ (t1 : list key) k t2 n, py_sorted (graphs C).*1 = (t1 ++ k :: t2)%list →
       deltas s' !! k ≫= (.!! n) = expected_delta py_float fsub C σ attribute t1 k n) ∧
    (∀ k, k ∉ (graphs C).*1 → deltas s' !! k = None).
Proof.
  intros Hwf Hok.
  destruct (delta_run_cases C attribute σ Hwf)
    as [(_ & σ' & s' & Hrun & _ & Hexp & Hout & _)|(σ' & e & k & n & _ & _ & He)];
    [|by destruct (Hok k n e)].
  exists σ', s'. split_and!; [done| | |done].
  - unfold delta, bind. by rewrite Hrun.
  - intros t1 k t2 n Heq. destruct (Hexp t1 k t2 Heq) as (dk & -> & Hdk). simpl. apply Hdk.
Qed.

Lemma read_Fails C σ attribute k n e :
  read py_float C σ attribute k n = Fails e ↔
  ∃ v, slice_attribute C σ attribute k n = Some v ∧ py_float v = inl e ∧ e ≠ KeyError.
Proof.
  unfold read, classify. split.
  - destruct (slice_attribute C σ attribute k n) as [v|]; [|done].
    destruct (py_float v) as [e'|x] eqn:Hv; [|done].
    intros He. exists v. destruct e'; inversion He; subst; done.
  - intros (v & -> & -> & Hne). by destruct e.
Qed.

Lemma observed_Some C σ attribute k n x :
  observed py_float C σ attribute k n = Some x ↔
  ∃ v, slice_attribute C σ attribute k n = Some v ∧ py_float v = inr x.
Proof.
  unfold observed, read, classify. split.
  - destruct (slice_attribute C σ attribute k n) as [v|]; [|done].
    destruct (py_float v) as [e'|x'] eqn:Hv.
    + by destruct e'.
    + intros [= ->]. by exists v.
  - by intros (v & -> & ->).
Qed.

Lemma last_observed_gap C σ attribute (ks gap : list key) n :
  (∀ k, k ∈ gap → observed py_float C σ attribute k n = None) →
  last_observed py_float C σ attribute (ks ++ gap) n = last_observed py_float C σ attribute ks n.
Proof.
  intros Hgap. induction gap as [|k gap IH] using rev_ind; [by rewrite app_nil_r|].
  rewrite app_assoc, last_observed_snoc, (Hgap k); simpl.
  - apply IH. intros k' Hk'. apply Hgap. apply elem_of_app. by left.
  - apply elem_of_app. right. by left.
Qed.

Lemma delta_absent_omitted C attribute σ :
  well_formed C σ →
  (∀ k n e, read py_float C σ attribute k n ≠ Fails e) →
  ∃ σ' result,
    delta py_float fsub fzero PyFloat C attribute σ = (σ', inr result) ∧
    (∀ k n, slice_attribute C σ attribute k n = None → result !! k ≫= (.!! n) = None).
Proof.
  intros Hwf Hok.
  destruct (delta_ok C attribute σ Hwf Hok) as (σ' & s' & _ & Hdelta & Hexp & Hout).
  exists σ', (deltas s'). split; [done|].
  intros k n Hnone. destruct (decide (k ∈ (graphs C).*1)) as [Hk|Hk].
  - rewrite <-py_sorted_elem_of in Hk.
    apply list_elem_of_split in Hk as (t1 & t2 & Heq).
    rewrite (Hexp t1 k t2 n Heq). unfold expected_delta, observed, read.
    by rewrite Hnone.
  - by rewrite (Hout k Hk).
Qed.

(** C3.  [delta] visits the slices in ascending order of their keys;
    when every value present is numeric, it returns, and a node whose
    attribute is a float [x] in a slice has as its delta there [x] minus
    the last float observed for it in the slices before, or [x] itself
    when there is none.  So a node with values [v_1, ..., v_k] in all the
    slices has the deltas [v_1, v_2 - v_1, ..., v_k - v_{k-1}], in slice
    order (whether or not the values increase). *)
Theorem delta_first_differences C attribute σ :
  well_formed C σ →
  (∀ k n e, read py_float C σ attribute k n ≠ Fails e) →
  ∃ σ' result,
    delta py_float fsub fzero PyFloat C attribute σ = (σ', inr result) ∧
    StronglySorted Z.le (py_sorted (graphs C).*1) ∧
    py_sorted (graphs C).*1 ≡ₚ (graphs C).*1 ∧
    (∀ (before : list key) k after n x,
       py_sorted (graphs C).*1 = (before ++ k :: after)%list →
       observed py_float C σ attribute k n = Some x →
       result !! k ≫= (.!! n) =
       Some (match last_observed py_float C σ attribute before n with
             | Some l => fsub x l
             | None => x
             end)) ∧
    (∀ n (vs : list F),
       Forall2 (λ k v, observed py_float C σ attribute k n = Some v)
               (py_sorted (graphs C).*1) vs →
       Forall2 (λ k d, result !! k ≫= (.!! n) = Some d)
               (py_sorted (graphs C).*1) (first_differences fsub None vs)).
Proof.
  intros Hwf Hok.
  destruct (delta_ok C attribute σ Hwf Hok) as (σ' & s' & _ & Hdelta & Hexp & _).
  exists σ', (deltas s').
  split_and!; [done|apply py_sorted_ascending|apply merge_sort_Permutation| |].
  - intros before k after n x Heq Hx. rewrite (Hexp before k after n Heq).
    unfold expected_delta. rewrite Hx.
    by destruct (last_observed py_float C σ attribute before n).
  - intros n vs.
    assert (∀ (todo before : list key) vs,
              py_sorted (graphs C).*1 = (before ++ todo)%list →
              Forall2 (λ k v, observed py_float C σ attribute k n = Some v) todo vs →
              Forall2 (λ k d, deltas s' !! k ≫= (.!! n) = Some d) todo
                      (first_differences fsub
                         (last_observed py_float C σ attribute before n) vs)) as Hgen.
    { clear vs. induction todo as [|k todo IH]; intros before vs Heq HF.
      - apply Forall2_nil_inv_l in HF as ->. constructor.
      - apply Forall2_cons_inv_l in HF as (v & vs' & Hv & HF & ->). simpl. constructor.
        + rewrite (Hexp before k todo n Heq). unfold expected_delta. by rewrite Hv.
        + specialize (IH (before ++ [k])%list vs').
          rewrite last_observed_snoc, Hv in IH. simpl in IH. apply IH; [|done].
          by rewrite <-app_assoc. }
    apply (Hgen _ []). done.
Qed.

(** C7.  When every value present is numeric, [delta] returns; a node
    whose attribute is missing in a slice has no entry under that slice;
    and when the attribute is a float [l] in slice [ki], missing in the
    slices of [gap] that follow, and a float [x] in the next slice [kj],
    the delta at [kj] is [x - l]: the gap does not reset the last value. *)
Theorem delta_missing_then_resumes C attribute σ :
  well_formed C σ →
  (∀ k n e, read py_float C σ attribute k n ≠ Fails e) →
  ∃ σ' result,
    delta py_float fsub fzero PyFloat C attribute σ = (σ', inr result) ∧
    (∀ k n, slice_attribute C σ attribute k n = None → result !! k ≫= (.!! n) = None) ∧
    (∀ (before : list key) ki (gap : list key) kj after n l x,
       py_sorted (graphs C).*1 = (before ++ ki :: gap ++ kj :: after)%list →
       observed py_float C σ attribute ki n = Some l →
       (∀ k, k ∈ gap → observed py_float C σ attribute k n = None) →
       observed py_float C σ attribute kj n = Some x →
       result !! kj ≫= (.!! n) = Some (fsub x l)).
Proof.
  intros Hwf Hok.
  destruct (delta_ok C attribute σ Hwf Hok) as (σ' & s' & _ & Hdelta & Hexp & Hout).
  exists σ', (deltas s'). split_and!; [done| |].
  - intros k n Hnone. destruct (decide (k ∈ (graphs C).*1)) as [Hk|Hk].
    + rewrite <-py_sorted_elem_of in Hk.
      apply list_elem_of_split in Hk as (t1 & t2 & Heq).
      rewrite (Hexp t1 k t2 n Heq). unfold expected_delta, observed, read.
      by rewrite Hnone.
    + by rewrite (Hout k Hk).
  - intros before ki gap kj after n l x Heq Hl Hgap Hx.
    assert (py_sorted (graphs C).*1 = ((before ++ [ki] ++ gap) ++ kj :: after)%list) as Heq'.
    { rewrite Heq. by rewrite <-!app_assoc. }
    rewrite (Hexp _ kj after n Heq'). unfold expected_delta. rewrite Hx.
    rewrite app_assoc, last_observed_gap by done.
    by rewrite last_observed_snoc, Hl.
Qed.


(** C9.  Once [float] has returned, the arm of lines 100-107 that runs is
    never the fallback one; so no run of [delta] that completes has taken
    it for any slice and node; and, when every value present is numeric,
    [delta] returns with an entry for each node and slice where the
    attribute is present, the entry being the value itself (no float seen
    before) or the value minus the last float seen. *)
Theorem delta_fallback_unreachable C attribute σ :
  well_formed C σ →
  (∀ last_n x, (delta_cases fsub fzero last_n (Some x)).1.1 ≠ BranchFallback) ∧
  (∀ σ' s, delta_run py_float fsub fzero PyFloat C attribute σ = (σ', inr s) →
           Forall (λ t, t.2 ≠ BranchFallback) (trace s)) ∧
  ((∀ k n e, read py_float C σ attribute k n ≠ Fails e) →
   ∃ σ' result,
     delta py_float fsub fzero PyFloat C attribute σ = (σ', inr result) ∧
     ∀ k n v x,
       k ∈ (graphs C).*1 →
       slice_attribute C σ attribute k n = Some v →
       py_float v = inr x →
       ∃ (before after : list key),
         py_sorted (graphs C).*1 = (before ++ k :: after)%list ∧
         result !! k ≫= (.!! n) =
         Some (match last_observed py_float C σ attribute before n with
               | Some l => fsub x l
               | None => x
               end)).
Proof.
  intros Hwf. split_and!.
  - intros last_n x. rewrite delta_cases_float. simpl. by destruct last_n.
  - intros σ' s Hrun.
    destruct (delta_run_cases C attribute σ Hwf)
      as [(_ & σ1 & s1 & Hrun1 & _ & _ & _ & Htr)|(σ1 & e & k & n & Hrun1 & _)];
      congruence.
  - intros Hok.
    destruct (delta_ok C attribute σ Hwf Hok) as (σ' & s' & _ & Hdelta & Hexp & _).
    exists σ', (deltas s'). split; [done|].
    intros k n v x Hk Hv Hx. rewrite <-py_sorted_elem_of in Hk.
    apply list_elem_of_split in Hk as (before & after & Heq).
    exists before, after. split; [done|].
    rewrite (Hexp before k after n Heq). unfold expected_delta.
    rewrite (proj2 (observed_Some C σ attribute k n x)) by (by exists v).
    by destruct (last_observed py_float C σ attribute before n).
Qed.

(** C4, as amended.  Only a failed lookup is recovered: when some value
    present in the collection makes [float] raise anything but a
    [KeyError], [delta] fails, with such an exception of such a value;
    and when no value does, [delta] returns, and a node whose attribute is
    absent in a slice is left out of that slice's result. *)
Theorem delta_coercion_failure_propagates C attribute σ :
  well_formed C σ →
  (∀ k n v e,
     k ∈ (graphs C).*1 →
     slice_attribute C σ attribute k n = Some v →
     py_float v = inl e →
     e ≠ KeyError →
     ∃ σ' e' k' n' v',
       delta py_float fsub fzero PyFloat C attribute σ = (σ', inl e') ∧
       e' ≠ KeyError ∧
       slice_attribute C σ attribute k' n' = Some v' ∧
       py_float v' = inl e') ∧
  ((∀ k n e, read py_float C σ attribute k n ≠ Fails e) →
   ∃ σ' result,
     delta py_float fsub fzero PyFloat C attribute σ = (σ', inr result) ∧
     ∀ k n, slice_attribute C σ attribute k n = None → result !! k ≫= (.!! n) = None).
Proof.
  intros Hwf. split.
  - intros k n v e Hk Hv He Hne.
    destruct (delta_run_cases C attribute σ Hwf)
      as [(Hok & _)|(σ' & e' & k' & n' & Hrun & _ & He')].
    + destruct (Hok k n e). apply read_Fails. by exists v.
    + apply read_Fails in He' as (v' & Hv' & He' & Hne').
      exists σ', e', k', n', v'. split_and!; [|done..].
      unfold delta, bind. by rewrite Hrun.
  - intros Hok.
    destruct (delta_absent_omitted C attribute σ Hwf Hok) as (σ' & result & ? & ?).
    by exists σ', result.
Qed.

End DeltaRun.

(** *** [delta] on the examples *)

Section NumericCheck.
Context {pyobj F : Type}.
Context (py_float : pyobj → exn + F).

Lemma numeric_collection C (σ : Store pyobj) attribute :
  (∀ k G, (k, G) ∈ graphs C →
     ∃ g, σ !! G = Some g ∧ numeric_graph py_float attribute g = true) →
  ∀ k n e, read py_float C σ attribute k n ≠ Fails e.
Proof.
  intros Hnum k n e. unfold read, slice_attribute, classify.
  destruct (graphs_lookup C k) as [G|] eqn:HG; simpl; [|done].
  unfold graphs_lookup in HG. apply elem_of_list_to_map_2 in HG.
  destruct (Hnum k G HG) as (g & Hg & Hcheck).
  unfold node_attribute. rewrite Hg. simpl.
  destruct (g !! n) as [d|] eqn:Hd; simpl; [|done].
  unfold numeric_graph in Hcheck. rewrite forallb_forall in Hcheck.
  specialize (Hcheck (n, d)). simpl in Hcheck.
  destruct (attrs d !! attribute) as [v|]; [|done].
  destruct (py_float v) as [[]|x]; try done;
    (assert (false = true) as Habs; [|done]); apply Hcheck, list_elem_of_In;
    by apply elem_of_map_to_list.
Qed.
End NumericCheck.

Lemma scenario_well_formed : well_formed scenario scenario_store.
Proof.
  split; [compute_done|]. intros k G Hin. in_cases Hin; by eexists.
Qed.

Lemma scenario_numeric k n e : read pyval_float scenario scenario_store "x" k n ≠ Fails e.
Proof.
  apply numeric_collection. intros k' G Hin. in_cases Hin; eexists; split; reflexivity.
Qed.

Lemma delta_first_differences_witness :
  ∃ σ' result,
    delta pyval_float Qminus 0%Q PyNum scenario "x" scenario_store = (σ', inr result) ∧
    result !! 2000%Z ≫= (.!! "C") = Some 3%Q ∧
    result !! 2001%Z ≫= (.!! "C") = Some (5 - 3)%Q.
Proof.
  destruct (delta_first_differences pyval_float Qminus 0%Q PyNum scenario "x" scenario_store
              scenario_well_formed scenario_numeric)
    as (σ' & result & Hrun & _ & _ & Hstep & _).
  exists σ', result. split_and!; [done| |].
  - apply (Hstep [] 2000%Z [2001%Z] "C" 3%Q); reflexivity.
  - apply (Hstep [2000%Z] 2001%Z [] "C" 5%Q); reflexivity.
Defined.

Lemma gap_well_formed : well_formed gap_collection gap_store.
Proof.
  split; [compute_done|]. intros k G Hin. in_cases Hin; by eexists.
Qed.

Lemma gap_numeric k n e : read pyval_float gap_collection gap_store "x" k n ≠ Fails e.
Proof.
  apply numeric_collection. intros k' G Hin. in_cases Hin; eexists; split; reflexivity.
Qed.

Lemma delta_missing_then_resumes_witness :
  ∃ σ' result,
    delta pyval_float Qminus 0%Q PyNum gap_collection "x" gap_store = (σ', inr result) ∧
    result !! 2001%Z ≫= (.!! "A") = None ∧
    result !! 2002%Z ≫= (.!! "A") = Some (4 - 1)%Q.
Proof.
  destruct (delta_missing_then_resumes pyval_float Qminus 0%Q PyNum gap_collection "x"
              gap_store gap_well_formed gap_numeric)
    as (σ' & result & Hrun & Hmissing & Hresume).
  exists σ', result. split_and!; [done| |].
  - apply Hmissing. reflexivity.
  - apply (Hresume [] 2000%Z [2001%Z] 2002%Z [] "A" 1%Q 4%Q); [reflexivity..| |reflexivity].
    intros k Hk. in_cases Hk. reflexivity.
Defined.

Lemma delta_fallback_unreachable_witness :
  (∀ σ' s, delta_run pyval_float Qminus 0%Q PyNum gap_collection "x" gap_store = (σ', inr s) →
           Forall (λ t, t.2 ≠ BranchFallback) (trace s)) ∧
  ∃ σ' result,
    delta pyval_float Qminus 0%Q PyNum gap_collection "x" gap_store = (σ', inr result) ∧
    ∃ before after : list key,
      py_sorted (graphs gap_collection).*1 = (before ++ 2002%Z :: after)%list ∧
      result !! 2002%Z ≫= (.!! "A") =
      Some (match last_observed pyval_float gap_collection gap_store "x" before "A" with
            | Some l => (4 - l)%Q
            | None => 4%Q
            end).
Proof.
  destruct (delta_fallback_unreachable pyval_float Qminus 0%Q PyNum gap_collection "x"
              gap_store gap_well_formed)
    as (_ & Htrace & Hentry).
  split; [done|].
  destruct (Hentry gap_numeric) as (σ' & result & Hrun & Hrec).
  exists σ', result. split; [done|].
  apply (Hrec 2002%Z "A" (PyNum 4) 4%Q); [compute_done|reflexivity..].
Defined.

Lemma none_well_formed : well_formed scenario none_store.
Proof.
  split; [compute_done|]. intros k G Hin. in_cases Hin; by eexists.
Qed.

Lemma delta_coercion_failure_propagates_witness :
  ∃ σ' e' k' n' v',
    delta pyval_float Qminus 0%Q PyNum scenario "x" none_store = (σ', inl e') ∧
    e' ≠ KeyError ∧
    slice_attribute scenario none_store "x" k' n' = Some v' ∧
    pyval_float v' = inl e'.
Proof.
  destruct (delta_coercion_failure_propagates pyval_float Qminus 0%Q PyNum scenario "x"
              none_store none_well_formed) as [Hfail _].
  apply (Hfail 2001%Z "B" PyNone TypeError); [compute_done|reflexivity|reflexivity|done].
Defined.

(** C4 as stated fails: the attribute [x] of node B is [None] in 2001,
    [float(None)] raises [TypeError], and the call fails with it instead of
    leaving B out and going on. *)
Lemma delta_uncoercible_value_fails :
  slice_attribute scenario none_store "x" 2001%Z "B" = Some PyNone ∧
  pyval_float PyNone = inl TypeError ∧
  (delta pyval_float Qminus 0%Q PyNum scenario "x" none_store).2 = inl TypeError.
Proof. split_and!; reflexivity. Qed.

(** ** [attachment_probability] *)

Section AttachmentFacts.
Context {pyobj : Type}.
Context (PyFloat : Q → pyobj).
Implicit Types (σ : Store pyobj) (C : GraphCollection) (g : Graph pyobj).
Implicit Types (n : node) (k : key) (a : gmap node (gset node)).

(** *** The two loops over nodes *)

(** A loop that sets [m[n]] for the nodes [n] that have a value [v n]. *)
Lemma lookup_foldl_set (v : node → option Q) (l : list node) (m : gmap node Q) n :
  foldl (λ m n, from_option (λ q, <[n := q]> m) m (v n)) m l !! n =
  if decide (n ∈ l) then from_option Some (m !! n) (v n) else m !! n.
Proof.
  revert m. induction l as [|x l IH]; intros m; simpl; [done|].
  rewrite IH, (decide_elem_of_cons n x). destruct (decide (n = x)) as [->|Hne].
  - destruct (v x) as [q|]; simpl; rewrite ?lookup_insert_eq; by case_decide.
  - assert (from_option (λ q, <[x:=q]> m) m (v x) !! n = m !! n) as ->; [|done].
    destruct (v x); simpl; [by rewrite lookup_insert_ne|done].
Qed.

Lemma new_edges_try_step (g_ g : Graph pyobj) n (m : gmap node Q) :
  try_except_KeyError (new_edges_try g_ g n) m =
  (from_option (λ q, <[n := q]> m) m
     (g_ !! n ≫= λ d_,
        if decide (0 < size (nbrs d_))
        then (λ d, float_len (nbrs d ∖ nbrs d_)) <$> g !! n
        else Some 0%Q), inr tt).
Proof.
  unfold try_except_KeyError, new_edges_try, bind, getitem, modify, ret, raise.
  destruct (g_ !! n) as [d_|]; simpl; [|done].
  case_decide; [|done]. by destruct (g !! n).
Qed.

Lemma lookup_new_edges_of a_ a n :
  new_edges_of a_ a !! n =
  a !! n ≫= λ s, (λ s_, if decide (0 < size s_) then float_len (s ∖ s_) else 0%Q) <$> a_ !! n.
Proof.
  unfold new_edges_of. rewrite map_lookup_imap.
  destruct (a !! n) as [s|]; simpl; [|done]. by destruct (a_ !! n).
Qed.

Lemma new_edges_loop_spec (g_ g : Graph pyobj) :
  new_edges_loop g_ g ∅ = (new_edges_of (adjacency g_) (adjacency g), inr tt).
Proof.
  unfold new_edges_loop.
  rewrite (for_each_state
             (λ n m, from_option (λ q, <[n := q]> m) m
                (g_ !! n ≫= λ d_,
                   if decide (0 < size (nbrs d_))
                   then (λ d, float_len (nbrs d ∖ nbrs d_)) <$> g !! n
                   else Some 0%Q)))
    by (intros; apply new_edges_try_step).
  f_equal. apply map_eq. intros n.
  rewrite (lookup_foldl_set
             (λ n, g_ !! n ≫= λ d_,
                if decide (0 < size (nbrs d_))
                then (λ d, float_len (nbrs d ∖ nbrs d_)) <$> g !! n
                else Some 0%Q)).
  rewrite lookup_new_edges_of. unfold adjacency. rewrite !lookup_fmap, lookup_empty.
  unfold graph_nodes. case_decide as Hin.
  - rewrite elem_of_elements, elem_of_dom in Hin. destruct Hin as [d Hd]. rewrite Hd. simpl.
    destruct (g_ !! n) as [d_|]; simpl; [|done]. by case_decide.
  - rewrite elem_of_elements in Hin. apply not_elem_of_dom in Hin. by rewrite Hin.
Qed.

Lemma probs_try_step (new_edges : gmap node Q) (N : Q) n (m : gmap node Q) :
  try_except_KeyError (probs_try new_edges N n) m =
  (from_option (λ q, <[n := q]> m) m ((λ c, (c / N)%Q) <$> new_edges !! n), inr tt).
Proof.
  unfold try_except_KeyError, probs_try, bind, getitem, modify, ret, raise.
  by destruct (new_edges !! n).
Qed.

Lemma lookup_probs_of a_ a n :
  probs_of a_ a !! n =
  (λ _, if Qlt_le_dec 0 (py_sum (values (new_edges_of a_ a)))
        then from_option (λ c, (c / py_sum (values (new_edges_of a_ a)))%Q) 0%Q
                         (new_edges_of a_ a !! n)
        else 0%Q) <$> a_ !! n.
Proof. unfold probs_of. rewrite map_lookup_imap. by destruct (a_ !! n). Qed.

Lemma lookup_zeros (g_ : Graph pyobj) n :
  (list_to_map ((λ n, (n, 0%Q)) <$> graph_nodes g_) : gmap node Q) !! n
  = (λ _, 0%Q) <$> adjacency g_ !! n.
Proof.
  rewrite lookup_const_map. unfold graph_nodes, adjacency. rewrite lookup_fmap.
  case_decide as Hin.
  - rewrite elem_of_elements, elem_of_dom in Hin. by destruct Hin as [d ->].
  - rewrite elem_of_elements in Hin. apply not_elem_of_dom in Hin. by rewrite Hin.
Qed.

(** Lines 228-234: [probs[k_]] from [new_edges], given that the nodes
    listed by the collection include those of the current slice. *)
Lemma probs_loop_spec (g_ g : Graph pyobj) (all_nodes : list node) (σ : Store pyobj) :
  (∀ n, n ∈ dom g → n ∈ all_nodes) →
  (if Qlt_le_dec 0 (py_sum (values (new_edges_of (adjacency g_) (adjacency g))))
   then run_local
          (for_each all_nodes
             (λ n _, try_except_KeyError
                       (probs_try (new_edges_of (adjacency g_) (adjacency g))
                          (py_sum (values (new_edges_of (adjacency g_) (adjacency g)))) n))
             tt) (list_to_map ((λ n, (n, 0%Q)) <$> graph_nodes g_))
   else ret (list_to_map ((λ n, (n, 0%Q)) <$> graph_nodes g_), tt)) σ
  = (σ, inr (probs_of (adjacency g_) (adjacency g), tt)).
Proof.
  intros Hcover.
  assert (∀ m : gmap node Q, m = probs_of (adjacency g_) (adjacency g) →
            (σ, inr (m, tt)) = (σ, @inr exn _ (probs_of (adjacency g_) (adjacency g), tt)))
    as Hpair by (by intros m ->).
  destruct (Qlt_le_dec _ _) as [HN|HN] eqn:HNdec.
  - unfold run_local.
    rewrite (for_each_state
               (λ n m, from_option (λ q, <[n := q]> m) m
                  ((λ c, (c / py_sum (values (new_edges_of (adjacency g_) (adjacency g))))%Q)
                     <$> new_edges_of (adjacency g_) (adjacency g) !! n)))
      by (intros; apply probs_try_step).
    apply Hpair. apply map_eq. intros n.
    rewrite lookup_probs_of, HNdec.
    rewrite (lookup_foldl_set
               (λ n, (λ c, (c / py_sum (values (new_edges_of (adjacency g_) (adjacency g))))%Q)
                       <$> new_edges_of (adjacency g_) (adjacency g) !! n)).
    rewrite lookup_zeros.
    destruct (new_edges_of (adjacency g_) (adjacency g) !! n) as [c|] eqn:Hc; simpl.
    + rewrite lookup_new_edges_of in Hc.
      destruct (adjacency g !! n) as [s|] eqn:Hs; simpl in Hc; [|done].
      destruct (adjacency g_ !! n) as [s_|] eqn:Hs_; simpl in Hc; [|done].
      rewrite decide_True; [done|]. apply Hcover, elem_of_dom.
      unfold adjacency in Hs. rewrite lookup_fmap in Hs. by destruct (g !! n).
    + by case_decide.
  - unfold ret. apply Hpair. apply map_eq. intros n.
    by rewrite lookup_probs_of, HNdec, lookup_zeros.
Qed.

(** *** One iteration *)

Lemma same_structure_lookup σ0 σ G g :
  same_structure σ0 σ → σ !! G = Some g →
  is_Some (σ0 !! G) ∧ adjacency_at σ0 G = adjacency g.
Proof.
  intros Hsame Hg. specialize (Hsame G). rewrite Hg in Hsame. unfold adjacency_at.
  destruct (σ0 !! G) as [g0|]; [|done]. split; [done|]. simpl in *. congruence.
Qed.

Lemma same_structure_is_Some σ0 σ G :
  same_structure σ0 σ → is_Some (σ0 !! G) → is_Some (σ !! G).
Proof.
  intros Hsame [g0 Hg0]. specialize (Hsame G). rewrite Hg0 in Hsame.
  destruct (σ !! G); [done|]. done.
Qed.

Lemma same_structure_write name (values : gmap node pyobj) σ0 σ G g :
  same_structure σ0 σ → σ !! G = Some g →
  same_structure σ0 (<[G := write_attrs name values g]> σ).
Proof.
  intros Hsame Hg G'. rewrite (Hsame G'). destruct (decide (G' = G)) as [->|Hne].
  - rewrite lookup_insert_eq, Hg. simpl. f_equal. apply map_eq. intros n.
    unfold adjacency. rewrite !lookup_fmap. symmetry. apply nbrs_write_attrs.
  - by rewrite lookup_insert_ne.
Qed.

Lemma node_union_covers C σ k G g n :
  (k, G) ∈ graphs C → σ !! G = Some g → n ∈ dom g → n ∈ elements (node_union C σ).
Proof.
  intros Hin Hg Hn. apply elem_of_elements, elem_of_union_list. exists (dom g).
  split; [|done]. apply list_elem_of_fmap. exists (k, G). simpl. by rewrite Hg.
Qed.

Lemma attachment_step_spec C σ0 σ k_ G_ k G probs :
  same_structure σ0 σ →
  graphs_lookup C k_ = Some G_ →
  is_Some (σ0 !! G_) →
  is_Some (σ0 !! G) →
  (k, G) ∈ graphs C →
  ∃ g_,
    σ !! G_ = Some g_ ∧
    attachment_step PyFloat C (k_, G_) G probs σ =
    (<[G_ := write_attrs "attachment_probability"
               (PyFloat <$> probs_of (adjacency_at σ0 G_) (adjacency_at σ0 G)) g_]> σ,
     inr (<[k_ := probs_of (adjacency_at σ0 G_) (adjacency_at σ0 G)]> probs)).
Proof.
  intros Hsame Hk_ HG_ HG Hin.
  destruct (same_structure_is_Some σ0 σ G_ Hsame HG_) as [g_ Hg_].
  destruct (same_structure_is_Some σ0 σ G Hsame HG) as [g Hg].
  destruct (same_structure_lookup σ0 σ G_ g_ Hsame Hg_) as [_ Ha_].
  destruct (same_structure_lookup σ0 σ G g Hsame Hg) as [_ Ha].
  exists g_. split; [done|]. rewrite Ha_, Ha.
  unfold attachment_step, bind at 1. unfold deref at 1. rewrite Hg_.
  unfold bind at 1. unfold deref at 1. rewrite Hg.
  unfold bind at 1. unfold run_local at 1. rewrite new_edges_loop_spec. simpl.
  unfold bind at 1. unfold collection_nodes at 1, bind at 1. simpl.
  unfold bind at 1.
  rewrite (probs_loop_spec g_ g (elements (node_union C σ)) σ)
    by (intros n Hn; by eapply node_union_covers).
  simpl. unfold bind at 1. rewrite Hk_. simpl. unfold bind at 1.
  rewrite (set_node_attributes_ok G_ _ _ σ g_ Hg_).
  - done.
  - rewrite dom_fmap_L. intros n Hn. apply elem_of_dom in Hn as [p Hp].
    rewrite lookup_probs_of in Hp. unfold adjacency in Hp. rewrite lookup_fmap in Hp.
    apply elem_of_dom. by destruct (g_ !! n).
Qed.

End AttachmentFacts.

(** *** Sums of floats *)

Lemma foldl_Qplus_acc (l : list Q) (acc : Q) :
  (foldl Qplus acc l == acc + foldl Qplus 0 l)%Q.
Proof.
  revert acc. induction l as [|x l IH]; intros acc; simpl.
  - ring.
  - rewrite (IH (acc + x)%Q), (IH (0 + x)%Q). ring.
Qed.

Lemma py_sum_cons (x : Q) (l : list Q) : (py_sum (x :: l) == x + py_sum l)%Q.
Proof. unfold py_sum. simpl. rewrite foldl_Qplus_acc. ring. Qed.

Lemma py_sum_Permutation (l l' : list Q) : l ≡ₚ l' → (py_sum l == py_sum l')%Q.
Proof.
  induction 1 as [|x l l' _ IH|x y l|l l' l'' _ IH1 _ IH2].
  - reflexivity.
  - by rewrite !py_sum_cons, IH.
  - rewrite !py_sum_cons. ring.
  - by rewrite IH1.
Qed.

Lemma py_sum_nonneg (l : list Q) : Forall (λ x, (0 <= x)%Q) l → (0 <= py_sum l)%Q.
Proof.
  induction 1 as [|x l Hx _ IH]; [done|]. rewrite py_sum_cons. lra.
Qed.

Lemma py_sum_zero (l : list Q) : Forall (λ x, (x == 0)%Q) l → (py_sum l == 0)%Q.
Proof.
  induction 1 as [|x l Hx _ IH]; [done|]. rewrite py_sum_cons, Hx, IH. ring.
Qed.

(** The sum of the values of a dictionary, one entry taken out. *)
Lemma py_sum_values_lookup (m : gmap node Q) n c :
  m !! n = Some c → (py_sum (values m) == c + py_sum (values (delete n m)))%Q.
Proof.
  intros Hn. rewrite <-py_sum_cons. apply py_sum_Permutation.
  unfold values. rewrite <-(insert_delete_id m n c Hn) at 1.
  rewrite map_to_list_insert by apply lookup_delete_eq. done.
Qed.

(** *** The loop over the slices *)

Section AttachmentRun.
Context {pyobj : Type}.
Context (PyFloat : Q → pyobj).
Implicit Types (σ : Store pyobj) (C : GraphCollection) (g : Graph pyobj).
Implicit Types (n : node) (k : key) (a : gmap node (gset node)).

Lemma same_structure_refl σ : same_structure σ σ.
Proof. by intros G. Qed.

Lemma attachment_loop_spec C σ0 (l : list (key * objid)) σ probs prev :
  well_formed C σ0 →
  same_structure σ0 σ →
  (∀ kG, kG ∈ l → kG ∈ graphs C) →
  (∀ p, prev = Some p → p ∈ graphs C) →
  ∃ σ' prev',
    for_each l (attachment_iteration PyFloat C) (probs, prev) σ =
      (σ', inr (probs_after σ0 prev l probs, prev')) ∧
    same_structure σ0 σ'.
Proof.
  intros [Hnd Hstore]. revert σ probs prev.
  induction l as [|[k G] l IH]; intros σ probs prev Hsame Hl Hprev.
  - exists σ, prev. by split.
  - rewrite for_each_cons. unfold attachment_iteration at 1.
    assert ((k, G) ∈ graphs C) as Hin by (apply Hl; by left).
    destruct prev as [[k_ G_]|].
    + assert ((k_, G_) ∈ graphs C) as Hin_ by (by apply Hprev).
      destruct (attachment_step_spec PyFloat C σ0 σ k_ G_ k G probs Hsame)
        as (g_ & Hg_ & Hstep); [by apply elem_of_list_to_map_1|by eapply Hstore..|done|].
      unfold bind at 1. rewrite Hstep. simpl.
      destruct (IH (<[G_:=write_attrs "attachment_probability"
                           (PyFloat <$> probs_of (adjacency_at σ0 G_) (adjacency_at σ0 G)) g_]> σ)
                   (<[k_:=probs_of (adjacency_at σ0 G_) (adjacency_at σ0 G)]> probs)
                   (Some (k, G)))
        as (σ' & prev' & Hrun & Hsame').
      * by apply same_structure_write.
      * intros kG HkG. apply Hl. by right.
      * by intros p [= <-].
      * exists σ', prev'. by split.
    + unfold bind at 1. simpl.
      destruct (IH σ probs (Some (k, G))) as (σ' & prev' & Hrun & Hsame'); [done| | |].
      * intros kG HkG. apply Hl. by right.
      * by intros p [= <-].
      * exists σ', prev'. by split.
Qed.

(** [attachment_probability] returns on a collection that is not empty,
    and raises [IndexError] on an empty one. *)
Lemma attachment_probability_spec C σ k_last G_last :
  well_formed C σ →
  item_minus1 (graphs C) = Some (k_last, G_last) →
  ∃ σ' g',
    σ' !! G_last = Some g' ∧
    same_structure σ σ' ∧
    attachment_probability PyFloat C σ =
    (<[G_last := write_attrs "attachment_probability"
                   (PyFloat <$> (list_to_map ((λ n, (n, 0%Q)) <$> graph_nodes g') : gmap node Q))
                   g']> σ',
     inr (probs_after σ None (graphs C) ∅)).
Proof.
  intros Hwf Hlast. pose proof Hwf as [Hnd Hstore].
  destruct (attachment_loop_spec C σ (graphs C) σ ∅ None Hwf (same_structure_refl σ))
    as (σ' & prev' & Hrun & Hsame); [done..|].
  assert ((k_last, G_last) ∈ graphs C) as Hin.
  { unfold item_minus1 in Hlast. apply last_Some in Hlast as [l' ->].
    apply elem_of_app. right. by left. }
  destruct (same_structure_is_Some σ σ' G_last Hsame) as [g' Hg']; [by eapply Hstore|].
  exists σ', g'. split_and!; [done..|].
  unfold attachment_probability, attachment_loop, bind at 1. rewrite Hrun.
  unfold item_minus1 in *. rewrite fmap_last, Hlast. simpl.
  unfold bind at 1. simpl. unfold bind at 1.
  unfold graphs_lookup. rewrite (elem_of_list_to_map_1 _ _ _ Hnd Hin). simpl.
  unfold bind at 1. unfold deref at 1. rewrite Hg'.
  unfold bind at 1. rewrite (set_node_attributes_ok G_last _ _ σ' g' Hg'); [done|].
  rewrite dom_fmap_L. intros n Hn. apply elem_of_dom in Hn as [p Hp].
  rewrite lookup_const_map in Hp. case_decide as Hn; [|done].
  unfold graph_nodes in Hn. by apply elem_of_elements in Hn.
Qed.


(** *** What the result holds *)

Lemma probs_after_frame σ (l : list (key * objid)) prev probs k' :
  k' ∉ l.*1 →
  (∀ p, prev = Some p → p.1 ≠ k') →
  probs_after σ prev l probs !! k' = probs !! k'.
Proof.
  revert prev probs. induction l as [|[k G] l IH]; intros prev probs Hl Hprev; [done|].
  simpl in *. apply not_elem_of_cons in Hl as [Hne Hl].
  rewrite IH; [|done|by intros p [= <-]].
  destruct prev as [[k_ G_]|]; [|done].
  rewrite lookup_insert_ne; [done|]. by apply (Hprev (k_, G_)).
Qed.

(** The entry of a slice that has a successor is made of the two. *)
Lemma probs_after_pair σ (l l1 l2 : list (key * objid)) prev probs k_ G_ k G :
  NoDup l.*1 →
  l = (l1 ++ (k_, G_) :: (k, G) :: l2)%list →
  probs_after σ prev l probs !! k_ =
  Some (probs_of (adjacency_at σ G_) (adjacency_at σ G)).
Proof.
  intros Hnd ->. revert prev probs Hnd.
  induction l1 as [|[k0 G0] l1 IH]; intros prev probs Hnd.
  - simpl in *. apply NoDup_cons in Hnd as [Hk_ Hnd].
    rewrite probs_after_frame.
    + by rewrite lookup_insert_eq.
    + intros Hin. apply Hk_. by right.
    + intros p [= <-]. simpl. intros ->. apply Hk_. by left.
  - simpl in *. apply NoDup_cons in Hnd as [_ Hnd]. by apply IH.
Qed.

(** Every entry of the result is made of two slices. *)
Lemma probs_after_entry σ (l : list (key * objid)) prev probs k' pk :
  probs_after σ prev l probs !! k' = Some pk →
  probs !! k' = Some pk ∨
  ∃ G_ G, pk = probs_of (adjacency_at σ G_) (adjacency_at σ G).
Proof.
  revert prev probs. induction l as [|[k G] l IH]; intros prev probs Hlk; [by left|].
  simpl in Hlk. apply IH in Hlk as [Hlk|Hlk]; [|by right].
  destruct prev as [[k_ G_]|]; [|by left].
  rewrite lookup_insert in Hlk. case_decide; [|by left].
  right. exists G_, G. congruence.
Qed.

Lemma float_len_nonneg (s : gset node) : (0 <= float_len s)%Q.
Proof.
  unfold float_len. change 0%Q with (inject_Z 0). rewrite <-Zle_Qle. lia.
Qed.

Lemma new_edges_of_nonneg a_ a n c : new_edges_of a_ a !! n = Some c → (0 <= c)%Q.
Proof.
  rewrite lookup_new_edges_of. destruct (a !! n) as [s|]; simpl; [|done].
  destruct (a_ !! n) as [s_|]; simpl; [|done]. intros [= <-].
  case_decide; [apply float_len_nonneg|done].
Qed.

(** A count is at most the sum of the counts. *)
Lemma new_edges_of_le_sum a_ a n c :
  new_edges_of a_ a !! n = Some c → (c <= py_sum (values (new_edges_of a_ a)))%Q.
Proof.
  intros Hc. rewrite (py_sum_values_lookup _ n c Hc).
  assert (0 <= py_sum (values (delete n (new_edges_of a_ a))))%Q; [|lra].
  apply py_sum_nonneg, Forall_forall. intros x Hx.
  apply list_elem_of_fmap in Hx as ([m x'] & -> & Hx). simpl.
  apply elem_of_map_to_list in Hx. apply lookup_delete_Some in Hx as [_ Hx].
  by eapply new_edges_of_nonneg.
Qed.

Lemma probs_of_bounds a_ a n p : probs_of a_ a !! n = Some p → (0 <= p)%Q ∧ (p <= 1)%Q.
Proof.
  rewrite lookup_probs_of. destruct (a_ !! n) as [s_|]; simpl; [|done]. intros [= <-].
  destruct (Qlt_le_dec _ _) as [HN|HN]; [|done].
  destruct (new_edges_of a_ a !! n) as [c|] eqn:Hc; simpl; [|done].
  pose proof (new_edges_of_nonneg a_ a n c Hc).
  pose proof (new_edges_of_le_sum a_ a n c Hc). split.
  - apply Qle_shift_div_l; [done|]. lra.
  - apply Qle_shift_div_r; [done|]. lra.
Qed.

Lemma dom_probs_of a_ a : dom (probs_of a_ a) = dom a_.
Proof.
  apply set_eq. intros n. rewrite !elem_of_dom, lookup_probs_of. by rewrite fmap_is_Some.
Qed.

End AttachmentRun.

(** *** The claims on [attachment_probability] *)

Section AttachmentClaims.
Context {pyobj : Type}.
Context (PyFloat : Q → pyobj).
Implicit Types (σ : Store pyobj) (C : GraphCollection) (g : Graph pyobj).
Implicit Types (n : node) (k : key) (a : gmap node (gset node)).

Lemma attachment_probability_returns C σ :
  well_formed C σ →
  graphs C ≠ [] →
  ∃ σ', attachment_probability PyFloat C σ = (σ', inr (probs_after σ None (graphs C) ∅)).
Proof.
  intros Hwf Hne.
  destruct (item_minus1 (graphs C)) as [[k G]|] eqn:Hlast.
  - destruct (attachment_probability_spec PyFloat C σ k G Hwf Hlast) as (σ' & g' & _ & _ & Hrun).
    by eexists.
  - unfold item_minus1 in Hlast. by apply last_None in Hlast.
Qed.

Lemma adjacency_at_lookup σ G g : σ !! G = Some g → adjacency_at σ G = adjacency g.
Proof. intros Hg. unfold adjacency_at. by rewrite Hg. Qed.

(** The graph of the last slice ends with an attribute that is zero on
    each of its nodes. *)
Lemma attachment_last_slice_zero C σ k_last G_last g :
  well_formed C σ →
  item_minus1 (graphs C) = Some (k_last, G_last) →
  σ !! G_last = Some g →
  ∃ σ' g',
    attachment_probability PyFloat C σ = (σ', inr (probs_after σ None (graphs C) ∅)) ∧
    σ' !! G_last = Some g' ∧
    dom g' = dom g ∧
    ∀ n, n ∈ dom g →
         g' !! n ≫= (λ d, attrs d !! "attachment_probability") = Some (PyFloat 0%Q).
Proof.
  intros Hwf Hlast Hg.
  destruct (attachment_probability_spec PyFloat C σ k_last G_last Hwf Hlast)
    as (σ' & g' & Hg' & Hsame & Hrun).
  destruct (same_structure_lookup σ σ' G_last g' Hsame Hg') as [_ Ha].
  rewrite (adjacency_at_lookup σ G_last g Hg) in Ha.
  assert (dom g' = dom g) as Hdom.
  { apply (f_equal dom) in Ha. unfold adjacency in Ha. by rewrite !dom_fmap_L in Ha. }
  eexists _, _. split_and!; [done|by rewrite lookup_insert_eq|by rewrite dom_write_attrs|].
  intros n Hn. rewrite attrs_write_attrs, decide_True by done.
  rewrite <-Hdom in Hn. apply elem_of_dom in Hn as [d Hd]. rewrite Hd. simpl.
  rewrite lookup_fmap, lookup_const_map, decide_True; [done|].
  unfold graph_nodes. apply elem_of_elements, elem_of_dom. by exists d.
Qed.

(** What one new edge between [A], which had a neighbour, and [B], which
    had none, does to the counts. *)
Lemma new_edges_one_edge a1 a2 A B sA :
  adds_one_edge a1 a2 A B →
  a1 !! A = Some sA →
  0 < size sA →
  default ∅ (a1 !! B) = ∅ →
  new_edges_of a1 a2 !! A = Some 1%Q ∧
  ∀ n c, n ≠ A → new_edges_of a1 a2 !! n = Some c → c = 0%Q.
Proof.
  intros (Hne & HB & ->) HA Hsize HsB. rewrite HA in HB. simpl in HB. split.
  - rewrite lookup_new_edges_of, lookup_insert_eq, HA. simpl.
    rewrite decide_True by done. f_equal.
    assert ((sA ∪ {[B]}) ∖ sA = {[B]}) as ->.
    { apply set_eq. intros x.
      rewrite elem_of_difference, elem_of_union, elem_of_singleton.
      split; [by intros [[?|?] ?]|]. intros ->. split; [by right|done]. }
    unfold float_len. by rewrite size_singleton.
  - intros n c Hn. rewrite lookup_new_edges_of, lookup_insert_ne by done.
    destruct (decide (n = B)) as [->|HnB].
    + rewrite lookup_insert_eq. simpl. destruct (a1 !! B) as [sB|]; simpl; [|done].
      simpl in HsB. subst sB. rewrite size_empty. by intros [= <-].
    + rewrite lookup_insert_ne by done.
      destruct (a1 !! n) as [s|]; simpl; [|done]. intros [= <-].
      case_decide; [|done]. rewrite difference_diag_L. unfold float_len.
      by rewrite size_empty.
Qed.

Lemma probs_one_edge a1 a2 A B sA :
  adds_one_edge a1 a2 A B →
  a1 !! A = Some sA →
  0 < size sA →
  default ∅ (a1 !! B) = ∅ →
  (∃ pA, probs_of a1 a2 !! A = Some pA ∧ (pA == 1)%Q) ∧
  ∀ n p, n ≠ A → probs_of a1 a2 !! n = Some p → (p == 0)%Q.
Proof.
  intros Hadd HA Hsize HsB.
  destruct (new_edges_one_edge a1 a2 A B sA Hadd HA Hsize HsB) as [HcA Hother].
  assert (py_sum (values (new_edges_of a1 a2)) == 1)%Q as HN.
  { rewrite (py_sum_values_lookup _ A 1%Q HcA).
    rewrite py_sum_zero; [ring|]. apply Forall_forall. intros x Hx.
    apply list_elem_of_fmap in Hx as ([m x'] & -> & Hx). simpl.
    apply elem_of_map_to_list in Hx. apply lookup_delete_Some in Hx as [Hm Hx].
    by rewrite (Hother m x' ltac:(done) Hx). }
  split.
  - eexists. rewrite lookup_probs_of, HA. simpl. split; [done|].
    destruct (Qlt_le_dec _ _) as [Hpos|Hneg]; [|lra].
    rewrite HcA. simpl. rewrite HN. field.
  - intros n p Hn. rewrite lookup_probs_of.
    destruct (a1 !! n) as [s|]; simpl; [|done]. intros [= <-].
    destruct (Qlt_le_dec _ _) as [Hpos|Hneg]; [|done].
    destruct (new_edges_of a1 a2 !! n) as [c|] eqn:Hc; simpl; [|done].
    rewrite (Hother n c Hn Hc), HN. field.
Qed.

(** C5, as amended.  In a collection of two slices where the second is
    the first with one more edge, between a node [A] that had a neighbour
    and a node [B] that was absent or had no neighbour, the mapping
    returned has one entry, under the first slice's key, which gives 1 to
    [A] and 0 to every other node of the first slice; and the graph of the
    second slice ends with an attribute [attachment_probability] that is
    zero on each of its nodes. *)
Theorem attachment_single_new_edge C σ k1 G1 k2 G2 g1 g2 A B :
  well_formed C σ →
  graphs C = [(k1, G1); (k2, G2)] →
  σ !! G1 = Some g1 →
  σ !! G2 = Some g2 →
  adds_one_edge (adjacency g1) (adjacency g2) A B →
  (∃ d, g1 !! A = Some d ∧ 0 < size (nbrs d)) →
  default ∅ (adjacency g1 !! B) = ∅ →
  ∃ σ' pk pA,
    attachment_probability PyFloat C σ = (σ', inr {[k1 := pk]}) ∧
    dom pk = dom g1 ∧
    pk !! A = Some pA ∧ (pA == 1)%Q ∧
    (∀ n p, n ≠ A → pk !! n = Some p → (p == 0)%Q) ∧
    ∃ g2', σ' !! G2 = Some g2' ∧ dom g2' = dom g2 ∧
           ∀ n, n ∈ dom g2 →
                g2' !! n ≫= (λ d, attrs d !! "attachment_probability") = Some (PyFloat 0%Q).
Proof.
  intros Hwf HC Hg1 Hg2 Hadd (d & HA & Hsize) HB.
  destruct (attachment_last_slice_zero C σ k2 G2 g2 Hwf) as (σ' & g2' & Hrun & Hg2' & Hdom & Hz);
    [by rewrite HC|done|].
  assert (adjacency g1 !! A = Some (nbrs d)) as HaA.
  { unfold adjacency. by rewrite lookup_fmap, HA. }
  destruct (probs_one_edge (adjacency g1) (adjacency g2) A B (nbrs d) Hadd HaA Hsize HB)
    as [(pA & HpA & H1) Hother].
  exists σ', (probs_of (adjacency g1) (adjacency g2)), pA.
  split_and!; [|by rewrite dom_probs_of; unfold adjacency; rewrite dom_fmap_L|done..|].
  - rewrite Hrun, HC. simpl.
    by rewrite (adjacency_at_lookup σ G1 g1 Hg1), (adjacency_at_lookup σ G2 g2 Hg2).
  - by exists g2'.
Qed.

(** C6.  For two slices that follow one another in a well-formed
    collection, [new_edges] after the first inner loop has, for a node of
    both slices, the number of its neighbours that are new (the size of
    the set of its neighbours now less its neighbours before, as a float)
    when it had a neighbour before, and zero when it had none, whatever it
    gained; a node absent from the previous slice has no count, and no
    entry in the mapping returned for the previous slice, which is made of
    these counts for the nodes of the previous slice. *)
Theorem attachment_new_edge_accounting C σ (l1 l2 : list (key * objid)) k_ G_ k G g_ g :
  well_formed C σ →
  graphs C = (l1 ++ (k_, G_) :: (k, G) :: l2)%list →
  σ !! G_ = Some g_ →
  σ !! G = Some g →
  ∃ σ' probs pk,
    attachment_probability PyFloat C σ = (σ', inr probs) ∧
    probs !! k_ = Some pk ∧
    (∀ n d_ d, g_ !! n = Some d_ → g !! n = Some d → 0 < size (nbrs d_) →
       (new_edges_loop g_ g ∅).1 !! n
       = Some (inject_Z (Z.of_nat (size (nbrs d ∖ nbrs d_))))) ∧
    (∀ n d_ d, g_ !! n = Some d_ → g !! n = Some d → size (nbrs d_) = 0 →
       (new_edges_loop g_ g ∅).1 !! n = Some 0%Q) ∧
    (∀ n, g_ !! n = None → (new_edges_loop g_ g ∅).1 !! n = None ∧ pk !! n = None) ∧
    (∀ n, pk !! n =
          (λ _, if Qlt_le_dec 0 (py_sum (values (new_edges_loop g_ g ∅).1))
                then from_option (λ c, (c / py_sum (values (new_edges_loop g_ g ∅).1))%Q) 0%Q
                                 ((new_edges_loop g_ g ∅).1 !! n)
                else 0%Q) <$> g_ !! n).
Proof.
  intros Hwf Heq Hg_ Hg.
  destruct (attachment_probability_returns C σ Hwf) as [σ' Hrun].
  { rewrite Heq. by destruct l1. }
  exists σ', (probs_after σ None (graphs C) ∅),
         (probs_of (adjacency g_) (adjacency g)).
  rewrite new_edges_loop_spec. simpl.
  split_and!; [done| | | | |].
  - rewrite (probs_after_pair σ (graphs C) l1 l2 None ∅ k_ G_ k G (proj1 Hwf) Heq).
    by rewrite (adjacency_at_lookup σ G_ g_), (adjacency_at_lookup σ G g).
  - intros n d_ d Hd_ Hd Hsize. rewrite lookup_new_edges_of. unfold adjacency.
    rewrite !lookup_fmap, Hd_, Hd. simpl. by rewrite decide_True.
  - intros n d_ d Hd_ Hd Hsize. rewrite lookup_new_edges_of. unfold adjacency.
    rewrite !lookup_fmap, Hd_, Hd. simpl. rewrite decide_False; [done|lia].
  - intros n Hn. rewrite lookup_new_edges_of, lookup_probs_of. unfold adjacency.
    rewrite !lookup_fmap, Hn. simpl. split; [|done]. by destruct (g !! n).
  - intros n. rewrite lookup_probs_of.
    assert (adjacency g_ !! n = nbrs <$> g_ !! n) as -> by apply lookup_fmap.
    by destruct (g_ !! n).
Qed.

(** C10.  On a well-formed collection that is not empty,
    [attachment_probability] returns, and every value of the mapping it
    returns is between 0 and 1: it is exactly 0, or a count [c] divided by
    the sum [N] of the counts of a dictionary [new_edges] with [0 < N] and
    [0 <= c <= N]. *)
Theorem attachment_probabilities_bounded C σ :
  well_formed C σ →
  graphs C ≠ [] →
  ∃ σ' probs,
    attachment_probability PyFloat C σ = (σ', inr probs) ∧
    ∀ k pk n p, probs !! k = Some pk → pk !! n = Some p →
      (0 <= p)%Q ∧ (p <= 1)%Q ∧
      (p = 0%Q ∨
       ∃ (new_edges : gmap node Q) c,
         new_edges !! n = Some c ∧
         (0 < py_sum (values new_edges))%Q ∧
         (0 <= c)%Q ∧ (c <= py_sum (values new_edges))%Q ∧
         p = (c / py_sum (values new_edges))%Q).
Proof.
  intros Hwf Hne.
  destruct (attachment_probability_returns C σ Hwf Hne) as [σ' Hrun].
  exists σ', (probs_after σ None (graphs C) ∅). split; [done|].
  intros k pk n p Hpk Hp.
  apply probs_after_entry in Hpk as [Hpk|(G_ & G & ->)]; [by rewrite lookup_empty in Hpk|].
  destruct (probs_of_bounds _ _ n p Hp) as [H0 H1]. split_and!; [done..|].
  rewrite lookup_probs_of in Hp.
  destruct (adjacency_at σ G_ !! n) as [s_|]; simpl in Hp; [|done]. injection Hp as <-.
  destruct (Qlt_le_dec _ _) as [HN|HN]; [|by left].
  destruct (new_edges_of (adjacency_at σ G_) (adjacency_at σ G) !! n) as [c|] eqn:Hc;
    simpl; [|by left].
  right. exists (new_edges_of (adjacency_at σ G_) (adjacency_at σ G)), c.
  split_and!; [done..|by apply (new_edges_of_nonneg _ _ n c Hc)|
               by apply (new_edges_of_le_sum _ _ n c Hc)|done].
Qed.

End AttachmentClaims.

(** *** [attachment_probability] on the examples *)

Lemma pendant_well_formed : well_formed two_slices pendant_store.
Proof.
  split; [compute_done|]. intros k G Hin. in_cases Hin; by eexists.
Qed.

Lemma attachment_single_new_edge_witness :
  ∃ σ' pk pA,
    attachment_probability PyNum two_slices pendant_store = (σ', inr {[2000%Z := pk]}) ∧
    dom pk = dom (path_x 1 2 3) ∧
    pk !! "A" = Some pA ∧ (pA == 1)%Q ∧
    (∀ n p, n ≠ "A" → pk !! n = Some p → (p == 0)%Q) ∧
    ∃ g2', σ' !! 1%nat = Some g2' ∧ dom g2' = dom (add_edge "A" "D" (path_x 1 2 3)) ∧
           ∀ n, n ∈ dom (add_edge "A" "D" (path_x 1 2 3)) →
                g2' !! n ≫= (λ d, attrs d !! "attachment_probability") = Some (PyNum 0%Q).
Proof.
  apply (attachment_single_new_edge PyNum two_slices pendant_store 2000%Z 0%nat 2001%Z 1%nat
           (path_x 1 2 3) (add_edge "A" "D" (path_x 1 2 3)) "A" "D").
  - apply pendant_well_formed.
  - reflexivity.
  - reflexivity.
  - reflexivity.
  - split_and!; [done|compute_done|vm_compute; reflexivity].
  - eexists. split; [reflexivity|]. vm_compute. lia.
  - reflexivity.
Defined.

(** C5 as stated fails: the second slice is the path A-B-C with the one
    new edge A-C; A had a neighbour, and so had C, which gets half of the
    probability, as A does. *)
Lemma attachment_new_edge_shared :
  adds_one_edge (adjacency (path_x 1 2 3)) (adjacency (add_edge "A" "C" (path_x 1 2 3)))
                "A" "C" ∧
  0 < size (default ∅ (adjacency (path_x 1 2 3) !! "A")) ∧
  probability_of (attachment_probability PyNum two_slices triangle_store) 2000%Z "A"
    = Some (1 # 2)%Q ∧
  ¬ (1 # 2 == 1)%Q ∧
  probability_of (attachment_probability PyNum two_slices triangle_store) 2000%Z "C"
    = Some (1 # 2)%Q ∧
  ¬ (1 # 2 == 0)%Q.
Proof.
  split_and!.
  - split_and!; [done|compute_done|vm_compute; reflexivity].
  - vm_compute. lia.
  - vm_compute. reflexivity.
  - done.
  - vm_compute. reflexivity.
  - done.
Qed.

Lemma fan_well_formed : well_formed two_slices fan_store.
Proof.
  split; [compute_done|]. intros k G Hin. in_cases Hin; by eexists.
Qed.

Lemma attachment_new_edge_accounting_witness :
  ∃ σ' probs pk,
    attachment_probability PyNum two_slices fan_store = (σ', inr probs) ∧
    probs !! 2000%Z = Some pk ∧
    (new_edges_loop fan_before fan_after ∅).1 !! "A" = Some 2%Q ∧
    (new_edges_loop fan_before fan_after ∅).1 !! "B" = Some 1%Q ∧
    (new_edges_loop fan_before fan_after ∅).1 !! "E" = Some 0%Q ∧
    (new_edges_loop fan_before fan_after ∅).1 !! "D" = None ∧
    pk !! "D" = None ∧
    pk !! "A" = Some (2 / 4)%Q.
Proof.
  destruct (attachment_new_edge_accounting PyNum two_slices fan_store [] []
              2000%Z 0%nat 2001%Z 1%nat fan_before fan_after
              fan_well_formed eq_refl eq_refl eq_refl)
    as (σ' & probs & pk & Hrun & Hpk & Hnew & Hnone & Habsent & Hentry).
  exists σ', probs, pk. split_and!; [done..| | | | | |].
  - erewrite (Hnew "A"); [|vm_compute; reflexivity..|vm_compute; lia].
    vm_compute. reflexivity.
  - erewrite (Hnew "B"); [|vm_compute; reflexivity..|vm_compute; lia].
    vm_compute. reflexivity.
  - erewrite (Hnone "E"); [done|vm_compute; reflexivity..].
  - apply Habsent. reflexivity.
  - apply Habsent. reflexivity.
  - rewrite Hentry. vm_compute. reflexivity.
Defined.

Lemma attachment_probabilities_bounded_witness :
  ∃ σ' probs,
    attachment_probability PyNum two_slices triangle_store = (σ', inr probs) ∧
    ∀ k pk n p, probs !! k = Some pk → pk !! n = Some p →
      (0 <= p)%Q ∧ (p <= 1)%Q ∧
      (p = 0%Q ∨
       ∃ (new_edges : gmap node Q) c,
         new_edges !! n = Some c ∧
         (0 < py_sum (values new_edges))%Q ∧
         (0 <= c)%Q ∧ (c <= py_sum (values new_edges))%Q ∧
         p = (c / py_sum (values new_edges))%Q).
Proof.
  apply (attachment_probabilities_bounded PyNum two_slices triangle_store).
  - split; [compute_done|]. intros k G Hin. in_cases Hin; by eexists.
  - done.
Defined.

(** *** The scenario of the specification, computed *)

Example delta_on_the_scenario :
  (delta pyval_float Qminus 0%Q PyNum scenario "x" scenario_store).2 =
  inr (<[2000%Z := <["A" := 1%Q]> (<["B" := 2%Q]> (<["C" := 3%Q]> ∅))]>
       (<[2001%Z := <["A" := 1%Q]> (<["B" := 0%Q]> (<["C" := 2%Q]> ∅))]> ∅)).
Proof. vm_compute. reflexivity. Qed.

Example attachment_on_the_pendant :
  probability_of (attachment_probability PyNum two_slices pendant_store) 2000%Z "A" = Some 1%Q ∧
  probability_of (attachment_probability PyNum two_slices pendant_store) 2000%Z "B" = Some 0%Q ∧
  probability_of (attachment_probability PyNum two_slices pendant_store) 2000%Z "D" = None ∧
  probability_of (attachment_probability PyNum two_slices pendant_store) 2001%Z "A" = None.
Proof. split_and!; vm_compute; reflexivity. Qed.

(** * Further properties *)

(** ** What a computation leaves alone *)

Section Frames.
Context {pyobj : Type}.
Implicit Types (σ : Store pyobj) (g : Graph pyobj) (n : node) (G : objid).

Lemma for_each_preserves {S A B} (R : S → S → Prop)
    (l : list A) (body : A → B → M S B) (acc : B) (s s' : S) (r : exn + B) :
  (∀ s1, R s1 s1) →
  (∀ s1 s2 s3, R s1 s2 → R s2 s3 → R s1 s3) →
  (∀ x b s1 s2 r1, x ∈ l → body x b s1 = (s2, r1) → R s1 s2) →
  for_each l body acc s = (s', r) →
  R s s'.
Proof.
  intros Hrefl Htrans. revert acc s. induction l as [|x l IH]; intros acc s Hbody Hrun.
  - simpl in Hrun. unfold ret in Hrun. simplify_eq. apply Hrefl.
  - rewrite for_each_cons in Hrun.
    destruct (body x acc s) as [s1 [e|acc1]] eqn:Hx.
    + simplify_eq. eapply Hbody; [by left|done].
    + apply (Htrans _ s1); [eapply Hbody; [by left|done]|].
      eapply IH; [|done]. intros y b s2 s3 r1 Hy. apply Hbody. by right.
Qed.

Lemma same_structure_trans σ1 σ2 σ3 :
  same_structure σ1 σ2 → same_structure σ2 σ3 → same_structure σ1 σ3.
Proof. intros H12 H23 G. by rewrite H12. Qed.

Lemma writes_only_refl name σ : writes_only name σ σ.
Proof. split; [by intros G|]. intros name' _. apply same_attribute_refl. Qed.

Lemma writes_only_trans name σ1 σ2 σ3 :
  writes_only name σ1 σ2 → writes_only name σ2 σ3 → writes_only name σ1 σ3.
Proof.
  intros [Hs12 Ha12] [Hs23 Ha23]. split.
  - by eapply same_structure_trans.
  - intros name' Hne. eapply same_attribute_trans; [by apply Ha12|by apply Ha23].
Qed.

(** One assignment [G.node[n][name] = v]. *)
Lemma writes_only_set_attr name σ G g n d (v : pyobj) :
  σ !! G = Some g →
  g !! n = Some d →
  writes_only name σ (<[G := <[n := set_attr name v d]> g]> σ).
Proof.
  intros Hg Hd. split.
  - intros G'. destruct (decide (G' = G)) as [->|HG]; [|by rewrite lookup_insert_ne].
    rewrite lookup_insert_eq, Hg. simpl. f_equal. apply map_eq. intros m.
    unfold adjacency. rewrite !lookup_fmap.
    destruct (decide (m = n)) as [->|Hm]; [|by rewrite lookup_insert_ne].
    by rewrite lookup_insert_eq, Hd.
  - intros name' Hne G'. unfold node_attribute.
    destruct (decide (G' = G)) as [->|HG]; [|by rewrite lookup_insert_ne].
    rewrite lookup_insert_eq, Hg. split; [done|]. intros m. simpl.
    destruct (decide (m = n)) as [->|Hm]; [|by rewrite lookup_insert_ne].
    rewrite lookup_insert_eq, Hd. simpl. by rewrite lookup_insert_ne.
Qed.

(** Whatever it returns, [set_node_attributes] changes nothing but values
    of the attribute it is given, and nothing of another object. *)
Lemma set_node_attributes_frame G name (values : gmap node pyobj) σ σ' r :
  set_node_attributes G name values σ = (σ', r) →
  writes_only name σ σ' ∧ ∀ G', G' ≠ G → σ' !! G' = σ !! G'.
Proof.
  unfold set_node_attributes.
  apply (for_each_preserves
           (λ σ1 σ2, writes_only name σ1 σ2 ∧ ∀ G', G' ≠ G → σ2 !! G' = σ1 !! G')).
  - intros σ1. split; [apply writes_only_refl|done].
  - intros σ1 σ2 σ3 [H12 F12] [H23 F23]. split; [by eapply writes_only_trans|].
    intros G' HG'. by rewrite F23, F12.
  - intros [n v] b σ1 σ2 r1 _. unfold bind, deref.
    destruct (σ1 !! G) as [g|] eqn:Hg; [|intros [= <- _]; split; [apply writes_only_refl|done]].
    destruct (g !! n) as [d|] eqn:Hd; [|intros [= <- _]; split; [apply writes_only_refl|done]].
    unfold assign. intros [= <- _]. split; [by apply writes_only_set_attr|].
    intros G' HG'. by rewrite lookup_insert_ne.
Qed.

Lemma writes_only_well_formed name C σ σ' :
  writes_only name σ σ' → well_formed C σ → well_formed C σ'.
Proof.
  intros [Hs _] [Hnd Hstore]. split; [done|]. intros k G Hin.
  eapply same_structure_is_Some; [done|by eapply Hstore].
Qed.

End Frames.

(** ** [connected] and [node_global_closeness_centrality] *)

Section FlatLoops.
Context {pyobj kwargs : Type}.
Implicit Types (σ : Store pyobj) (C : GraphCollection) (kw : kwargs).

(** The loop stops at the first graph on which the function raises. *)
Lemma connected_loop_raises (f : @nx_connected_function pyobj kwargs) kw
    (l1 l2 : list (key * objid)) k G g e results σ :
  (∀ k' G', (k', G') ∈ l1 → ∃ g' v, σ !! G' = Some g' ∧ f kw g' = inr v) →
  σ !! G = Some g →
  f kw g = inl e →
  for_each (l1 ++ (k, G) :: l2)%list (connected_graph f kw) results σ = (σ, inl e).
Proof.
  revert results. induction l1 as [|[k1 G1] l1 IH]; intros results Hok Hg He.
  - simpl. unfold bind, connected_graph, bind, deref, lift. by rewrite Hg, He.
  - destruct (Hok k1 G1) as (g1 & v & Hg1 & Hv); [by left|].
    change (((k1, G1) :: l1) ++ (k, G) :: l2)%list with ((k1, G1) :: (l1 ++ (k, G) :: l2))%list.
    rewrite for_each_cons.
    assert (connected_graph f kw (k1, G1) results σ = (σ, inr (<[k1:=v]> results))) as ->.
    { unfold connected_graph, bind, deref, lift. by rewrite Hg1, Hv. }
    apply IH; [|done..]. intros k' G' Hin. apply (Hok k' G'). by right.
Qed.

(** X1.  [connected] stops at the first graph on which the function
    raises: the exception of that graph is the outcome of the call, the
    results for the graphs before it are lost, and the store is as it
    was. *)
Theorem connected_first_failure
    (nxc : gmap string (entry (@nx_connected_function pyobj kwargs))) C method kw
    (f : @nx_connected_function pyobj kwargs) (l1 l2 : list (key * objid)) k G g e σ :
  nxc !! method = Some (PlainFunction f) →
  graphs C = (l1 ++ (k, G) :: l2)%list →
  (∀ k' G', (k', G') ∈ l1 → ∃ g' v, σ !! G' = Some g' ∧ f kw g' = inr v) →
  σ !! G = Some g →
  f kw g = inl e →
  connected nxc C method kw σ = (σ, inl e).
Proof.
  intros Hf HC Hok Hg He. unfold connected. rewrite Hf, HC.
  by apply (connected_loop_raises f kw l1 l2 k G g e).
Qed.

End FlatLoops.

Section Closeness.
Context {pyobj : Type}.
Implicit Types (σ : Store pyobj) (C : GraphCollection) (n : node).

Lemma closeness_as_connected (closeness : @closeness_function pyobj) C n :
  node_global_closeness_centrality closeness C n =
  for_each (graphs C) (connected_graph (kwargs:=node) (λ n g, closeness g n) n) ∅.
Proof. reflexivity. Qed.

(** X2.  [node_global_closeness_centrality] never changes the store; when
    the centrality function returns on every graph, the result maps
    exactly the collection's keys, each to the value returned for that
    key's graph and the given node; and when the function raises on a
    graph, and returned on those before it, the call raises the same. *)
Theorem node_global_closeness_centrality_flat (closeness : @closeness_function pyobj) C n σ :
  (node_global_closeness_centrality closeness C n σ).1 = σ ∧
  (NoDup (graphs C).*1 →
   (∀ k G, (k, G) ∈ graphs C → ∃ g v, σ !! G = Some g ∧ closeness g n = inr v) →
   ∃ results,
     node_global_closeness_centrality closeness C n σ = (σ, inr results) ∧
     dom results = list_to_set (graphs C).*1 ∧
     ∀ k G g, (k, G) ∈ graphs C → σ !! G = Some g →
              inr <$> results !! k = Some (closeness g n)) ∧
  (∀ (l1 l2 : list (key * objid)) k G g e,
     graphs C = (l1 ++ (k, G) :: l2)%list →
     (∀ k' G', (k', G') ∈ l1 → ∃ g' v, σ !! G' = Some g' ∧ closeness g' n = inr v) →
     σ !! G = Some g →
     closeness g n = inl e →
     node_global_closeness_centrality closeness C n σ = (σ, inl e)).
Proof.
  rewrite closeness_as_connected. split_and!.
  - apply connected_loop_store.
  - intros Hnd Hok.
    destruct (connected_loop_ok (kwargs:=node) (λ n g, closeness g n) n (graphs C) ∅ σ Hnd Hok)
      as (res & Hrun & Hout & Hval).
    exists res. split_and!; [done| |done].
    apply set_eq. intros k. rewrite elem_of_list_to_set, elem_of_dom. split.
    + intros Hk. destruct (decide (k ∈ (graphs C).*1)) as [|Hnot]; [done|].
      rewrite (Hout k Hnot), lookup_empty in Hk. by destruct Hk.
    + intros Hk. apply list_elem_of_fmap in Hk as ([k' G] & -> & Hin).
      destruct (Hok k' G Hin) as (g & v & Hg & Hv).
      pose proof (Hval k' G g Hin Hg) as Hlk. simpl.
      destruct (res !! k'); [done|]. inversion Hlk.
  - intros l1 l2 k G g e HC Hok Hg He. rewrite HC.
    by apply (connected_loop_raises (kwargs:=node) (λ n g, closeness g n) n l1 l2 k G g e).
Qed.

End Closeness.

Lemma connected_first_failure_witness :
  connected example_nx_connected two_slices "is_connected" tt null_store =
  (null_store, inl (LibraryError "Connectivity is undefined for the null graph.")).
Proof.
  apply (connected_first_failure example_nx_connected two_slices "is_connected" tt
           nx_is_connected [(2000%Z, 0%nat)] [] 2001%Z 1%nat ∅).
  - reflexivity.
  - reflexivity.
  - intros k G Hin. in_cases Hin. eexists _, _. split; reflexivity.
  - reflexivity.
  - reflexivity.
Defined.

Lemma node_global_closeness_centrality_flat_witness :
  (∃ results,
     node_global_closeness_centrality example_closeness scenario "B" scenario_store
       = (scenario_store, inr results) ∧
     dom results = list_to_set (graphs scenario).*1 ∧
     ∀ k G g, (k, G) ∈ graphs scenario → scenario_store !! G = Some g →
              inr <$> results !! k = Some (example_closeness g "B")) ∧
  node_global_closeness_centrality example_closeness two_slices "B" null_store
    = (null_store, inl (LibraryError "The node is not in the graph.")).
Proof.
  split.
  - apply (node_global_closeness_centrality_flat example_closeness scenario "B" scenario_store).
    + compute_done.
    + intros k G Hin. in_cases Hin; eexists _, _; split; reflexivity.
  - destruct (node_global_closeness_centrality_flat example_closeness two_slices "B" null_store)
      as (_ & _ & Hfail).
    apply (Hfail [(2000%Z, 0%nat)] [] 2001%Z 1%nat ∅).
    + reflexivity.
    + intros k G Hin. in_cases Hin. eexists _, _. split; reflexivity.
    + reflexivity.
    + reflexivity.
Defined.

(** ** [algorithm]: what it leaves alone, and how it fails *)

Section AlgorithmFurther.
Context {pyobj kwargs : Type}.
Implicit Types (σ : Store pyobj) (C : GraphCollection) (kw : kwargs).
Implicit Types (g : Graph pyobj) (G : objid).

Lemma for_each_app_raises {S A B} (l1 l2 : list A) (x : A) (body : A → B → M S B)
    (acc acc1 : B) (s s1 s2 : S) (e : exn) :
  for_each l1 body acc s = (s1, inr acc1) →
  body x acc1 s1 = (s2, inl e) →
  for_each (l1 ++ x :: l2)%list body acc s = (s2, inl e).
Proof.
  intros H1 Hx. rewrite for_each_app. unfold bind. rewrite H1, for_each_cons. by rewrite Hx.
Qed.

(** A key that is not a node makes [set_node_attributes] raise. *)
Lemma set_attrs_loop_KeyError G name (l : list (node * pyobj)) σ g n :
  σ !! G = Some g →
  n ∈ l.*1 →
  n ∉ dom g →
  ∃ σ',
    for_each l
      (λ '(n, value) _,
         g <- deref G ;;
         match g !! n with
         | None => raise KeyError
         | Some d => assign G (<[n := set_attr name value d]> g)
         end) tt σ = (σ', inl KeyError).
Proof.
  revert σ g. induction l as [|[m v] l IH]; intros σ g Hg Hin Hn.
  - by apply elem_of_nil in Hin.
  - rewrite for_each_cons. unfold bind at 1. unfold deref at 1. rewrite Hg.
    destruct (g !! m) as [d|] eqn:Hm.
    + unfold assign. simpl in Hin. apply elem_of_cons in Hin as [->|Hin].
      { destruct Hn. apply elem_of_dom. by exists d. }
      apply (IH _ (<[m:=set_attr name v d]> g)); [by rewrite lookup_insert_eq|done|].
      rewrite dom_insert_L. intros [Heq%elem_of_singleton|?]%elem_of_union; [|done].
      subst. apply Hn, elem_of_dom. by exists d.
    + by exists σ.
Qed.

Lemma set_node_attributes_KeyError G name (values : gmap node pyobj) σ g n :
  σ !! G = Some g →
  n ∈ dom values →
  n ∉ dom g →
  ∃ σ', set_node_attributes G name values σ = (σ', inl KeyError).
Proof.
  intros Hg Hin Hn. unfold set_node_attributes.
  apply (set_attrs_loop_KeyError G name _ σ g n Hg); [|done].
  apply elem_of_dom in Hin as [v Hv]. apply list_elem_of_fmap. exists (n, v).
  split; [done|]. by apply elem_of_map_to_list.
Qed.

(** X3.  When the method names nothing, or something that is no plain
    function, or a function that only reads the graph, then, whatever
    [algorithm] returns or raises, the store it leaves has the same
    objects, nodes and edges, and the same values of every node attribute
    but the one named after the method; and an object that is not a graph
    of the collection is as it was. *)
Theorem algorithm_writes_only_method
    (nx : gmap string (entry (@nx_function pyobj kwargs))) C method kw σ :
  (∀ F, nx !! method = Some (PlainFunction F) → ∃ f, F = read_only f) →
  writes_only method σ (algorithm nx C method kw σ).1 ∧
  ∀ G, G ∉ (graphs C).*2 → (algorithm nx C method kw σ).1 !! G = σ !! G.
Proof.
  intros Hreads. unfold algorithm. destruct (nx !! method) as [[F|]|]; simpl;
    [|split; [apply writes_only_refl|done]..].
  destruct (Hreads F eq_refl) as [f ->].
  destruct (for_each (graphs C) (algorithm_graph (read_only f) method kw) ∅ σ)
    as [σ' r] eqn:Hrun.
  simpl. revert Hrun.
  apply (for_each_preserves
           (λ σ1 σ2, writes_only method σ1 σ2 ∧
                     ∀ G, G ∉ (graphs C).*2 → σ2 !! G = σ1 !! G)).
  - intros σ1. split; [apply writes_only_refl|done].
  - intros σ1 σ2 σ3 [H12 F12] [H23 F23]. split; [by eapply writes_only_trans|].
    intros G HG. by rewrite F23, F12.
  - intros [k G] res σ1 σ2 r1 Hin. unfold algorithm_graph, read_only, bind, deref, lift.
    destruct (σ1 !! G) as [g|]; [|intros [= <- _]; split; [apply writes_only_refl|done]].
    destruct (f kw g) as [e|res1]; simpl;
      [intros [= <- _]; split; [apply writes_only_refl|done]|].
    destruct (set_node_attributes G method res1 σ1) as [σ3 r3] eqn:Hset.
    apply set_node_attributes_frame in Hset as [Hw Hother].
    intros Heq. assert (σ2 = σ3) as ->.
    { destruct r3; unfold ret in Heq; congruence. }
    split; [done|]. intros G' HG'. apply Hother. intros ->. apply HG'.
    apply list_elem_of_fmap. by exists (k, G).
Qed.

(** What [algorithm] has done when it reaches a graph, the function
    having returned node-keyed results on the graphs before it. *)
Lemma algorithm_prefix (f : @graph_measure pyobj kwargs) method kw
    (l1 : list (key * objid)) k G g σ :
  NoDup (l1 ++ [(k, G)])%list.*2 →
  (∀ k' G', (k', G') ∈ l1 → ∃ g' r', σ !! G' = Some g' ∧ f kw g' = inr r' ∧ dom r' ⊆ dom g') →
  σ !! G = Some g →
  ∃ σ1 results1,
    for_each l1 (algorithm_graph (read_only f) method kw) ∅ σ = (σ1, inr results1) ∧
    σ1 !! G = Some g ∧
    (∀ G', G' ∉ l1.*2 → σ1 !! G' = σ !! G') ∧
    (∀ k' G' g', (k', G') ∈ l1 → σ !! G' = Some g' →
                 σ1 !! G' = Some (write_attrs method (raw_result f kw σ G') g')).
Proof.
  intros Hnd Hok Hg. rewrite fmap_app in Hnd. apply NoDup_app in Hnd as (Hnd1 & Hdisj & _).
  destruct (algorithm_loop f method kw l1 σ ∅ Hnd1 Hok) as (σ1 & Hrun & Hframe & Hwritten).
  assert (G ∉ l1.*2) as HG.
  { intros Hin. apply (Hdisj G Hin). simpl. by left. }
  exists σ1. eexists. split_and!; [done|by rewrite Hframe|done..].
Qed.

(** X4.  [algorithm] is not atomic: when a function that only reads the
    graph raises on a graph, having returned node-keyed results on the
    graphs before it (distinct objects), the call raises the same
    exception, the merged results are lost, and the graphs before it
    already carry the attribute named after the method; every other
    object is as it was. *)
Theorem algorithm_partial_write_back
    (nx : gmap string (entry (@nx_function pyobj kwargs))) C method kw
    (f : @graph_measure pyobj kwargs) (l1 l2 : list (key * objid)) k G g e σ :
  nx !! method = Some (PlainFunction (read_only f)) →
  graphs C = (l1 ++ (k, G) :: l2)%list →
  NoDup (l1 ++ [(k, G)])%list.*2 →
  (∀ k' G', (k', G') ∈ l1 → ∃ g' r', σ !! G' = Some g' ∧ f kw g' = inr r' ∧ dom r' ⊆ dom g') →
  σ !! G = Some g →
  f kw g = inl e →
  ∃ σ',
    algorithm nx C method kw σ = (σ', inl e) ∧
    (∀ k' G' g' r', (k', G') ∈ l1 → σ !! G' = Some g' → f kw g' = inr r' →
                    ∃ g1, σ' !! G' = Some g1 ∧ dom g1 = dom g' ∧
                          ∀ n v, r' !! n = Some v →
                                 g1 !! n ≫= (λ d, attrs d !! method) = Some v) ∧
    (∀ G', G' ∉ l1.*2 → σ' !! G' = σ !! G').
Proof.
  intros Hf HC Hnd Hok Hg He.
  destruct (algorithm_prefix f method kw l1 k G g σ Hnd Hok Hg)
    as (σ1 & results1 & Hrun & Hg1 & Hframe & Hwritten).
  exists σ1. split_and!; [|intros k' G' g' r' Hin Hg' Hr'|done].
  - unfold algorithm. rewrite Hf, HC.
    apply (for_each_app_raises _ _ _ _ _ results1 _ σ1); [done|].
    unfold algorithm_graph, read_only, bind, deref, lift. by rewrite Hg1, He.
  - exists (write_attrs method r' g'). split_and!.
    + rewrite (Hwritten k' G' g' Hin Hg'). unfold raw_result. by rewrite Hg', Hr'.
    + apply dom_write_attrs.
    + intros n v Hv. rewrite attrs_write_attrs, decide_True by done.
      destruct (Hok k' G' Hin) as (g2 & r2 & Hg2 & Hr2 & Hsub).
      assert (g2 = g') as -> by congruence. assert (r2 = r') as -> by congruence.
      assert (is_Some (g' !! n)) as [d Hd].
      { apply elem_of_dom, Hsub, elem_of_dom. by exists v. }
      by rewrite Hd, Hv.
Qed.

(** X5.  When the result of the function on a graph has a key that is not
    a node of this graph (an edge, for a function that returns a value
    per edge), the write-back raises [KeyError] and the call fails with
    it, the merged results being lost. *)
Theorem algorithm_key_not_a_node
    (nx : gmap string (entry (@nx_function pyobj kwargs))) C method kw
    (f : @graph_measure pyobj kwargs) (l1 l2 : list (key * objid)) k G g r elem σ :
  nx !! method = Some (PlainFunction (read_only f)) →
  graphs C = (l1 ++ (k, G) :: l2)%list →
  NoDup (l1 ++ [(k, G)])%list.*2 →
  (∀ k' G', (k', G') ∈ l1 → ∃ g' r', σ !! G' = Some g' ∧ f kw g' = inr r' ∧ dom r' ⊆ dom g') →
  σ !! G = Some g →
  f kw g = inr r →
  elem ∈ dom r →
  elem ∉ dom g →
  ∃ σ', algorithm nx C method kw σ = (σ', inl KeyError).
Proof.
  intros Hf HC Hnd Hok Hg Hr Hin Hout.
  destruct (algorithm_prefix f method kw l1 k G g σ Hnd Hok Hg)
    as (σ1 & results1 & Hrun & Hg1 & _).
  destruct (set_node_attributes_KeyError G method r σ1 g elem Hg1 Hin Hout) as [σ2 Hset].
  exists σ2. unfold algorithm. rewrite Hf, HC.
  apply (for_each_app_raises _ _ _ _ _ results1 _ σ1); [done|].
  unfold algorithm_graph, read_only, bind, deref, lift. rewrite Hg1, Hr. simpl.
  by rewrite Hset.
Qed.

End AlgorithmFurther.

Lemma algorithm_writes_only_method_witness :
  writes_only "degree" scenario_store
              (algorithm example_nx scenario "degree" None scenario_store).1 ∧
  ∀ G, G ∉ (graphs scenario).*2 →
       (algorithm example_nx scenario "degree" None scenario_store).1 !! G
       = scenario_store !! G.
Proof.
  apply (algorithm_writes_only_method example_nx scenario "degree" None scenario_store).
  intros F HF. exists nx_degree. unfold example_nx in HF.
  rewrite lookup_insert_eq in HF. by injection HF as <-.
Defined.

(** A function that writes the graph keeps what it wrote: asked for as
    the method, [set_node_attributes] writes the attribute [foo] on the
    first graph before line 67 raises on its return value. *)
Example algorithm_runs_a_writing_function :
  let run := algorithm writing_nx two_slices "set_node_attributes"
               ("foo", {["A" := PyNum 1]}) pendant_store in
  run.2 = inl AttributeError ∧
  node_attribute pendant_store 0%nat "A" "foo" = None ∧
  node_attribute run.1 0%nat "A" "foo" = Some (PyNum 1).
Proof. split_and!; vm_compute; reflexivity. Qed.

Lemma algorithm_partial_write_back_witness :
  ∃ σ',
    algorithm more_nx two_slices "degree_centrality" tt lonely_store
      = (σ', inl (LibraryError "float division by zero")) ∧
    (∃ g1, σ' !! 0%nat = Some g1 ∧ dom g1 = dom (path_x 1 2 3) ∧
           g1 !! "A" ≫= (λ d, attrs d !! "degree_centrality") = Some (PyNum (1 # 2))) ∧
    σ' !! 1%nat = lonely_store !! 1%nat.
Proof.
  destruct (algorithm_partial_write_back more_nx two_slices "degree_centrality" tt
              nx_degree_centrality [(2000%Z, 0%nat)] [] 2001%Z 1%nat
              (make_graph [("A", ∅)] []) (LibraryError "float division by zero") lonely_store)
    as (σ' & Hrun & Hwritten & Hframe).
  - reflexivity.
  - reflexivity.
  - compute_done.
  - intros k G Hin. in_cases Hin. eexists _, _. split_and!; [reflexivity..|compute_done].
  - reflexivity.
  - reflexivity.
  - exists σ'. split_and!; [done| |apply Hframe; compute_done].
    edestruct (Hwritten 2000%Z 0%nat (path_x 1 2 3))
      as (g1 & Hg1 & Hdom & Hval); [by left|reflexivity|reflexivity|].
    exists g1. split_and!; [done..|]. apply Hval. vm_compute. reflexivity.
Defined.

Lemma algorithm_key_not_a_node_witness :
  ∃ σ', algorithm more_nx two_slices "edge_ones" tt pendant_store = (σ', inl KeyError).
Proof.
  eapply (algorithm_key_not_a_node more_nx two_slices "edge_ones" tt nx_edge_ones
            [] [(2001%Z, 1%nat)] 2000%Z 0%nat (path_x 1 2 3) _ "A-B" pendant_store).
  - reflexivity.
  - reflexivity.
  - compute_done.
  - intros k G Hin. in_cases Hin.
  - reflexivity.
  - reflexivity.
  - compute_done.
  - compute_done.
Defined.

(** ** [delta]: what it writes, and what it leaves alone *)

Section DeltaFurther.
Context {pyobj F : Type}.
Context (py_float : pyobj → exn + F) (fsub : F → F → F) (fzero : F).
Context (PyFloat : F → pyobj).
Implicit Types (σ : Store pyobj) (C : GraphCollection) (s : delta_locals F).
Implicit Types (n : node) (k : key) (g : Graph pyobj) (G : objid).

(** When [set_node_attributes] returns, every key was a node, and the
    graph holds what [write_attrs] says. *)
Lemma set_node_attributes_inv G name (values : gmap node pyobj) σ σ' g :
  σ !! G = Some g →
  set_node_attributes G name values σ = (σ', inr tt) →
  dom values ⊆ dom g ∧ σ' = <[G := write_attrs name values g]> σ.
Proof.
  intros Hg Hrun. destruct (decide (dom values ∖ dom g = ∅)) as [Hsub|Hnot].
  - assert (dom values ⊆ dom g) as Hdom.
    { intros n Hn. destruct (decide (n ∈ dom g)) as [|Hout]; [done|].
      assert (n ∈ dom values ∖ dom g) as Hin by (by apply elem_of_difference).
      rewrite Hsub in Hin. by apply elem_of_empty in Hin. }
    split; [done|]. rewrite (set_node_attributes_ok G name values σ g Hg Hdom) in Hrun.
    congruence.
  - apply set_choose_L in Hnot as [n [Hin Hout]%elem_of_difference].
    destruct (set_node_attributes_KeyError G name values σ g n Hg Hin Hout) as [σ2 Hfail].
    congruence.
Qed.

(** What a slice that runs through does to the store. *)
Lemma delta_slice_store C attribute (all_nodes : list node) k s s' σ σ' :
  delta_slice py_float fsub fzero PyFloat C attribute all_nodes k s σ = (σ', inr s') →
  ∃ G g dk,
    graphs_lookup C k = Some G ∧ σ !! G = Some g ∧ deltas s' !! k = Some dk ∧
    dom dk ⊆ dom g ∧
    σ' = <[G := write_attrs (attribute ++ "_delta") (PyFloat <$> dk) g]> σ ∧
    for_each all_nodes
      (λ n _, try_except_KeyError
                (delta_try py_float fsub fzero (list_to_map (graph_nodes_data g))
                           attribute k n)) tt s = (s', inr tt).
Proof.
  intros Hrun.
  destruct (graphs_lookup C k) as [G|] eqn:HG.
  2:{ unfold delta_slice, collection_getitem, bind in Hrun. by rewrite HG in Hrun. }
  destruct (σ !! G) as [g|] eqn:Hg.
  2:{ unfold delta_slice, collection_getitem, bind, deref in Hrun.
      rewrite HG in Hrun. simpl in Hrun. by rewrite Hg in Hrun. }
  rewrite (delta_slice_unfold py_float fsub fzero PyFloat C attribute all_nodes k s σ G g HG Hg)
    in Hrun.
  destruct (for_each _ _ _ _) as [s1 [e|[]]] eqn:Hloop; [done|].
  destruct (deltas s1 !! k) as [dk|] eqn:Hdk; [|done].
  destruct (set_node_attributes _ _ _ _) as [σ1 [e|[]]] eqn:Hset; [done|].
  simplify_eq.
  destruct (set_node_attributes_inv G _ _ σ σ' g Hg Hset) as [Hdom ->].
  rewrite dom_fmap_L in Hdom. by exists G, g, dk.
Qed.

(** One slice changes nothing but values of the derived attribute of
    the slice's graph. *)
Lemma delta_slice_frame C attribute (all_nodes : list node) k s σ1 σ2 r1 :
  delta_slice py_float fsub fzero PyFloat C attribute all_nodes k s σ1 = (σ2, r1) →
  writes_only (attribute ++ "_delta") σ1 σ2 ∧
  ∀ G, graphs_lookup C k ≠ Some G → σ2 !! G = σ1 !! G.
Proof.
  unfold delta_slice, collection_getitem, bind, deref, run_local.
  destruct (graphs_lookup C k) as [G|] eqn:HG; simpl;
    [|intros [= <- _]; split; [apply writes_only_refl|done]].
  destruct (σ1 !! G) as [g|];
    [|intros [= <- _]; split; [apply writes_only_refl|done]].
  destruct (for_each _ _ _ _) as [s1 [e|[]]];
    [intros [= <- _]; split; [apply writes_only_refl|done]|].
  simpl. destruct (deltas s1 !! k) as [dk|]; simpl;
    [|intros [= <- _]; split; [apply writes_only_refl|done]].
  destruct (set_node_attributes _ _ _ _) as [σ3 r3] eqn:Hset.
  apply set_node_attributes_frame in Hset as [Hw Hother].
  intros Heq. assert (σ2 = σ3) as ->.
  { destruct r3; unfold ret in Heq; congruence. }
  split; [done|]. intros G' HG'. apply Hother. intros ->. by apply HG'.
Qed.

Lemma delta_frame C attribute σ :
  writes_only (attribute ++ "_delta") σ
              (delta py_float fsub fzero PyFloat C attribute σ).1 ∧
  ∀ G, G ∉ (graphs C).*2 →
       (delta py_float fsub fzero PyFloat C attribute σ).1 !! G = σ !! G.
Proof.
  assert (∀ σ' r, delta_run py_float fsub fzero PyFloat C attribute σ = (σ', r) →
            writes_only (attribute ++ "_delta") σ σ' ∧
            ∀ G, G ∉ (graphs C).*2 → σ' !! G = σ !! G) as Hrun.
  { intros σ' r. unfold delta_run, collection_nodes, bind at 1. simpl.
    apply (for_each_preserves
             (λ σ1 σ2, writes_only (attribute ++ "_delta") σ1 σ2 ∧
                       ∀ G, G ∉ (graphs C).*2 → σ2 !! G = σ1 !! G)).
    - intros σ1. split; [apply writes_only_refl|done].
    - intros σ1 σ2 σ3 [H12 F12] [H23 F23]. split; [by eapply writes_only_trans|].
      intros G HG. by rewrite F23, F12.
    - intros k s σ1 σ2 r1 _ Hslice. apply delta_slice_frame in Hslice as [Hw Hother].
      split; [done|]. intros G HG. apply Hother. intros Hk. apply HG.
      apply list_elem_of_fmap. exists (k, G). split; [done|].
      by apply elem_of_list_to_map_2. }
  unfold delta, bind.
  destruct (delta_run py_float fsub fzero PyFloat C attribute σ) as [σ' [e|s']] eqn:Hd;
    simpl; by eapply Hrun.
Qed.

(** X6.  Whatever [delta] returns or raises, the store it leaves has the
    same objects, nodes and edges, and the same values of every node
    attribute but the derived one, [attribute + "_delta"]; and an object
    that is not a graph of the collection is as it was. *)
Theorem delta_writes_only_derived C attribute σ :
  writes_only (attribute ++ "_delta") σ
              (delta py_float fsub fzero PyFloat C attribute σ).1 ∧
  ∀ G, G ∉ (graphs C).*2 →
       (delta py_float fsub fzero PyFloat C attribute σ).1 !! G = σ !! G.
Proof. apply delta_frame. Qed.

End DeltaFurther.

(** ** What the results depend on *)

Section Simulation.
Context {pyobj : Type}.
Implicit Types (σ : Store pyobj) (g : Graph pyobj) (n : node) (G : objid).

Lemma for_each_ext {S A B} (l : list A) (body body' : A → B → M S B) (acc : B) (s : S) :
  (∀ x b t, x ∈ l → body x b t = body' x b t) →
  for_each l body acc s = for_each l body' acc s.
Proof.
  revert acc s. induction l as [|x l IH]; intros acc s Hbody; [done|].
  rewrite !for_each_cons, <-Hbody by left.
  destruct (body x acc s) as [t [e|b]]; [done|].
  apply IH. intros y b' t' Hy. apply Hbody. by right.
Qed.

(** Two runs of a loop from related states, with bodies that keep the
    states related and give the same results, give the same result. *)
Lemma for_each_sim {S A B} (R : S → S → Prop) (l : list A)
    (body body' : A → B → M S B) (acc : B) (s s1 : S) :
  R s s1 →
  (∀ x b t t1, x ∈ l → R t t1 →
     (body x b t).2 = (body' x b t1).2 ∧ R (body x b t).1 (body' x b t1).1) →
  (for_each l body acc s).2 = (for_each l body' acc s1).2 ∧
  R (for_each l body acc s).1 (for_each l body' acc s1).1.
Proof.
  revert acc s s1. induction l as [|x l IH]; intros acc s s1 HR Hbody; [done|].
  rewrite !for_each_cons.
  destruct (Hbody x acc s s1 ltac:(left) HR) as [Hres Hst].
  destruct (body x acc s) as [t [e|b]], (body' x acc s1) as [t1 [e1|b1]];
    simpl in *; simplify_eq; [done|].
  apply IH; [done|]. intros y b' t' t1' Hy. apply Hbody. by right.
Qed.

Lemma same_structure_sym σ σ1 : same_structure σ σ1 → same_structure σ1 σ.
Proof. intros H G. by rewrite H. Qed.

Lemma same_attribute_sym name σ σ1 :
  same_attribute name σ σ1 → same_attribute name σ1 σ.
Proof. intros H G. destruct (H G) as [Hs Ha]. split; [done|]. intros n. by rewrite Ha. Qed.

Lemma same_structure_dom σ σ1 G :
  same_structure σ σ1 → dom (default ∅ (σ !! G)) = dom (default ∅ (σ1 !! G)).
Proof.
  intros H. specialize (H G).
  destruct (σ !! G) as [g|], (σ1 !! G) as [g1|]; simpl in *; simplify_eq; [|done].
  apply (f_equal dom) in H. unfold adjacency in H. by rewrite !dom_fmap_L in H.
Qed.

Lemma same_structure_node_union C σ σ1 :
  same_structure σ σ1 → node_union C σ = node_union C σ1.
Proof.
  intros H. unfold node_union. f_equal. apply list_fmap_ext.
  intros i [k G] _. simpl. by apply same_structure_dom.
Qed.

(** [set_node_attributes] on a graph object: it returns when every key
    is a node, and raises [KeyError] otherwise. *)
Lemma set_node_attributes_cases G name (values : gmap node pyobj) σ g :
  σ !! G = Some g →
  (dom values ⊆ dom g ∧
   set_node_attributes G name values σ = (<[G := write_attrs name values g]> σ, inr tt)) ∨
  (¬ dom values ⊆ dom g ∧
   ∃ σ', set_node_attributes G name values σ = (σ', inl KeyError)).
Proof.
  intros Hg. destruct (decide (dom values ∖ dom g = ∅)) as [Hsub|Hnot].
  - assert (dom values ⊆ dom g) as Hdom.
    { intros n Hn. destruct (decide (n ∈ dom g)) as [|Hout]; [done|].
      assert (n ∈ dom values ∖ dom g) as Hin by (by apply elem_of_difference).
      rewrite Hsub in Hin. by apply elem_of_empty in Hin. }
    left. split; [done|]. by apply set_node_attributes_ok.
  - apply set_choose_L in Hnot as [n [Hin Hout]%elem_of_difference].
    right. split; [intros Hsub; by apply Hout, Hsub|].
    by eapply set_node_attributes_KeyError.
Qed.

(** The outcome of [set_node_attributes] depends on the nodes only. *)
Lemma set_node_attributes_sim G name (values : gmap node pyobj) σ σ1 :
  same_structure σ σ1 →
  (set_node_attributes G name values σ).2 = (set_node_attributes G name values σ1).2.
Proof.
  intros H. pose proof (same_structure_dom σ σ1 G H) as Hdom. specialize (H G).
  destruct (σ !! G) as [g|] eqn:Hg, (σ1 !! G) as [g1|] eqn:Hg1; simpl in *; simplify_eq.
  - destruct (set_node_attributes_cases G name values σ g Hg) as [[Hs ->]|[Hs [σ' ->]]],
      (set_node_attributes_cases G name values σ1 g1 Hg1) as [[Hs1 ->]|[Hs1 [σ1' ->]]];
      simpl; try done.
    + destruct Hs1. by rewrite <-Hdom.
    + destruct Hs. by rewrite Hdom.
  - unfold set_node_attributes. destruct (map_to_list values) as [|[n v] l]; [done|].
    rewrite !for_each_cons. unfold bind, deref. by rewrite Hg, Hg1.
Qed.

End Simulation.

Section DeltaDepends.
Context {pyobj F : Type}.
Context (py_float : pyobj → exn + F) (fsub : F → F → F) (fzero : F).
Context (PyFloat : F → pyobj).
Implicit Types (σ : Store pyobj) (C : GraphCollection) (s : delta_locals F).
Implicit Types (n : node) (k : key) (g : Graph pyobj) (G : objid).

(** Stores with the same structure and the same values of the attribute
    that [delta] reads. *)
Lemma delta_slice_sim C attribute (all_nodes : list node) k s σ σ1 :
  same_structure σ σ1 ∧ same_attribute attribute σ σ1 →
  (delta_slice py_float fsub fzero PyFloat C attribute all_nodes k s σ).2 =
  (delta_slice py_float fsub fzero PyFloat C attribute all_nodes k s σ1).2 ∧
  (same_structure
     (delta_slice py_float fsub fzero PyFloat C attribute all_nodes k s σ).1
     (delta_slice py_float fsub fzero PyFloat C attribute all_nodes k s σ1).1 ∧
   same_attribute attribute
     (delta_slice py_float fsub fzero PyFloat C attribute all_nodes k s σ).1
     (delta_slice py_float fsub fzero PyFloat C attribute all_nodes k s σ1).1).
Proof.
  intros [Hs Ha]. split.
  - unfold delta_slice, collection_getitem, bind, deref, run_local.
    destruct (graphs_lookup C k) as [G|]; simpl; [|done].
    pose proof (Hs G) as HsG. pose proof (proj2 (Ha G)) as HaG.
    unfold node_attribute in HaG.
    destruct (σ !! G) as [g|] eqn:Hg, (σ1 !! G) as [g1|] eqn:Hg1;
      simpl in HsG; [|done..].
    simpl in HaG.
    assert (for_each all_nodes
              (λ n _, try_except_KeyError
                 (delta_try py_float fsub fzero (list_to_map (graph_nodes_data g))
                            attribute k n)) tt s =
            for_each all_nodes
              (λ n _, try_except_KeyError
                 (delta_try py_float fsub fzero (list_to_map (graph_nodes_data g1))
                            attribute k n)) tt s) as ->.
    { apply for_each_ext. intros n [] t _. rewrite !delta_try_step, !asdict_lookup, HaG.
      unfold delta_node. by rewrite !asdict_lookup, HaG. }
    destruct (for_each _ _ _ _) as [s' [e|[]]]; simpl; [done|].
    destruct (deltas s' !! k) as [dk|]; simpl; [|done].
    pose proof (set_node_attributes_sim G (attribute ++ "_delta") (PyFloat <$> dk) σ σ1 Hs)
      as Hset.
    destruct (set_node_attributes _ _ _ σ) as [σ' [e|[]]],
             (set_node_attributes _ _ _ σ1) as [σ1' [e1|[]]]; simpl in *; by simplify_eq.
  - destruct (delta_slice py_float fsub fzero PyFloat C attribute all_nodes k s σ)
      as [σ' r] eqn:Hrun.
    destruct (delta_slice py_float fsub fzero PyFloat C attribute all_nodes k s σ1)
      as [σ1' r1] eqn:Hrun1.
    apply delta_slice_frame in Hrun as [[Hs' Ha'] _].
    apply delta_slice_frame in Hrun1 as [[Hs1' Ha1'] _]. simpl. split.
    + apply (same_structure_trans σ' σ σ1'); [by apply same_structure_sym|].
      by apply (same_structure_trans σ σ1 σ1').
    + pose proof (delta_attribute_fresh attribute) as Hne.
      apply (same_attribute_trans attribute σ' σ σ1');
        [apply same_attribute_sym, Ha'; by auto|].
      apply (same_attribute_trans attribute σ σ1 σ1'); [done|]. apply Ha1'. by auto.
Qed.

(** The outcome of [delta] depends on the nodes of the graphs and on the
    values of the attribute it reads, and on nothing else in the store. *)
Lemma delta_sim C attribute σ σ1 :
  same_structure σ σ1 →
  same_attribute attribute σ σ1 →
  (delta py_float fsub fzero PyFloat C attribute σ).2 =
  (delta py_float fsub fzero PyFloat C attribute σ1).2.
Proof.
  intros Hs Ha.
  assert ((delta_run py_float fsub fzero PyFloat C attribute σ).2 =
          (delta_run py_float fsub fzero PyFloat C attribute σ1).2) as Hrun.
  { unfold delta_run, collection_nodes, bind at 1 3. simpl.
    rewrite (same_structure_node_union C σ σ1 Hs).
    apply (for_each_sim (λ t t1, same_structure t t1 ∧ same_attribute attribute t t1));
      [done|].
    intros k s t t1 _. apply delta_slice_sim. }
  unfold delta, bind.
  destruct (delta_run py_float fsub fzero PyFloat C attribute σ) as [σ' [e|s']],
           (delta_run py_float fsub fzero PyFloat C attribute σ1) as [σ1' [e1|s1']];
    simpl in *; by simplify_eq.
Qed.

(** X7.  Running [delta] a second time gives what the first run gave,
    the same mapping or the same exception: the derived attribute that
    the first run wrote is not read by the second. *)
Theorem delta_rerun_same_result C attribute σ :
  (delta py_float fsub fzero PyFloat C attribute
         (delta py_float fsub fzero PyFloat C attribute σ).1).2 =
  (delta py_float fsub fzero PyFloat C attribute σ).2.
Proof.
  destruct (delta_frame py_float fsub fzero PyFloat C attribute σ) as [[Hs Ha] _].
  symmetry. apply delta_sim; [done|].
  apply Ha. pose proof (delta_attribute_fresh attribute). by auto.
Qed.

End DeltaDepends.

(** ** [attachment_probability]: what it writes, and what it depends on *)

Section AttachmentFurther.
Context {pyobj : Type}.
Context (PyFloat : Q → pyobj).
Implicit Types (σ : Store pyobj) (C : GraphCollection) (g : Graph pyobj).
Implicit Types (n : node) (k : key) (G : objid).

Lemma attachment_step_frame C (prev : key * objid) G probs σ σ' r :
  attachment_step PyFloat C prev G probs σ = (σ', r) →
  writes_only "attachment_probability" σ σ' ∧
  ∀ G', graphs_lookup C prev.1 ≠ Some G' → σ' !! G' = σ !! G'.
Proof.
  destruct prev as [k_ G_].
  unfold attachment_step, bind, deref, run_local, collection_nodes, get, ret, getitem, raise.
  destruct (σ !! G_) as [g_|];
    [|intros [= <- _]; split; [apply writes_only_refl|done]].
  destruct (σ !! G) as [g|];
    [|intros [= <- _]; split; [apply writes_only_refl|done]].
  destruct (new_edges_loop g_ g ∅) as [new_edges [e|[]]];
    [intros [= <- _]; split; [apply writes_only_refl|done]|].
  simpl.
  set (N := py_sum (values new_edges)).
  set (zeros := list_to_map ((λ n, (n, 0%Q)) <$> graph_nodes g_) : gmap node Q).
  assert (∀ (m : Store pyobj * (exn + (gmap node Q * unit))), m.1 = σ →
     match m with
     | (σ2, inr a) =>
         match (match graphs_lookup C k_ with
                | Some a0 => λ σ3, (σ3, inr a0)
                | None => λ σ3, (σ3, inl KeyError)
                end) σ2 with
         | (σ3, inr Gk) =>
             match set_node_attributes Gk "attachment_probability" (PyFloat <$> a.1) σ3 with
             | (σ4, inr _) => (σ4, inr (<[k_:=a.1]> probs))
             | (σ4, inl e) => (σ4, inl e)
             end
         | (σ3, inl e) => (σ3, inl e)
         end
     | (σ2, inl e) => (σ2, inl e)
     end = (σ', r) →
     writes_only "attachment_probability" σ σ' ∧
     ∀ G', graphs_lookup C k_ ≠ Some G' → σ' !! G' = σ !! G') as Hrest.
  { intros [σ2 [e|a]] Hm; simpl in Hm; subst σ2;
      [intros [= <- _]; split; [apply writes_only_refl|done]|].
    destruct (graphs_lookup C k_) as [Gk|] eqn:HGk;
      [|intros [= <- _]; split; [apply writes_only_refl|done]].
    destruct (set_node_attributes _ _ _ _) as [σ4 r4] eqn:Hset.
    apply set_node_attributes_frame in Hset as [Hw Hother].
    intros Heq. assert (σ' = σ4) as ->. { destruct r4; congruence. }
    split; [done|]. intros G' HG'. apply Hother. intros ->. by apply HG'. }
  apply Hrest. destruct (Qlt_le_dec 0 N); [|done].
  by destruct (for_each _ _ _ _) as [l' [e|a]].
Qed.

Lemma attachment_frame C σ :
  writes_only "attachment_probability" σ (attachment_probability PyFloat C σ).1 ∧
  ∀ G, G ∉ (graphs C).*2 → (attachment_probability PyFloat C σ).1 !! G = σ !! G.
Proof.
  assert (∀ σ' r, attachment_loop PyFloat C σ = (σ', r) →
            writes_only "attachment_probability" σ σ' ∧
            ∀ G, G ∉ (graphs C).*2 → σ' !! G = σ !! G) as Hloop.
  { intros σ' r. unfold attachment_loop.
    apply (for_each_preserves
             (λ σ1 σ2, writes_only "attachment_probability" σ1 σ2 ∧
                       ∀ G, G ∉ (graphs C).*2 → σ2 !! G = σ1 !! G)).
    - intros σ1. split; [apply writes_only_refl|done].
    - intros σ1 σ2 σ3 [H12 F12] [H23 F23]. split; [by eapply writes_only_trans|].
      intros G HG. by rewrite F23, F12.
    - intros [k G] [probs prev] σ1 σ2 r1 _. unfold attachment_iteration, bind.
      destruct prev as [p|].
      + destruct (attachment_step PyFloat C p G probs σ1) as [σ3 r3] eqn:Hstep.
        apply attachment_step_frame in Hstep as [Hw Hother].
        intros Heq. assert (σ2 = σ3) as ->.
        { destruct r3; unfold ret in Heq; congruence. }
        split; [done|]. intros G' HG'. apply Hother. intros Hp. apply HG'.
        apply list_elem_of_fmap. exists (p.1, G'). split; [done|].
        by apply elem_of_list_to_map_2.
      + unfold ret. intros [= <- _]. split; [apply writes_only_refl|done]. }
  unfold attachment_probability, bind.
  destruct (attachment_loop PyFloat C σ) as [σ1 [e|[probs prev]]] eqn:Hrun;
    simpl; [by eapply Hloop|].
  destruct (Hloop _ _ eq_refl) as [Hw Hother].
  destruct (item_minus1 (graphs C).*1) as [key|] eqn:Hlast; simpl; [|done].
  unfold getitem. destruct (graphs_lookup C key) as [G|] eqn:HG; simpl; [|done].
  unfold deref. destruct (σ1 !! G) as [g|]; simpl; [|done].
  destruct (set_node_attributes _ _ _ _) as [σ4 r4] eqn:Hset.
  apply set_node_attributes_frame in Hset as [Hw4 Hother4].
  destruct r4 as [e|[]]; simpl in *.
  - split; [by eapply writes_only_trans|]. intros G' HG'. rewrite Hother4, Hother; [done..|].
    intros ->. apply HG'. apply list_elem_of_fmap. exists (key, G). split; [done|].
    by apply elem_of_list_to_map_2.
  - split; [by eapply writes_only_trans|]. intros G' HG'. rewrite Hother4, Hother; [done..|].
    intros ->. apply HG'. apply list_elem_of_fmap. exists (key, G). split; [done|].
    by apply elem_of_list_to_map_2.
Qed.

(** X8.  Whatever [attachment_probability] returns or raises, the store
    it leaves has the same objects, nodes and edges, and the same values
    of every node attribute but [attachment_probability]; and an object
    that is not a graph of the collection is as it was. *)
Theorem attachment_writes_only_probability C σ :
  writes_only "attachment_probability" σ (attachment_probability PyFloat C σ).1 ∧
  ∀ G, G ∉ (graphs C).*2 → (attachment_probability PyFloat C σ).1 !! G = σ !! G.
Proof. apply attachment_frame. Qed.

End AttachmentFurther.

Section AttachmentDepends.
Context {pyobj : Type}.
Context (PyFloat : Q → pyobj).
Implicit Types (σ : Store pyobj) (C : GraphCollection) (g : Graph pyobj).
Implicit Types (n : node) (k : key) (G : objid).

Lemma adjacency_graph_nodes g g1 : adjacency g = adjacency g1 → graph_nodes g = graph_nodes g1.
Proof.
  intros H. unfold graph_nodes. f_equal. apply (f_equal dom) in H.
  unfold adjacency in H. by rewrite !dom_fmap_L in H.
Qed.

(** One iteration reads nothing of the store but nodes and edges. *)
Lemma attachment_step_sim C (prev : key * objid) G probs σ σ1 :
  same_structure σ σ1 →
  (attachment_step PyFloat C prev G probs σ).2 =
  (attachment_step PyFloat C prev G probs σ1).2 ∧
  same_structure (attachment_step PyFloat C prev G probs σ).1
                 (attachment_step PyFloat C prev G probs σ1).1.
Proof.
  intros Hs. split.
  - destruct prev as [k_ G_].
    unfold attachment_step, bind, deref, run_local, collection_nodes, get, ret, getitem, raise.
    pose proof (Hs G_) as HG_. pose proof (Hs G) as HG.
    destruct (σ !! G_) as [g_|], (σ1 !! G_) as [g1_|]; simpl in HG_; simplify_eq; [|done].
    destruct (σ !! G) as [g|], (σ1 !! G) as [g1|]; simpl in HG; simplify_eq; [|done].
    rewrite !new_edges_loop_spec. simpl.
    rewrite (same_structure_node_union C σ σ1 Hs), (adjacency_graph_nodes g_ g1_ HG_), HG_, HG.
    set (new_edges := new_edges_of (adjacency g1_) (adjacency g1)).
    set (N := py_sum (values new_edges)).
    set (zeros := list_to_map ((λ n, (n, 0%Q)) <$> graph_nodes g1_) : gmap node Q).
    assert (∀ (r : (gmap node Q + exn)),
      (match (match r with
              | inl l' => (σ, inr (l', tt))
              | inr e => (σ, @inl exn (gmap node Q * unit) e)
              end) with
       | (σ2, inr a) =>
           match (match graphs_lookup C k_ with
                  | Some a0 => λ σ3, (σ3, inr a0)
                  | None => λ σ3, (σ3, inl KeyError)
                  end) σ2 with
           | (σ3, inr Gk) =>
               match set_node_attributes Gk "attachment_probability" (PyFloat <$> a.1) σ3 with
               | (σ4, inr _) => (σ4, inr (<[k_:=a.1]> probs))
               | (σ4, inl e) => (σ4, inl e)
               end
           | (σ3, inl e) => (σ3, inl e)
           end
       | (σ2, inl e) => (σ2, inl e)
       end).2 =
      (match (match r with
              | inl l' => (σ1, inr (l', tt))
              | inr e => (σ1, @inl exn (gmap node Q * unit) e)
              end) with
       | (σ2, inr a) =>
           match (match graphs_lookup C k_ with
                  | Some a0 => λ σ3, (σ3, inr a0)
                  | None => λ σ3, (σ3, inl KeyError)
                  end) σ2 with
           | (σ3, inr Gk) =>
               match set_node_attributes Gk "attachment_probability" (PyFloat <$> a.1) σ3 with
               | (σ4, inr _) => (σ4, inr (<[k_:=a.1]> probs))
               | (σ4, inl e) => (σ4, inl e)
               end
           | (σ3, inl e) => (σ3, inl e)
           end
       | (σ2, inl e) => (σ2, inl e)
       end).2) as Hrest.
    { intros [l'|e]; [|done]. simpl.
      destruct (graphs_lookup C k_) as [Gk|]; [|done].
      pose proof (set_node_attributes_sim Gk "attachment_probability" (PyFloat <$> l') σ σ1 Hs)
        as Hset.
      destruct (set_node_attributes _ _ _ σ) as [σ' [e|[]]],
               (set_node_attributes _ _ _ σ1) as [σ1' [e1|[]]]; simpl in *; by simplify_eq. }
    destruct (Qlt_le_dec 0 N).
    + destruct (for_each _ _ _ _) as [l' [e|[]]].
      * apply (Hrest (inr e)).
      * apply (Hrest (inl l')).
    + apply (Hrest (inl zeros)).
  - destruct (attachment_step PyFloat C prev G probs σ) as [σ' r] eqn:Hrun.
    destruct (attachment_step PyFloat C prev G probs σ1) as [σ1' r1] eqn:Hrun1.
    apply attachment_step_frame in Hrun as [[Hs' _] _].
    apply attachment_step_frame in Hrun1 as [[Hs1' _] _]. simpl.
    apply (same_structure_trans σ' σ σ1'); [by apply same_structure_sym|].
    by apply (same_structure_trans σ σ1 σ1').
Qed.

(** The outcome of [attachment_probability] depends on the nodes and
    edges of the graphs, and on nothing else in the store. *)
Lemma attachment_sim C σ σ1 :
  same_structure σ σ1 →
  (attachment_probability PyFloat C σ).2 = (attachment_probability PyFloat C σ1).2.
Proof.
  intros Hs.
  destruct (for_each_sim same_structure (graphs C)
              (attachment_iteration PyFloat C) (attachment_iteration PyFloat C)
              (∅, None) σ σ1 Hs) as [Hres Hst].
  { intros [k G] [probs prev] t t1 _ Ht. unfold attachment_iteration, bind.
    destruct prev as [p|]; [|done].
    destruct (attachment_step_sim C p G probs t t1 Ht) as [Hres Hst].
    destruct (attachment_step PyFloat C p G probs t) as [t' [e|a]],
             (attachment_step PyFloat C p G probs t1) as [t1' [e1|a1]];
      simpl in *; by simplify_eq. }
  unfold attachment_probability, bind. fold (attachment_loop PyFloat C) in Hres, Hst.
  destruct (attachment_loop PyFloat C σ) as [σ' [e|[probs prev]]],
           (attachment_loop PyFloat C σ1) as [σ1' [e1|[probs1 prev1]]];
    simpl in *; simplify_eq; [done|].
  destruct (item_minus1 (graphs C).*1) as [key|]; simpl; [|done].
  unfold getitem. destruct (graphs_lookup C key) as [G|]; simpl; [|done].
  unfold deref. pose proof (Hst G) as HG.
  destruct (σ' !! G) as [g|], (σ1' !! G) as [g1|]; simpl in HG; simplify_eq; [|done].
  rewrite (adjacency_graph_nodes g g1 HG).
  pose proof (set_node_attributes_sim G "attachment_probability"
                (PyFloat <$> (list_to_map ((λ n, (n, 0%Q)) <$> graph_nodes g1) : gmap node Q))
                σ' σ1' Hst) as Hset.
  destruct (set_node_attributes _ _ _ σ') as [σ2 [e|[]]],
           (set_node_attributes _ _ _ σ1') as [σ3 [e1|[]]]; simpl in *; by simplify_eq.
Qed.

(** X9.  Running [attachment_probability] a second time gives what the
    first run gave, the same mapping or the same exception: it reads the
    nodes and edges only, and writes neither. *)
Theorem attachment_rerun_same_result C σ :
  (attachment_probability PyFloat C (attachment_probability PyFloat C σ).1).2 =
  (attachment_probability PyFloat C σ).2.
Proof.
  destruct (attachment_frame PyFloat C σ) as [[Hs _] _].
  symmetry. by apply attachment_sim.
Qed.

End AttachmentDepends.

Section Independence.
Context {pyobj F : Type}.
Context (py_float : pyobj → exn + F) (fsub : F → F → F) (fzero : F).
Context (PyFloat : F → pyobj) (PyFloatQ : Q → pyobj).
Implicit Types (σ : Store pyobj) (C : GraphCollection).

(** X10.  [delta] and [attachment_probability] do not disturb one
    another: [attachment_probability] gives the same outcome, mapping or
    exception, after a run of [delta] as without it, and so does [delta]
    after a run of [attachment_probability], unless the attribute it is
    asked for is [attachment_probability] itself. *)
Theorem delta_attachment_independent C attribute σ :
  (attachment_probability PyFloatQ C (delta py_float fsub fzero PyFloat C attribute σ).1).2 =
  (attachment_probability PyFloatQ C σ).2 ∧
  (attribute ≠ "attachment_probability" →
   (delta py_float fsub fzero PyFloat C attribute (attachment_probability PyFloatQ C σ).1).2 =
   (delta py_float fsub fzero PyFloat C attribute σ).2).
Proof.
  split.
  - destruct (delta_frame py_float fsub fzero PyFloat C attribute σ) as [[Hs _] _].
    symmetry. by apply attachment_sim.
  - intros Hne. destruct (attachment_frame PyFloatQ C σ) as [[Hs Ha] _].
    symmetry. apply delta_sim; [done|]. by apply Ha.
Qed.

End Independence.

Lemma delta_attachment_independent_witness :
  (attachment_probability PyNum scenario
     (delta pyval_float Qminus 0%Q PyNum scenario "x" scenario_store).1).2 =
  (attachment_probability PyNum scenario scenario_store).2 ∧
  (delta pyval_float Qminus 0%Q PyNum scenario "x"
     (attachment_probability PyNum scenario scenario_store).1).2 =
  (delta pyval_float Qminus 0%Q PyNum scenario "x" scenario_store).2.
Proof.
  destruct (delta_attachment_independent pyval_float Qminus 0%Q PyNum PyNum
              scenario "x" scenario_store) as [Hattachment Hdelta].
  split; [exact Hattachment|]. apply Hdelta. done.
Defined.

(** ** [delta] and the order of the dictionary *)

Section DeltaOrder.
Context {pyobj F : Type}.
Context (py_float : pyobj → exn + F) (fsub : F → F → F) (fzero : F).
Context (PyFloat : F → pyobj).
Implicit Types (σ : Store pyobj) (C : GraphCollection).

Lemma py_sorted_Permutation (l l' : list key) : l ≡ₚ l' → py_sorted l = py_sorted l'.
Proof.
  intros Hperm. apply (StronglySorted_unique Z.le); [apply py_sorted_ascending..|].
  unfold py_sorted. by rewrite !merge_sort_Permutation.
Qed.

Lemma delta_run_unfold C attribute σ :
  delta_run py_float fsub fzero PyFloat C attribute σ =
  for_each (py_sorted (graphs C).*1)
    (delta_slice py_float fsub fzero PyFloat C attribute (elements (node_union C σ)))
    (mkDeltaLocals
       (list_to_map ((λ n, (n, None)) <$> elements (node_union C σ)))
       (list_to_map ((λ k, (k, ∅)) <$> py_sorted (graphs C).*1)) []) σ.
Proof. done. Qed.

(** X11.  [delta] sorts the keys, so the order in which the dictionary
    [C.graphs] lists its slices is of no account: two collections with
    the same slices in different orders give the same outcome and leave
    the same store. *)
Theorem delta_dictionary_order C C' attribute σ :
  NoDup (graphs C).*1 →
  graphs C ≡ₚ graphs C' →
  delta py_float fsub fzero PyFloat C attribute σ =
  delta py_float fsub fzero PyFloat C' attribute σ.
Proof.
  intros Hnd Hperm.
  assert (∀ k, graphs_lookup C k = graphs_lookup C' k) as Hlookup.
  { intros k. unfold graphs_lookup. by rewrite (list_to_map_proper _ _ Hnd Hperm). }
  assert (node_union C σ = node_union C' σ) as Hnodes.
  { unfold node_union. by rewrite Hperm. }
  assert (py_sorted (graphs C).*1 = py_sorted (graphs C').*1) as Hkeys.
  { apply py_sorted_Permutation. by rewrite Hperm. }
  unfold delta, bind. rewrite !delta_run_unfold, <-Hnodes, <-Hkeys.
  rewrite (for_each_ext _
             (delta_slice py_float fsub fzero PyFloat C attribute (elements (node_union C σ)))
             (delta_slice py_float fsub fzero PyFloat C' attribute (elements (node_union C σ))));
    [done|].
  intros k s t _. unfold delta_slice, collection_getitem. by rewrite Hlookup.
Qed.

End DeltaOrder.

Lemma delta_dictionary_order_witness :
  delta pyval_float Qminus 0%Q PyNum scenario "x" scenario_store =
  delta pyval_float Qminus 0%Q PyNum
        (mkCollection [(2000%Z, 0%nat); (2001%Z, 1%nat)]) "x" scenario_store.
Proof.
  apply (delta_dictionary_order pyval_float Qminus 0%Q PyNum scenario
           (mkCollection [(2000%Z, 0%nat); (2001%Z, 1%nat)]) "x" scenario_store).
  - simpl. apply NoDup_cons. split; [|apply NoDup_singleton].
    intros Hin. apply list_elem_of_singleton in Hin. discriminate Hin.
  - simpl. apply Permutation_swap.
Defined.

(** ** [delta]: the attribute written is the mapping returned *)

Section DeltaWriteBack.
Context {pyobj F : Type}.
Context (py_float : pyobj → exn + F) (fsub : F → F → F) (fzero : F).
Context (PyFloat : F → pyobj).
Implicit Types (σ : Store pyobj) (C : GraphCollection) (s : delta_locals F).
Implicit Types (n : node) (k : key) (g : Graph pyobj) (G : objid).

(** The nodes of slice [k'] add to [deltas[k']] only. *)
Lemma delta_nodes_deltas_other (asdict : gmap node (gmap string pyobj)) attribute k k'
    (l : list node) s s' r :
  k ≠ k' →
  for_each l (λ n _, try_except_KeyError (delta_try py_float fsub fzero asdict attribute k' n))
           tt s = (s', r) →
  deltas s' !! k = deltas s !! k.
Proof.
  intros Hne.
  apply (for_each_preserves (λ s1 s2, deltas s2 !! k = deltas s1 !! k)).
  - done.
  - intros s1 s2 s3 H12 H23. by rewrite H23.
  - intros n [] s1 s2 r1 _. rewrite delta_try_step.
    destruct (classify _ _) as [|x|e] eqn:Hc; intros [= <- _]; [|
      |done]; unfold delta_node; cbv beta; rewrite Hc; [done|].
    destruct (last s1 !! n) as [last_n|]; [|done].
    destruct (delta_cases fsub fzero last_n (Some x)) as [[b d] last_n']. simpl.
    destruct (deltas s1 !! k') as [dk|]; simpl; [|done].
    by rewrite lookup_insert_ne.
Qed.

(** The slices that run after slice [k] leave its entry and its graph
    as they are, when none of them shares the graph. *)
Lemma delta_loop_other C attribute (all_nodes : list node) (todo : list key) k G s s' σ σ' r :
  k ∉ todo →
  (∀ k', k' ∈ todo → graphs_lookup C k' ≠ Some G) →
  for_each todo (delta_slice py_float fsub fzero PyFloat C attribute all_nodes) s σ
    = (σ', r) →
  σ' !! G = σ !! G ∧ (∀ s', r = inr s' → deltas s' !! k = deltas s !! k).
Proof.
  revert s σ. induction todo as [|k' todo IH]; intros s σ Hk HG Hrun.
  - simpl in Hrun. unfold ret in Hrun. simplify_eq. split; [done|]. by intros s2 [= <-].
  - apply not_elem_of_cons in Hk as [Hne Hk]. rewrite for_each_cons in Hrun.
    destruct (delta_slice py_float fsub fzero PyFloat C attribute all_nodes k' s σ)
      as [σ1 [e|s1]] eqn:Hslice.
    + simplify_eq. apply delta_slice_frame in Hslice as [_ Hother].
      split; [|done]. apply Hother, HG. by left.
    + destruct (IH s1 σ1 Hk) as [Hstore Hdeltas]; [|done|].
      { intros k2 Hk2. apply HG. by right. }
      pose proof Hslice as Hframe. apply delta_slice_frame in Hframe as [_ Hother].
      apply delta_slice_store in Hslice as (G' & g' & dk & _ & _ & _ & _ & _ & Hnodes).
      split; [rewrite Hstore; apply Hother, HG; by left|].
      intros s2 Hr. rewrite (Hdeltas s2 Hr).
      by eapply delta_nodes_deltas_other.
Qed.

(** What the loop over the slices leaves in each slice's graph, the
    graphs being distinct objects. *)
Lemma delta_loop_store C attribute (all_nodes : list node) (todo : list key) s s' σ σ' :
  NoDup todo →
  (∀ k1 k2 G, k1 ∈ todo → k2 ∈ todo →
     graphs_lookup C k1 = Some G → graphs_lookup C k2 = Some G → k1 = k2) →
  for_each todo (delta_slice py_float fsub fzero PyFloat C attribute all_nodes) s σ
    = (σ', inr s') →
  ∀ k, k ∈ todo →
    ∃ G g dk,
      graphs_lookup C k = Some G ∧ σ !! G = Some g ∧ deltas s' !! k = Some dk ∧
      dom dk ⊆ dom g ∧
      σ' !! G = Some (write_attrs (attribute ++ "_delta") (PyFloat <$> dk) g).
Proof.
  revert s σ. induction todo as [|k0 todo IH]; intros s σ Hnd Hinj Hrun k Hk.
  - by apply elem_of_nil in Hk.
  - apply NoDup_cons in Hnd as [Hk0 Hnd]. rewrite for_each_cons in Hrun.
    destruct (delta_slice py_float fsub fzero PyFloat C attribute all_nodes k0 s σ)
      as [σ1 [e|s1]] eqn:Hslice; [done|].
    pose proof Hslice as Hframe. apply delta_slice_frame in Hframe as [_ Hother].
    apply delta_slice_store in Hslice as (G0 & g0 & dk0 & HG0 & Hg0 & Hdk0 & Hdom0 & Hσ1 & _).
    assert (∀ k', k' ∈ todo → graphs_lookup C k' ≠ Some G0) as Hfresh.
    { intros k' Hk' HG'. apply Hk0.
      rewrite (Hinj k0 k' G0); [done|by left|by right|done..]. }
    assert (∀ k1 k2 G, k1 ∈ todo → k2 ∈ todo →
              graphs_lookup C k1 = Some G → graphs_lookup C k2 = Some G → k1 = k2) as Hinj'.
    { intros k1 k2 G1 Hk1 Hk2. apply Hinj; by right. }
    apply elem_of_cons in Hk as [->|Hk].
    + destruct (delta_loop_other C attribute all_nodes todo k0 G0 s1 s' σ1 σ' (inr s')
                  Hk0 Hfresh Hrun) as [Hstore Hdeltas].
      exists G0, g0, dk0. split_and!; [done..| |done|].
      * by rewrite (Hdeltas s' eq_refl).
      * by rewrite Hstore, Hσ1, lookup_insert_eq.
    + destruct (IH s1 σ1 Hnd Hinj' Hrun k Hk) as (G & g & dk & HG & Hg & Hdk & Hdom & Hσ').
      exists G, g, dk. split_and!; [done| |done..].
      rewrite Hσ1, lookup_insert_ne in Hg; [done|]. intros <-. by apply (Hfresh k Hk).
Qed.

Lemma NoDup_snd_inj (l : list (key * objid)) k1 k2 G :
  NoDup l.*2 → (k1, G) ∈ l → (k2, G) ∈ l → k1 = k2.
Proof.
  induction l as [|[k G'] l IH]; simpl; intros Hnd H1 H2; [by apply elem_of_nil in H1|].
  apply NoDup_cons in Hnd as [Hn Hnd].
  assert (∀ k', (k', G') ∈ l → False) as Hfresh.
  { intros k' Hk'. apply Hn. apply list_elem_of_fmap. by exists (k', G'). }
  apply elem_of_cons in H1 as [H1|H1], H2 as [H2|H2]; simplify_eq; try done.
  - by destruct (Hfresh k2).
  - by destruct (Hfresh k1).
  - by apply IH.
Qed.

(** X12.  On a well-formed collection whose graphs are distinct objects
    and whose values of the attribute are numeric where present, [delta]
    returns a mapping with an entry for every slice and for nothing
    else, and leaves in each slice's graph the attribute
    [attribute + "_delta"] equal to the slice's entry: the delta, as an
    attribute value, on a node that has one, and whatever the node had
    before on a node that has none. *)
Theorem delta_write_back C attribute σ :
  well_formed C σ →
  NoDup (graphs C).*2 →
  (∀ k n e, read py_float C σ attribute k n ≠ Fails e) →
  ∃ σ' result,
    delta py_float fsub fzero PyFloat C attribute σ = (σ', inr result) ∧
    (∀ k, is_Some (result !! k) ↔ k ∈ (graphs C).*1) ∧
    (∀ k G, (k, G) ∈ graphs C →
       ∃ dk, result !! k = Some dk ∧
             ∀ n, node_attribute σ' G n (attribute ++ "_delta") =
                  match dk !! n with
                  | Some d => Some (PyFloat d)
                  | None => node_attribute σ G n (attribute ++ "_delta")
                  end).
Proof.
  intros Hwf Hobjs Hok. pose proof Hwf as [Hnd Hstore].
  destruct (delta_ok py_float fsub fzero PyFloat C attribute σ Hwf Hok)
    as (σ' & s' & Hrun & Hdelta & _ & Hout).
  rewrite delta_run_unfold in Hrun.
  pose proof (delta_loop_store C attribute _ _ _ _ _ _ (py_sorted_NoDup _ Hnd)
                ltac:(unfold graphs_lookup;
                      intros k1 k2 G _ _ H1%elem_of_list_to_map_2 H2%elem_of_list_to_map_2;
                      by eapply NoDup_snd_inj) Hrun) as Hloop.
  exists σ', (deltas s'). split_and!; [done| |].
  - intros k. split.
    + intros Hk. destruct (decide (k ∈ (graphs C).*1)) as [|Hnot]; [done|].
      rewrite (Hout k Hnot) in Hk. by destruct Hk.
    + intros Hk. rewrite <-py_sorted_elem_of in Hk.
      destruct (Hloop k Hk) as (G & g & dk & _ & _ & Hdk & _). by eexists.
  - intros k G Hin.
    assert (k ∈ py_sorted (graphs C).*1) as Hk.
    { rewrite py_sorted_elem_of. apply list_elem_of_fmap. by exists (k, G). }
    destruct (Hloop k Hk) as (G' & g & dk & HG & Hg & Hdk & Hdom & Hσ').
    assert (G' = G) as ->.
    { unfold graphs_lookup in HG. rewrite (elem_of_list_to_map_1 _ _ _ Hnd Hin) in HG.
      congruence. }
    exists dk. split; [done|]. intros n. unfold node_attribute. rewrite Hσ', Hg. simpl.
    rewrite attrs_write_attrs, decide_True by done. rewrite lookup_fmap.
    destruct (dk !! n) as [d|] eqn:Hd; simpl.
    + assert (n ∈ dom g) as [nd Hnd']%elem_of_dom by (apply Hdom, elem_of_dom; by eexists).
      by rewrite Hnd'.
    + by destruct (g !! n).
Qed.

End DeltaWriteBack.

Lemma delta_write_back_witness :
  ∃ σ' result,
    delta pyval_float Qminus 0%Q PyNum gap_collection "x" gap_store = (σ', inr result) ∧
    (∀ k, is_Some (result !! k) ↔ k ∈ (graphs gap_collection).*1) ∧
    (∀ k G, (k, G) ∈ graphs gap_collection →
       ∃ dk, result !! k = Some dk ∧
             ∀ n, node_attribute σ' G n "x_delta" =
                  match dk !! n with
                  | Some d => Some (PyNum d)
                  | None => node_attribute gap_store G n "x_delta"
                  end).
Proof.
  apply (delta_write_back pyval_float Qminus 0%Q PyNum gap_collection "x" gap_store).
  - apply gap_well_formed.
  - compute_done.
  - apply gap_numeric.
Defined.

(** ** [attachment_probability]: the mapping returned *)

Section AttachmentResult.
Context {pyobj : Type}.
Context (PyFloat : Q → pyobj).
Implicit Types (σ : Store pyobj) (C : GraphCollection) (g : Graph pyobj).
Implicit Types (n : node) (k : key) (G : objid) (a : gmap node (gset node)).

(** X13.  On a collection with no slice, [attachment_probability]
    raises [IndexError] (line 243 takes the last of no keys) and leaves the
    store as it is; on a well-formed collection this is the only
    exception it raises. *)
Theorem attachment_raises_on_no_slice C σ :
  well_formed C σ →
  (graphs C = [] → attachment_probability PyFloat C σ = (σ, inl IndexError)) ∧
  (∀ e, (attachment_probability PyFloat C σ).2 = inl e → graphs C = [] ∧ e = IndexError).
Proof.
  intros Hwf.
  assert (graphs C = [] → attachment_probability PyFloat C σ = (σ, inl IndexError)) as Hempty.
  { intros Hnil. unfold attachment_probability, attachment_loop, bind. by rewrite Hnil. }
  split; [done|]. intros e He.
  destruct (decide (graphs C = [])) as [Hnil|Hne].
  - rewrite (Hempty Hnil) in He. simpl in He. split; [done|congruence].
  - destruct (attachment_probability_returns PyFloat C σ Hwf Hne) as [σ' Hrun].
    by rewrite Hrun in He.
Qed.

(** Every entry of [probs] is there from the start or is the entry of a
    slice that is followed by another. *)
Lemma probs_after_keys σ (l : list (key * objid)) prev probs k' pk :
  probs_after σ prev l probs !! k' = Some pk →
  probs !! k' = Some pk ∨
  ∃ (l1 : list (key * objid)) G_ kG l2,
    (from_option (λ p, [p]) [] prev ++ l = l1 ++ (k', G_) :: kG :: l2)%list.
Proof.
  revert prev probs. induction l as [|[k G] l IH]; intros prev probs Hlk; [by left|].
  simpl in Hlk. apply IH in Hlk as [Hlk|(l1 & G_ & kG & l2 & Heq)].
  - destruct prev as [[k_ G_]|]; [|by left].
    rewrite lookup_insert in Hlk. case_decide as Hk; [|by left]. subst k'.
    right. by exists [], G_, (k, G), l.
  - right. simpl in Heq. rewrite Heq.
    exists (from_option (λ p, [p]) [] prev ++ l1)%list, G_, kG, l2.
    by rewrite <-app_assoc.
Qed.

(** X14.  On a well-formed collection that is not empty, the mapping
    that [attachment_probability] returns has an entry for each slice
    that another slice follows in the order of [C.graphs], and for no
    other key, so none for the last slice; and the entry of a slice has a
    value for each node of that slice's graph, and for no other node. *)
Theorem attachment_result_keys C σ :
  well_formed C σ →
  graphs C ≠ [] →
  ∃ σ' probs,
    attachment_probability PyFloat C σ = (σ', inr probs) ∧
    (∀ k, is_Some (probs !! k) ↔
          ∃ (l1 : list (key * objid)) G_ kG l2, graphs C = (l1 ++ (k, G_) :: kG :: l2)%list) ∧
    (∀ k G_ g_ pk, (k, G_) ∈ graphs C → σ !! G_ = Some g_ → probs !! k = Some pk →
                   dom pk = dom g_).
Proof.
  intros Hwf Hne. pose proof Hwf as [Hnd Hstore].
  destruct (attachment_probability_returns PyFloat C σ Hwf Hne) as [σ' Hrun].
  exists σ', (probs_after σ None (graphs C) ∅). split_and!; [done| |].
  - intros k. split.
    + intros [pk Hpk]. apply probs_after_keys in Hpk as [Hpk|Hpk]; [|done].
      by rewrite lookup_empty in Hpk.
    + intros (l1 & G_ & [k2 G2] & l2 & Heq).
      rewrite (probs_after_pair σ (graphs C) l1 l2 None ∅ k G_ k2 G2 Hnd Heq). by eexists.
  - intros k G_ g_ pk Hin Hg_ Hpk.
    pose proof Hpk as Hsplit.
    apply probs_after_keys in Hsplit as [Hsplit|(l1 & G_' & [k2 G2] & l2 & Heq)];
      [by rewrite lookup_empty in Hsplit|].
    simpl in Heq.
    assert (G_' = G_) as ->.
    { assert ((k, G_') ∈ graphs C) as Hin'.
      { rewrite Heq. apply elem_of_app. right. by left. }
      apply (elem_of_list_to_map_1 (M:=gmap key) _ _ _ Hnd) in Hin, Hin'. congruence. }
    rewrite (probs_after_pair σ (graphs C) l1 l2 None ∅ k G_ k2 G2 Hnd Heq) in Hpk.
    injection Hpk as <-. rewrite dom_probs_of, (adjacency_at_lookup σ G_ g_ Hg_).
    unfold adjacency. by rewrite dom_fmap_L.
Qed.

(** X15.  For two slices that follow one another in a well-formed
    collection: a node of both slices that had a neighbour in the first
    and has in the second a neighbour that it had not gets a positive
    value in the entry that [attachment_probability] returns for the
    first slice; and when there is no such node, every value of that
    entry is zero. *)
Theorem attachment_slice_zero_or_positive C σ (l1 l2 : list (key * objid)) k_ G_ k G g_ g :
  well_formed C σ →
  graphs C = (l1 ++ (k_, G_) :: (k, G) :: l2)%list →
  σ !! G_ = Some g_ →
  σ !! G = Some g →
  ∃ σ' probs pk,
    attachment_probability PyFloat C σ = (σ', inr probs) ∧
    probs !! k_ = Some pk ∧
    (∀ n d_ d m, g_ !! n = Some d_ → g !! n = Some d → 0 < size (nbrs d_) →
                 m ∈ nbrs d → m ∉ nbrs d_ →
                 ∃ p, pk !! n = Some p ∧ (0 < p)%Q) ∧
    ((∀ n d_ d, g_ !! n = Some d_ → g !! n = Some d → 0 < size (nbrs d_) →
                nbrs d ⊆ nbrs d_) →
     ∀ n p, pk !! n = Some p → p = 0%Q).
Proof.
  intros Hwf Heq Hg_ Hg.
  destruct (attachment_probability_returns PyFloat C σ Hwf) as [σ' Hrun].
  { rewrite Heq. by destruct l1. }
  exists σ', (probs_after σ None (graphs C) ∅), (probs_of (adjacency g_) (adjacency g)).
  split_and!; [done| | |].
  - rewrite (probs_after_pair σ (graphs C) l1 l2 None ∅ k_ G_ k G (proj1 Hwf) Heq).
    by rewrite (adjacency_at_lookup σ G_ g_), (adjacency_at_lookup σ G g).
  - intros n d_ d m Hd_ Hd Hsize Hm Hnew.
    assert (new_edges_of (adjacency g_) (adjacency g) !! n
            = Some (float_len (nbrs d ∖ nbrs d_))) as Hc.
    { rewrite lookup_new_edges_of. unfold adjacency. rewrite !lookup_fmap, Hd_, Hd. simpl.
      by rewrite decide_True. }
    pose proof (new_edges_of_le_sum _ _ _ _ Hc) as Hle.
    assert (0 < float_len (nbrs d ∖ nbrs d_))%Q as Hpos.
    { unfold float_len. change 0%Q with (inject_Z 0). rewrite <-Zlt_Qlt.
      assert (size (nbrs d ∖ nbrs d_) ≠ 0); [|lia].
      apply size_non_empty_iff. intros Hempty. apply (not_elem_of_empty (C:=gset node) m).
      apply Hempty. by apply elem_of_difference. }
    assert (adjacency g_ !! n = Some (nbrs d_)) as Ha_.
    { unfold adjacency. by rewrite lookup_fmap, Hd_. }
    eexists. split.
    + rewrite lookup_probs_of, Ha_, Hc. simpl. reflexivity.
    + destruct (Qlt_le_dec _ _) as [HN|HN]; [|lra].
      apply Qlt_shift_div_l; [done|]. lra.
  - intros Hnone n p Hp.
    assert (∀ m c, new_edges_of (adjacency g_) (adjacency g) !! m = Some c → c = 0%Q) as Hzero.
    { intros m c. rewrite lookup_new_edges_of. unfold adjacency. rewrite !lookup_fmap.
      destruct (g !! m) as [d|] eqn:Hd; simpl; [|done].
      destruct (g_ !! m) as [d_|] eqn:Hd_; simpl; [|done]. intros [= <-].
      case_decide as Hsize; [|done].
      assert (nbrs d ∖ nbrs d_ = ∅) as ->.
      { apply set_eq. intros x. rewrite elem_of_difference. split; [|by intros ?%elem_of_empty].
        intros [Hx Hnot]. destruct Hnot. by apply (Hnone m d_ d Hd_ Hd Hsize). }
      unfold float_len. by rewrite size_empty. }
    assert (py_sum (values (new_edges_of (adjacency g_) (adjacency g))) == 0)%Q as HN.
    { apply py_sum_zero, Forall_forall. intros x Hx.
      apply list_elem_of_fmap in Hx as ([m x'] & -> & Hx). simpl.
      apply elem_of_map_to_list in Hx. by rewrite (Hzero m x' Hx). }
    rewrite lookup_probs_of in Hp.
    destruct (adjacency g_ !! n) as [s_|]; simpl in Hp; [|done]. injection Hp as <-.
    destruct (Qlt_le_dec _ _) as [Hpos|Hneg]; [lra|done].
Qed.

End AttachmentResult.

Lemma attachment_raises_on_no_slice_witness :
  attachment_probability PyNum (mkCollection []) pendant_store = (pendant_store, inl IndexError).
Proof.
  destruct (attachment_raises_on_no_slice PyNum (mkCollection []) pendant_store)
    as [Hempty _].
  - split; [constructor|]. intros k G Hin. by apply elem_of_nil in Hin.
  - by apply Hempty.
Defined.

Lemma attachment_result_keys_witness :
  ∃ σ' probs,
    attachment_probability PyNum two_slices pendant_store = (σ', inr probs) ∧
    (∀ k, is_Some (probs !! k) ↔
          ∃ (l1 : list (key * objid)) G_ kG l2,
            graphs two_slices = (l1 ++ (k, G_) :: kG :: l2)%list) ∧
    (∀ k G_ g_ pk, (k, G_) ∈ graphs two_slices → pendant_store !! G_ = Some g_ →
                   probs !! k = Some pk → dom pk = dom g_).
Proof.
  apply (attachment_result_keys PyNum two_slices pendant_store pendant_well_formed).
  done.
Defined.

Lemma attachment_slice_zero_or_positive_witness :
  ∃ σ' probs pk p,
    attachment_probability PyNum two_slices pendant_store = (σ', inr probs) ∧
    probs !! 2000%Z = Some pk ∧
    pk !! "A" = Some p ∧ (0 < p)%Q.
Proof.
  destruct (attachment_slice_zero_or_positive PyNum two_slices pendant_store [] []
              2000%Z 0%nat 2001%Z 1%nat (path_x 1 2 3) (add_edge "A" "D" (path_x 1 2 3))
              pendant_well_formed eq_refl eq_refl eq_refl)
    as (σ' & probs & pk & Hrun & Hpk & Hpositive & _).
  assert (∃ p, pk !! "A" = Some p ∧ (0 < p)%Q) as (p & Hp & Hpos).
  { eapply (Hpositive "A" _ _ "D").
    - vm_compute. reflexivity.
    - vm_compute. reflexivity.
    - vm_compute. lia.
    - compute_done.
    - compute_done. }
  by exists σ', probs, pk, p.
Defined.

(** ** [attachment_probability]: the attribute written is the mapping returned *)

Section AttachmentWriteBack.
Context {pyobj : Type}.
Context (PyFloat : Q → pyobj).
Implicit Types (σ : Store pyobj) (C : GraphCollection) (g : Graph pyobj).
Implicit Types (n : node) (k : key) (G : objid).

Lemma attachment_iteration_inv C k G probs (prev : option (key * objid)) σ σ1 st :
  attachment_iteration PyFloat C (k, G) (probs, prev) σ = (σ1, inr st) →
  st.2 = Some (k, G) ∧
  same_structure σ σ1 ∧
  ∀ G', (∀ p, prev = Some p → graphs_lookup C p.1 ≠ Some G') → σ1 !! G' = σ !! G'.
Proof.
  unfold attachment_iteration, bind. destruct prev as [p|].
  - destruct (attachment_step PyFloat C p G probs σ) as [σ3 [e|a]] eqn:Hstep; [done|].
    unfold ret. intros [= <- <-].
    apply attachment_step_frame in Hstep as [[Hs _] Hother].
    split_and!; [done..|]. intros G' HG'. apply Hother. by apply HG'.
  - unfold ret. intros [= <- <-]. split_and!; [done|apply same_structure_refl|done].
Qed.

(** The iterations that do not come to an object leave it as it is. *)
Lemma attachment_loop_other C (l : list (key * objid)) probs prev σ σ' st G' :
  for_each l (attachment_iteration PyFloat C) (probs, prev) σ = (σ', inr st) →
  (∀ p, prev = Some p → graphs_lookup C p.1 ≠ Some G') →
  (∀ kG, kG ∈ l → graphs_lookup C kG.1 ≠ Some G') →
  σ' !! G' = σ !! G'.
Proof.
  revert probs prev σ. induction l as [|[k G] l IH]; intros probs prev σ Hrun Hprev Hl.
  - simpl in Hrun. unfold ret in Hrun. by simplify_eq.
  - rewrite for_each_cons in Hrun.
    destruct (attachment_iteration PyFloat C (k, G) (probs, prev) σ)
      as [σ1 [e|[probs1 prev1]]] eqn:Hit; [done|].
    apply attachment_iteration_inv in Hit as (Hprev1 & _ & Hother). simpl in Hprev1.
    rewrite (IH probs1 prev1 σ1 Hrun).
    + by apply Hother.
    + intros p Hp. rewrite Hprev1 in Hp. injection Hp as <-. apply (Hl (k, G)). by left.
    + intros kG HkG. apply Hl. by right.
Qed.

(** What the loop leaves in the graph of a slice that another follows,
    the graphs being distinct objects. *)
Lemma attachment_loop_written C σ0 (l1 l2 : list (key * objid)) k_ G_ k G probs prev σa σ' st :
  well_formed C σ0 →
  same_structure σ0 σa →
  (∀ kG, kG ∈ (l1 ++ (k_, G_) :: (k, G) :: l2)%list → kG ∈ graphs C) →
  NoDup (l1 ++ (k_, G_) :: (k, G) :: l2)%list.*2 →
  for_each (l1 ++ (k_, G_) :: (k, G) :: l2)%list (attachment_iteration PyFloat C)
           (probs, prev) σa = (σ', inr st) →
  ∃ ga,
    adjacency ga = adjacency_at σ0 G_ ∧
    σ' !! G_ = Some (write_attrs "attachment_probability"
                       (PyFloat <$> probs_of (adjacency_at σ0 G_) (adjacency_at σ0 G)) ga).
Proof.
  intros Hwf. pose proof Hwf as [Hnd Hstore].
  revert probs prev σa. induction l1 as [|[k0 G0] l1 IH]; intros probs prev σa Hsame Hin Hobjs Hrun.
  - rewrite app_nil_l in Hin, Hobjs, Hrun. rewrite !fmap_cons in Hobjs.
    assert ((k_, G_) ∈ graphs C) as Hin_ by (apply Hin; by left).
    assert ((k, G) ∈ graphs C) as Hink by (apply Hin; right; by left).
    rewrite for_each_cons in Hrun.
    destruct (attachment_iteration PyFloat C (k_, G_) (probs, prev) σa)
      as [σb [e|[probs1 prev1]]] eqn:Hit; [done|].
    apply attachment_iteration_inv in Hit as (Hprev1 & Hsab & _). simpl in Hprev1. subst prev1.
    assert (same_structure σ0 σb) as Hsb by (by apply (same_structure_trans σ0 σa σb)).
    rewrite for_each_cons in Hrun. unfold attachment_iteration at 1 in Hrun.
    destruct (attachment_step_spec PyFloat C σ0 σb k_ G_ k G probs1 Hsb)
      as (gb & Hgb & Hstep); [by apply elem_of_list_to_map_1|by eapply Hstore..|done|].
    unfold bind at 1 in Hrun. rewrite Hstep in Hrun. simpl in Hrun.
    apply NoDup_cons in Hobjs as [HG_ Hobjs].
    exists gb. split.
    { by destruct (same_structure_lookup σ0 σb G_ gb Hsb Hgb) as [_ ->]. }
    rewrite (attachment_loop_other C l2 _ _ _ σ' st G_ Hrun).
    + by rewrite lookup_insert_eq.
    + intros p [= <-]. simpl. unfold graphs_lookup.
      rewrite (elem_of_list_to_map_1 _ _ _ Hnd Hink). intros [= ->]. apply HG_. by left.
    + intros [k' G'] Hk'. simpl. unfold graphs_lookup.
      rewrite (elem_of_list_to_map_1 _ k' G' Hnd).
      * intros [= ->]. apply HG_. right. apply list_elem_of_fmap. by exists (k', G_).
      * apply Hin. right. by right.
  - rewrite <-app_comm_cons in Hin, Hobjs, Hrun. rewrite fmap_cons in Hobjs.
    rewrite for_each_cons in Hrun.
    destruct (attachment_iteration PyFloat C (k0, G0) (probs, prev) σa)
      as [σb [e|[probs1 prev1]]] eqn:Hit; [done|].
    apply attachment_iteration_inv in Hit as (_ & Hsab & _).
    apply NoDup_cons in Hobjs as [_ Hobjs].
    apply (IH probs1 prev1 σb); [|by intros kG HkG; apply Hin; right|done..].
    by apply (same_structure_trans σ0 σa σb).
Qed.

(** The run of [attachment_probability] on a collection that is not
    empty, with the store that the loop leaves. *)
Lemma attachment_probability_run C σ k_last G_last :
  well_formed C σ →
  item_minus1 (graphs C) = Some (k_last, G_last) →
  ∃ σ1 st g1,
    attachment_loop PyFloat C σ = (σ1, inr st) ∧
    σ1 !! G_last = Some g1 ∧
    adjacency g1 = adjacency_at σ G_last ∧
    attachment_probability PyFloat C σ =
    (<[G_last := write_attrs "attachment_probability"
                   (PyFloat <$> (list_to_map ((λ n, (n, 0%Q)) <$> graph_nodes g1) : gmap node Q))
                   g1]> σ1,
     inr (probs_after σ None (graphs C) ∅)).
Proof.
  intros Hwf Hlast. pose proof Hwf as [Hnd Hstore].
  destruct (attachment_loop_spec PyFloat C σ (graphs C) σ ∅ None Hwf (same_structure_refl σ))
    as (σ1 & prev' & Hrun & Hsame); [done..|].
  assert ((k_last, G_last) ∈ graphs C) as Hin.
  { unfold item_minus1 in Hlast. apply last_Some in Hlast as [l' ->].
    apply elem_of_app. right. by left. }
  destruct (same_structure_is_Some σ σ1 G_last Hsame) as [g1 Hg1]; [by eapply Hstore|].
  exists σ1, (probs_after σ None (graphs C) ∅, prev'), g1. split_and!; [done..| |].
  { by destruct (same_structure_lookup σ σ1 G_last g1 Hsame Hg1) as [_ ->]. }
  unfold attachment_probability, bind at 1. unfold attachment_loop. rewrite Hrun.
  unfold item_minus1 in *. rewrite fmap_last, Hlast. simpl.
  unfold bind at 1. simpl. unfold bind at 1.
  unfold graphs_lookup. rewrite (elem_of_list_to_map_1 _ _ _ Hnd Hin). simpl.
  unfold bind at 1. unfold deref at 1. rewrite Hg1.
  unfold bind at 1. rewrite (set_node_attributes_ok G_last _ _ σ1 g1 Hg1); [done|].
  rewrite dom_fmap_L. intros n Hn. apply elem_of_dom in Hn as [p Hp].
  rewrite lookup_const_map in Hp. case_decide as Hn; [|done].
  unfold graph_nodes in Hn. by apply elem_of_elements in Hn.
Qed.

Lemma last_after {A} (l1 l2 : list A) (x y z : A) :
  list.last (l1 ++ x :: y :: l2)%list = Some z → z ∈ y :: l2.
Proof.
  rewrite last_app, last_cons. destruct (list.last (y :: l2)) as [w|] eqn:Hw.
  - intros [= <-]. apply last_Some in Hw as [l' ->]. apply elem_of_app. right. by left.
  - by apply last_None in Hw.
Qed.

(** X16.  On a well-formed collection that is not empty and whose graphs
    are distinct objects, [attachment_probability] leaves in the graph of
    each slice that has an entry in the mapping returned the attribute
    [attachment_probability] equal to that entry, node by node; and in the
    graph of the last slice the value zero on each of its nodes. *)
Theorem attachment_write_back C σ :
  well_formed C σ →
  NoDup (graphs C).*2 →
  graphs C ≠ [] →
  ∃ σ' probs,
    attachment_probability PyFloat C σ = (σ', inr probs) ∧
    (∀ k G pk, (k, G) ∈ graphs C → probs !! k = Some pk →
       ∀ n, node_attribute σ' G n "attachment_probability" = PyFloat <$> pk !! n) ∧
    (∀ k G g, item_minus1 (graphs C) = Some (k, G) → σ !! G = Some g →
       ∀ n, node_attribute σ' G n "attachment_probability" = (λ _, PyFloat 0%Q) <$> g !! n).
Proof.
  intros Hwf Hobjs Hne. pose proof Hwf as [Hnd Hstore].
  destruct (item_minus1 (graphs C)) as [[k_last G_last]|] eqn:Hlast;
    [|unfold item_minus1 in Hlast; by apply last_None in Hlast].
  destruct (attachment_probability_run C σ k_last G_last Hwf Hlast)
    as (σ1 & st & g1 & Hloop & Hg1 & Ha1 & Hrun).
  eexists _, _. split_and!; [exact Hrun| |].
  - intros k G pk Hin Hpk n.
    pose proof Hpk as Hsplit.
    apply probs_after_keys in Hsplit as [Hsplit|(l1 & G' & [k2 G2] & l2 & Heq)];
      [by rewrite lookup_empty in Hsplit|].
    simpl in Heq.
    assert (G' = G) as ->.
    { assert ((k, G') ∈ graphs C) as Hin'.
      { rewrite Heq. apply elem_of_app. right. by left. }
      apply (elem_of_list_to_map_1 (M:=gmap key) _ _ _ Hnd) in Hin, Hin'. congruence. }
    rewrite (probs_after_pair σ (graphs C) l1 l2 None ∅ k G k2 G2 Hnd Heq) in Hpk.
    injection Hpk as <-.
    unfold attachment_loop in Hloop. rewrite Heq in Hloop, Hobjs.
    destruct (attachment_loop_written C σ l1 l2 k G k2 G2 ∅ None σ σ1 st Hwf
                (same_structure_refl σ)) as (ga & Ha & Hσ1); [|done..|].
    { intros kG HkG. by rewrite Heq. }
    assert (G ≠ G_last) as HGne.
    { intros ->. unfold item_minus1 in Hlast. rewrite Heq in Hlast.
      apply last_after in Hlast.
      rewrite fmap_app, fmap_cons in Hobjs. apply NoDup_app in Hobjs as (_ & _ & Hobjs).
      apply NoDup_cons in Hobjs as [Hfresh _]. apply Hfresh.
      apply list_elem_of_fmap. by exists (k_last, G_last). }
    unfold node_attribute. rewrite lookup_insert_ne by done. rewrite Hσ1. simpl.
    rewrite attrs_write_attrs, decide_True by done.
    assert (adjacency_at σ G !! n = nbrs <$> ga !! n) as Hlk.
    { rewrite <-Ha. unfold adjacency. apply lookup_fmap. }
    destruct (ga !! n) as [d|]; simpl.
    + by rewrite lookup_fmap, lookup_probs_of, Hlk.
    + by rewrite lookup_probs_of, Hlk.
  - intros k G g [= <- <-] Hg n.
    rewrite (adjacency_at_lookup σ G_last g Hg) in Ha1.
    unfold node_attribute. rewrite lookup_insert_eq. simpl.
    rewrite attrs_write_attrs, decide_True by done.
    assert (nbrs <$> g1 !! n = nbrs <$> g !! n) as Hn.
    { apply (f_equal (.!! n)) in Ha1. unfold adjacency in Ha1. by rewrite !lookup_fmap in Ha1. }
    destruct (g1 !! n) as [d1|] eqn:Hd1; simpl.
    + rewrite lookup_fmap, lookup_const_map.
      rewrite decide_True by (apply elem_of_elements, elem_of_dom; by eexists).
      simpl. by destruct (g !! n).
    + by destruct (g !! n).
Qed.

End AttachmentWriteBack.

Lemma attachment_write_back_witness :
  ∃ σ' probs,
    attachment_probability PyNum two_slices pendant_store = (σ', inr probs) ∧
    (∀ k G pk, (k, G) ∈ graphs two_slices → probs !! k = Some pk →
       ∀ n, node_attribute σ' G n "attachment_probability" = PyNum <$> pk !! n) ∧
    (∀ k G g, item_minus1 (graphs two_slices) = Some (k, G) → pendant_store !! G = Some g →
       ∀ n, node_attribute σ' G n "attachment_probability" = (λ _, PyNum 0%Q) <$> g !! n).
Proof.
  apply (attachment_write_back PyNum two_slices pendant_store pendant_well_formed).
  - compute_done.
  - done.
Defined.

(** ** [delta]: what a failure leaves behind *)

Section DeltaFailure.
Context {pyobj F : Type}.
Context (py_float : pyobj → exn + F) (fsub : F → F → F) (fzero : F).
Context (PyFloat : F → pyobj).
Implicit Types (σ : Store pyobj) (C : GraphCollection) (s : delta_locals F).
Implicit Types (n : node) (k : key) (g : Graph pyobj) (G : objid).

(** X17.  When [float] rejects a value of the attribute in slice [k] and
    none in the slices before it, in the ascending order of the keys,
    [delta] raises an exception and leaves the collection half updated,
    the graphs being distinct objects: the graphs of the slices before [k]
    carry their deltas in the derived attribute, and the graphs of [k] and
    of the slices after it are as they were. *)
Theorem delta_stops_half_way C attribute σ (before after : list key) k (m : node) e :
  well_formed C σ →
  NoDup (graphs C).*2 →
  py_sorted (graphs C).*1 = (before ++ k :: after)%list →
  (∀ k' n' e', k' ∈ before → read py_float C σ attribute k' n' ≠ Fails e') →
  read py_float C σ attribute k m = Fails e →
  ∃ σ' e',
    delta py_float fsub fzero PyFloat C attribute σ = (σ', inl e') ∧
    (∀ k' G', k' ∈ k :: after → (k', G') ∈ graphs C → σ' !! G' = σ !! G') ∧
    (∀ (t1 t2 : list key) k' G', before = (t1 ++ k' :: t2)%list → (k', G') ∈ graphs C →
       ∀ n', node_attribute σ' G' n' (attribute ++ "_delta") =
             match expected_delta py_float fsub C σ attribute t1 k' n' with
             | Some d => Some (PyFloat d)
             | None => node_attribute σ G' n' (attribute ++ "_delta")
             end).
Proof.
  intros Hwf Hobjs Hsorted Hok Hfail. pose proof Hwf as [Hnd Hstore].
  pose proof (py_sorted_NoDup _ Hnd) as Hnds. rewrite Hsorted in Hnds.
  apply NoDup_app in Hnds as (Hndb & Hdisj & Hnda).
  assert (∀ k', k' ∈ (before ++ k :: after)%list →
            ∃ G, graphs_lookup C k' = Some G ∧ (k', G) ∈ graphs C ∧ is_Some (σ !! G)) as Hlookup.
  { intros k' Hk'. rewrite <-Hsorted, py_sorted_elem_of in Hk'.
    by apply graphs_lookup_Some. }
  assert (∀ k1 k2 G, graphs_lookup C k1 = Some G → graphs_lookup C k2 = Some G → k1 = k2)
    as Hinj.
  { unfold graphs_lookup. intros k1 k2 G H1%elem_of_list_to_map_2 H2%elem_of_list_to_map_2.
    by eapply NoDup_snd_inj. }
  set (all_nodes := elements (node_union C σ)).
  set (s0 := mkDeltaLocals
               (list_to_map ((λ n, (n, None)) <$> all_nodes) : gmap node (option F))
               (list_to_map ((λ k, (k, ∅)) <$> py_sorted (graphs C).*1)
                  : gmap key (gmap node F))
               ([] : list (key * node * branch))).
  (* the slices before [k] run through *)
  destruct (delta_loop py_float fsub fzero PyFloat C attribute all_nodes σ before [] s0 σ)
    as [(_ & σ1 & s1 & Hrun1 & Hsame1 & Hexp & _ & _)
       |(σ1 & e1 & k1 & n1 & _ & Hk1 & _ & He1)].
  { apply NoDup_elements. }
  { intros k' n' Hn'. unfold observed.
    rewrite read_outside_nodes; [done|]. by rewrite <-elem_of_elements. }
  { done. }
  { intros k' Hk'. destruct (Hlookup k') as (G & ? & _ & ?); [|by exists G].
    apply elem_of_app. by left. }
  { apply same_attribute_refl. }
  { intros n' Hn'. simpl. by rewrite lookup_const_map, decide_True. }
  { intros k' Hk'. simpl. rewrite lookup_const_map, decide_True; [done|].
    rewrite Hsorted. apply elem_of_app. by left. }
  { done. }
  2:{ by destruct (Hok k1 n1 e1 Hk1). }
  (* slice [k] raises before it writes *)
  destruct (Hlookup k) as (G & HG & HinG & _); [apply elem_of_app; right; by left|].
  assert (is_Some (σ1 !! G)) as [g1 Hg1].
  { apply (proj1 (Hsame1 G)). by eapply Hstore. }
  assert (m ∈ all_nodes) as Hn.
  { unfold all_nodes. apply elem_of_elements.
    destruct (decide (m ∈ node_union C σ)) as [|Hout]; [done|].
    by rewrite (read_outside_nodes py_float C σ attribute k m Hout) in Hfail. }
  assert (classify py_float
            ((list_to_map (graph_nodes_data g1) : gmap node (gmap string pyobj)) !! m
               ≫= (.!! attribute)) = Fails e) as Hclass.
  { rewrite asdict_lookup. rewrite (same_attribute_read py_float attribute C σ σ1 k m Hsame1)
      in Hfail.
    unfold read, slice_attribute, node_attribute in Hfail.
    rewrite HG in Hfail. simpl in Hfail. by rewrite Hg1 in Hfail. }
  destruct (delta_nodes_fail py_float fsub fzero _ attribute k all_nodes s1 m e Hn Hclass)
    as (s2 & n2 & e2 & Hnodes & _ & _).
  assert (delta_slice py_float fsub fzero PyFloat C attribute all_nodes k s1 σ1
          = (σ1, inl e2)) as Hslice.
  { rewrite (delta_slice_unfold py_float fsub fzero PyFloat C attribute all_nodes k s1 σ1 G g1
               HG Hg1). by rewrite Hnodes. }
  exists σ1, e2. split_and!.
  - assert (delta_run py_float fsub fzero PyFloat C attribute σ = (σ1, inl e2)) as Hrun.
    { rewrite delta_run_unfold.
      change (for_each (py_sorted (graphs C).*1)
                (delta_slice py_float fsub fzero PyFloat C attribute all_nodes) s0 σ
              = (σ1, inl e2)).
      rewrite Hsorted.
      apply (for_each_app_raises before after k _ s0 s1 σ σ1 σ1 e2 Hrun1 Hslice). }
    unfold delta, bind. by rewrite Hrun.
  - intros k' G' Hk' Hin'.
    apply (delta_loop_other py_float fsub fzero PyFloat C attribute all_nodes before k G'
             s0 s1 σ σ1 (inr s1)); [|intros k2 Hk2 HG2|done].
    + intros Hk. apply (Hdisj k Hk). by left.
    + assert (k2 = k') as ->.
      { apply (Hinj k2 k' G' HG2). unfold graphs_lookup.
        by apply elem_of_list_to_map_1. }
      by apply (Hdisj k' Hk2).
  - intros t1 t2 k' G' Hbefore Hin' n'.
    assert (k' ∈ before) as Hk' by (rewrite Hbefore; apply elem_of_app; right; by left).
    destruct (Hexp t1 k' t2 Hbefore) as (dk & Hdk & Hval).
    destruct (delta_loop_store py_float fsub fzero PyFloat C attribute all_nodes before
                s0 s1 σ σ1 Hndb ltac:(intros k1 k2 G1 _ _; apply Hinj) Hrun1 k' Hk')
      as (G2 & g & dk' & HG2 & Hg & Hdk' & Hdom & Hσ1).
    assert (G2 = G') as ->.
    { unfold graphs_lookup in HG2. rewrite (elem_of_list_to_map_1 _ _ _ Hnd Hin') in HG2.
      congruence. }
    assert (dk' = dk) as -> by congruence.
    unfold node_attribute. rewrite Hσ1, Hg. simpl.
    rewrite attrs_write_attrs, decide_True by done.
    rewrite <-Hval. simpl.
    destruct (g !! n') as [nd|] eqn:Hnd'; simpl.
    + rewrite lookup_fmap. by destruct (dk !! n').
    + assert (dk !! n' = None) as ->; [|done].
      apply not_elem_of_dom. intros Hin. apply Hdom in Hin.
      apply elem_of_dom in Hin as [? Hin]. congruence.
Qed.

End DeltaFailure.

Lemma numeric_slice {pyobj F : Type} (py_float : pyobj → exn + F)
    (C : GraphCollection) (σ : Store pyobj) attribute k G g :
  graphs_lookup C k = Some G →
  σ !! G = Some g →
  numeric_graph py_float attribute g = true →
  ∀ n e, read py_float C σ attribute k n ≠ Fails e.
Proof.
  intros HG Hg Hcheck n e. unfold read, slice_attribute, classify, node_attribute.
  rewrite HG. simpl. rewrite Hg. simpl.
  destruct (g !! n) as [d|] eqn:Hd; simpl; [|done].
  unfold numeric_graph in Hcheck. rewrite forallb_forall in Hcheck.
  specialize (Hcheck (n, d)). simpl in Hcheck.
  destruct (attrs d !! attribute) as [v|]; [|done].
  destruct (py_float v) as [[]|x]; try done;
    (assert (false = true) as Habs; [|done]); apply Hcheck, list_elem_of_In;
    by apply elem_of_map_to_list.
Qed.

Lemma delta_stops_half_way_witness :
  ∃ σ' e',
    delta pyval_float Qminus 0%Q PyNum scenario "x" none_store = (σ', inl e') ∧
    σ' !! 1%nat = none_store !! 1%nat ∧
    node_attribute σ' 0%nat "C" "x_delta" = Some (PyNum 3).
Proof.
  destruct (delta_stops_half_way pyval_float Qminus 0%Q PyNum scenario "x" none_store
              [2000%Z] [] 2001%Z "B" TypeError none_well_formed)
    as (σ' & e' & Hrun & Hafter & Hbefore).
  - compute_done.
  - reflexivity.
  - intros k' n' e' Hk'. in_cases Hk'.
    apply (numeric_slice pyval_float scenario none_store "x" 2000%Z 0%nat (path_x 1 2 3));
      reflexivity.
  - reflexivity.
  - exists σ', e'. split_and!; [done| |].
    + apply (Hafter 2001%Z 1%nat); [by left|compute_done].
    + rewrite (Hbefore [] [] 2000%Z 0%nat eq_refl); [|compute_done]. reflexivity.
Defined.
